(** * NeoEnigma code obfuscator: the cipher engine, the text codec and the
    deterministic obfuscation passes of [src/src/extension.ts].

    Modelling conventions.
    - A JavaScript string is a [string]; its characters are 8-bit [ascii]
      values, read as the code units 0 to 255.  The character classes are
      exact on these.  [toUpperCase] and [toLowerCase] act on the letters
      a-z / A-Z only, which is exact on the code units below 128 (JavaScript
      also maps letters above 127, and turns code unit 223 into two
      characters); a theorem that applies one of them to a whole text
      assumes a text of code units below 128.
    - A JavaScript array of one-character strings is a [list (option ascii)];
      [None] is the value [undefined] (what [shift()] or [pop()] give on an
      empty array and what an out-of-range read [t[i]] gives).
    - A JavaScript number that is used as an index or a loop bound is a [Z];
      [-1] is the "not found" result of [indexOf].
    - A thrown [TypeError] is the result [None] of an [option]. *)

From Stdlib Require Import ZArith Ascii String DecimalString Lia.
From stdpp Require Import base option list strings gmap.

(** ** JavaScript string and array primitives *)

Module JS.

Definition is_upper (c : ascii) : bool :=
  ((65 <=? N_of_ascii c) && (N_of_ascii c <=? 90))%N.

Definition is_lower (c : ascii) : bool :=
  ((97 <=? N_of_ascii c) && (N_of_ascii c <=? 122))%N.

(** [/[A-Za-z]/.test(char)] *)
Definition is_letter (c : ascii) : bool := is_upper c || is_lower c.

(** [/\d/] *)
Definition is_digit (c : ascii) : bool :=
  ((48 <=? N_of_ascii c) && (N_of_ascii c <=? 57))%N.

(** [/\w/]: letters, digits and the underscore *)
Definition is_word (c : ascii) : bool :=
  is_letter c || is_digit c || (N_of_ascii c =? 95)%N.

(** [/\s/] and the characters removed by [trim()]: tab, line feed, vertical
    tab, form feed, carriage return, space and the no-break space 160 *)
Definition is_space (c : ascii) : bool :=
  Ascii.is_space c || (N_of_ascii c =? 160)%N.

Definition char_toUpperCase (c : ascii) : ascii :=
  if is_lower c then ascii_of_N (N_of_ascii c - 32) else c.

Definition char_toLowerCase (c : ascii) : ascii :=
  if is_upper c then ascii_of_N (N_of_ascii c + 32) else c.

Fixpoint toUpperCase (s : string) : string :=
  match s with
  | EmptyString => EmptyString
  | String c s' => String (char_toUpperCase c) (toUpperCase s')
  end.

Fixpoint toLowerCase (s : string) : string :=
  match s with
  | EmptyString => EmptyString
  | String c s' => String (char_toLowerCase c) (toLowerCase s')
  end.

(** [s.charAt(i)]: the one-character string at [i], or the empty string *)
Definition charAt (s : string) (i : Z) : string :=
  if (0 <=? i)%Z then
    match String.get (Z.to_nat i) s with
    | Some c => String c EmptyString
    | None => EmptyString
    end
  else EmptyString.

(** [s.indexOf(t)] on strings: first position where [t] occurs, else -1 *)
Fixpoint indexOf_from (n : nat) (s t : string) : Z :=
  if String.prefix t s then Z.of_nat n
  else match s with
       | EmptyString => (-1)%Z
       | String _ s' => indexOf_from (S n) s' t
       end.

Definition str_indexOf (s t : string) : Z := indexOf_from 0 s t.

Fixpoint trimStart (s : string) : string :=
  match s with
  | EmptyString => EmptyString
  | String c s' => if is_space c then trimStart s' else s
  end.

Fixpoint trimEnd (s : string) : string :=
  match s with
  | EmptyString => EmptyString
  | String c s' =>
      match trimEnd s' with
      | EmptyString => if is_space c then EmptyString else String c EmptyString
      | t => String c t
      end
  end.

Definition trim (s : string) : string := trimEnd (trimStart s).

(** [s.split(sep)] for a one-character separator *)
Fixpoint split (sep : ascii) (s : string) : list string :=
  match s with
  | EmptyString => [EmptyString]
  | String c s' =>
      if decide (c = sep) then EmptyString :: split sep s'
      else match split sep s' with
           | w :: ws => String c w :: ws
           | [] => [String c EmptyString]
           end
  end.

(** An array cell: a one-character string, or [undefined]. *)
Abbreviation cell := (option ascii).
Abbreviation table := (list (option ascii)).

(** [s.split('')] *)
Definition split_chars (s : string) : table := Some <$> list_ascii_of_string s.

(** [t[i]] *)
Definition at_index (t : table) (i : Z) : cell :=
  if (0 <=? i)%Z then default None (t !! Z.to_nat i) else None.

(** [t.indexOf(x)] on arrays (strict equality, first hit, else -1) *)
Definition indexOf (t : table) (x : cell) : Z :=
  match list_find (λ y, y = x) t with
  | Some (i, _) => Z.of_nat i
  | None => (-1)%Z
  end.

(** [t.push(t.shift())] *)
Definition shift_push (t : table) : table :=
  match t with
  | [] => [None]
  | x :: t' => t' ++ [x]
  end.

(** [t.unshift(t.pop())] *)
Definition pop_unshift (t : table) : table :=
  match last t with
  | None => [None]
  | Some x => x :: removelast t
  end.

(** [[t[i], t[j]] = [t[j], t[i]]] for indices found by [indexOf] *)
Definition swap_cells (t : table) (i j : Z) : table :=
  let vi := at_index t i in
  let vj := at_index t j in
  <[Z.to_nat j := vi]> (<[Z.to_nat i := vj]> t).

End JS.

Definition alphabet : string := "ABCDEFGHIJKLMNOPQRSTUVWXYZ".

(** ** The cipher machine (classes [Keyboard], [Plugboard], [Rotor],
    [Reflector], [Enigma]) *)

Module Keyboard.
Definition forward (letter : string) : Z := JS.str_indexOf alphabet letter.
Definition backward (signal : Z) : string := JS.charAt alphabet signal.
End Keyboard.

Module Plugboard.
Record t : Type := mk { left : JS.table; right : JS.table }.

(** One iteration of the constructor's loop over the pairs. *)
Definition apply_pair (l : JS.table) (pair : string) : JS.table :=
  match pair with
  | String a (String b _) =>
      let A := Some (JS.char_toUpperCase a) in
      let B := Some (JS.char_toUpperCase b) in
      let idxA := JS.indexOf l A in
      let idxB := JS.indexOf l B in
      if negb (idxA =? -1)%Z && negb (idxB =? -1)%Z
      then JS.swap_cells l idxA idxB
      else l
  | _ => l
  end.

Definition new (pairsStr : string) : t :=
  let pairs := JS.split " " (JS.trim pairsStr) in
  {| left := foldl apply_pair (JS.split_chars alphabet) pairs;
     right := JS.split_chars alphabet |}.

Definition forward (p : t) (signal : Z) : Z :=
  let letter := JS.at_index (right p) signal in
  JS.indexOf (left p) letter.

Definition backward (p : t) (signal : Z) : Z :=
  let letter := JS.at_index (left p) signal in
  JS.indexOf (right p) letter.
End Plugboard.

Module Rotor.
Record t : Type := mk { left : JS.table; right : JS.table; notch : string }.

Definition new (wiring notch : string) : t :=
  {| left := JS.split_chars alphabet;
     right := JS.split_chars wiring;
     notch := notch |}.

Definition forward (r : t) (signal : Z) : Z :=
  let letter := JS.at_index (right r) signal in
  JS.indexOf (left r) letter.

Definition backward (r : t) (signal : Z) : Z :=
  let letter := JS.at_index (left r) signal in
  JS.indexOf (right r) letter.

(** The body of the [for] loop of [rotate]. *)
Definition rotate_once (fwd : bool) (r : t) : t :=
  if fwd
  then {| left := JS.shift_push (left r);
          right := JS.shift_push (right r);
          notch := notch r |}
  else {| left := JS.pop_unshift (left r);
          right := JS.pop_unshift (right r);
          notch := notch r |}.

(** [rotate(n, forward)]: the loop runs [max 0 n] times. *)
Definition rotate (n : Z) (fwd : bool) (r : t) : t :=
  Nat.iter (Z.to_nat n) (rotate_once fwd) r.

Definition rotateToLetter (letter : string) (r : t) : t :=
  let n := JS.str_indexOf alphabet letter in
  rotate n true r.

(** [setRing(n)]; [None] is the argument [undefined], for which [n - 1] is
    [NaN]: the loop of [rotate] does not run and [charAt(NaN)] reads
    position 0. *)
Definition setRing (n : option Z) (r : t) : t :=
  match n with
  | Some n =>
      let r := rotate (n - 1) false r in
      let nNotch := JS.str_indexOf alphabet (notch r) in
      {| left := left r; right := right r;
         notch := JS.charAt alphabet (Z.rem (nNotch - n + 1 + 26) 26) |}
  | None =>
      {| left := left r; right := right r; notch := JS.charAt alphabet 0 |}
  end.
End Rotor.

Module Reflector.
Record t : Type := mk { left : JS.table; right : JS.table }.

Definition new (wiring : string) : t :=
  {| left := JS.split_chars alphabet; right := JS.split_chars wiring |}.

Definition reflect (r : t) (signal : Z) : Z :=
  let letter := JS.at_index (right r) signal in
  JS.indexOf (left r) letter.
End Reflector.

Module Enigma.
Record t : Type :=
  mk { re : Reflector.t; r1 : Rotor.t; r2 : Rotor.t; r3 : Rotor.t;
       pb : Plugboard.t }.

Record result : Type := mk_result { path : list Z; letter : string }.

Definition setRings (rings : list Z) (e : t) : t :=
  {| re := re e;
     r1 := Rotor.setRing (rings !! 0%nat) (r1 e);
     r2 := Rotor.setRing (rings !! 1%nat) (r2 e);
     r3 := Rotor.setRing (rings !! 2%nat) (r3 e);
     pb := pb e |}.

Definition setKey (key : string) (e : t) : t :=
  {| re := re e;
     r1 := Rotor.rotateToLetter (JS.toUpperCase (JS.charAt key 0)) (r1 e);
     r2 := Rotor.rotateToLetter (JS.toUpperCase (JS.charAt key 1)) (r2 e);
     r3 := Rotor.rotateToLetter (JS.toUpperCase (JS.charAt key 2)) (r3 e);
     pb := pb e |}.

(** [encipher(letter)]: the machine after the call, and the returned
    object. *)
Definition encipher (e : t) (letter : string) : t * result :=
  let e := {| re := re e; r1 := r1 e; r2 := r2 e;
              r3 := Rotor.rotate 1 true (r3 e); pb := pb e |} in
  let signal := Keyboard.forward letter in
  let path := [signal] in
  let signal := Plugboard.forward (pb e) signal in
  let path := path ++ [signal] in
  let signal := Rotor.forward (r3 e) signal in
  let path := path ++ [signal] in
  let signal := Rotor.forward (r2 e) signal in
  let path := path ++ [signal] in
  let signal := Rotor.forward (r1 e) signal in
  let path := path ++ [signal] in
  let signal := Reflector.reflect (re e) signal in
  let path := path ++ [signal] in
  let signal := Rotor.backward (r1 e) signal in
  let path := path ++ [signal] in
  let signal := Rotor.backward (r2 e) signal in
  let path := path ++ [signal] in
  let signal := Rotor.backward (r3 e) signal in
  let path := path ++ [signal] in
  let signal := Plugboard.backward (pb e) signal in
  let path := path ++ [signal] in
  let outputLetter := Keyboard.backward signal in
  (e, {| path := path; letter := outputLetter |}).
End Enigma.

(** ** The text codec ([enigmaObfuscate]) *)

Record Configuration : Type :=
  { rotors : string; rotorStart : string; rings : string;
    plugboard : string; reflector : string }.

Definition rotorWirings : gmap string string :=
  list_to_map
    [ ("I", "EKMFLGDQVZNTOWYHXUSPAIBRCJ");
      ("II", "AJDKSIRUXBLHWTMCQGZNPYFVOE");
      ("III", "BDFHJLCPRTXVZNYEIWGAKMUSQO");
      ("IV", "ESOVPZJAYQUIRHXLNFTGKDCMWB");
      ("V", "VZBRGITYUPSDNHLXAWMJQOFECK") ].

Definition reflectorWirings : gmap string string :=
  list_to_map
    [ ("A", "EJMZALYXVBWFCRQUONTSPIKHGD");
      ("B", "YRUHQSLDPXNGOKMIEBFZCWVJAT");
      ("C", "FVPJIAOYEDRZXWGCTKUQSBNMHL") ].

(** Construction of the machine: the part of [enigmaObfuscate] before its
    loop.  An unknown rotor or reflector name makes the lookup [undefined]
    and [wiring.split('')] throw. *)
Definition build_enigma (config : Configuration) : option Enigma.t :=
  let rotorNames := JS.split "-" (rotors config) in
  w1 ← rotorNames !! 0%nat ≫= (rotorWirings !!.);
  w2 ← rotorNames !! 1%nat ≫= (rotorWirings !!.);
  w3 ← rotorNames !! 2%nat ≫= (rotorWirings !!.);
  wr ← reflectorWirings !! reflector config;
  let r1 := Rotor.new w1 "Q" in
  let r2 := Rotor.new w2 "E" in
  let r3 := Rotor.new w3 "V" in
  let reflector := Reflector.new wr in
  let plugboard := Plugboard.new (plugboard config) in
  let enigma :=
    {| Enigma.re := reflector; Enigma.r1 := r1; Enigma.r2 := r2;
       Enigma.r3 := r3; Enigma.pb := plugboard |} in
  let enigma :=
    Enigma.setRings
      ((λ c, (JS.str_indexOf alphabet (String c EmptyString) + 1)%Z)
         <$> list_ascii_of_string (rings config)) enigma in
  let enigma := Enigma.setKey (rotorStart config) enigma in
  Some enigma.

(** The body of the loop over the characters of the text: the machine after
    the iteration and the text appended to [transformed]. *)
Definition codec_char (enigma : Enigma.t) (char : ascii) : Enigma.t * string :=
  if JS.is_letter char then
    let '(enigma, result) :=
      Enigma.encipher enigma (JS.toUpperCase (String char EmptyString)) in
    let newChar := Enigma.letter result in
    let newChar :=
      if decide (String char EmptyString = JS.toLowerCase (String char EmptyString))
      then JS.toLowerCase newChar else newChar in
    (enigma, newChar)
  else (enigma, String char EmptyString).

Fixpoint codec_loop (enigma : Enigma.t) (text transformed : string) : string :=
  match text with
  | EmptyString => transformed
  | String char text' =>
      let '(enigma, piece) := codec_char enigma char in
      codec_loop enigma text' (transformed +:+ piece)
  end.

Definition enigmaObfuscate (text : string) (config : Configuration)
    (obfuscate : bool) : option string :=
  enigma ← build_enigma config;
  Some (codec_loop enigma text "").

(** ** Permutation tables *)

Definition alpha_table : JS.table := JS.split_chars alphabet.

(** A table side is well formed when it is a permutation of the 26 letters. *)
Definition perm_table (t : JS.table) : Prop := t ≡ₚ alpha_table.

(** The common body of [forward], [backward] and [reflect]: read side [r] at
    [signal] and locate the letter on side [l]. *)
Definition through (l r : JS.table) (signal : Z) : Z :=
  JS.indexOf l (JS.at_index r signal).

Definition wf_rotor (r : Rotor.t) : Prop :=
  perm_table (Rotor.left r) ∧ perm_table (Rotor.right r).

(** ** Plugboard construction *)

(** The transposition of two cells. *)
Definition transpose (a b x : JS.cell) : JS.cell :=
  if decide (x = a) then b else if decide (x = b) then a else x.

(** The letter exchange that a pair token stands for: the identity unless
    both of its first two characters are letters. *)
Definition pair_exchange (pair : string) : JS.cell → JS.cell :=
  match pair with
  | String a (String b _) =>
      let A := Some (JS.char_toUpperCase a) in
      let B := Some (JS.char_toUpperCase b) in
      if decide (A ∈ alpha_table ∧ B ∈ alpha_table) then transpose A B else id
  | _ => id
  end.

(** ** The machine: well-formedness and the substitution it computes *)

Definition wf_plugboard (p : Plugboard.t) : Prop :=
  perm_table (Plugboard.left p) ∧ perm_table (Plugboard.right p).

(** A reflector table is a permutation; the published wirings are moreover
    involutions without fixed point. *)
Definition wf_reflector (r : Reflector.t) : Prop :=
  perm_table (Reflector.left r) ∧ perm_table (Reflector.right r) ∧
  ∀ s, (0 ≤ s < 26)%Z →
       Reflector.reflect r (Reflector.reflect r s) = s ∧
       Reflector.reflect r s ≠ s.

Record wf_enigma (e : Enigma.t) : Prop :=
  { wf_re : wf_reflector (Enigma.re e);
    wf_r1 : wf_rotor (Enigma.r1 e);
    wf_r2 : wf_rotor (Enigma.r2 e);
    wf_r3 : wf_rotor (Enigma.r3 e);
    wf_pb : wf_plugboard (Enigma.pb e) }.

(** The machine after the stepping of one [encipher] call. *)
Definition advance (e : Enigma.t) : Enigma.t :=
  {| Enigma.re := Enigma.re e; Enigma.r1 := Enigma.r1 e;
     Enigma.r2 := Enigma.r2 e;
     Enigma.r3 := Rotor.rotate 1 true (Enigma.r3 e);
     Enigma.pb := Enigma.pb e |}.

(** The signal path through a machine that stands still. *)
Definition core (e : Enigma.t) (s : Z) : Z :=
  Plugboard.backward (Enigma.pb e)
    (Rotor.backward (Enigma.r3 e)
       (Rotor.backward (Enigma.r2 e)
          (Rotor.backward (Enigma.r1 e)
             (Reflector.reflect (Enigma.re e)
                (Rotor.forward (Enigma.r1 e)
                   (Rotor.forward (Enigma.r2 e)
                      (Rotor.forward (Enigma.r3 e)
                         (Plugboard.forward (Enigma.pb e) s)))))))).

(** ** The built-in wirings *)

Definition perm_check (t : JS.table) : bool :=
  bool_decide (NoDup t ∧ length t = 26%nat ∧ Forall (.∈ alpha_table) t).

Definition reflector_check (r : Reflector.t) : bool :=
  bool_decide
    (Forall (λ s, Reflector.reflect r (Reflector.reflect r s) = s ∧
                  Reflector.reflect r s ≠ s) (seqZ 0 26)).

(** ** Construction of the machine *)

(** The rotor names and the reflector name resolve to known wirings. *)
Definition resolves (config : Configuration) : Prop :=
  let rotorNames := JS.split "-" (rotors config) in
  (∀ i, (i < 3)%nat →
        ∃ name, rotorNames !! i = Some name ∧ is_Some (rotorWirings !! name)) ∧
  is_Some (reflectorWirings !! reflector config).

(** ** The loop of the text codec *)

(** The text produced by the loop, and the machine it leaves, without the
    accumulator [transformed]. *)
Fixpoint codec_run (enigma : Enigma.t) (text : string) : string :=
  match text with
  | EmptyString => EmptyString
  | String char text' =>
      let '(enigma', piece) := codec_char enigma char in
      piece +:+ codec_run enigma' text'
  end.

Fixpoint codec_state (enigma : Enigma.t) (text : string) : Enigma.t :=
  match text with
  | EmptyString => enigma
  | String char text' => codec_state (codec_char enigma char).1 text'
  end.

(** ** A reference machine: rotors I-II-III, rings AAA, start AAA,
    reflector B, empty plugboard *)

Definition cfg0 : Configuration :=
  {| rotors := "I-II-III"; rotorStart := "AAA"; rings := "AAA";
     plugboard := ""; reflector := "B" |}.

Definition enigma0 : Enigma.t :=
  {| Enigma.re := Reflector.new "YRUHQSLDPXNGOKMIEBFZCWVJAT";
     Enigma.r1 := Rotor.new "EKMFLGDQVZNTOWYHXUSPAIBRCJ" "Q";
     Enigma.r2 := Rotor.new "AJDKSIRUXBLHWTMCQGZNPYFVOE" "E";
     Enigma.r3 := Rotor.new "BDFHJLCPRTXVZNYEIWGAKMUSQO" "V";
     Enigma.pb := Plugboard.new "" |}.

(** ** The policy of the specification for conflicting plugboard pairs *)

(** In the words of the specification: a pair is applied when none of its
    letters occurs in a pair applied before it; a later pair that shares a
    letter with one is skipped altogether.  The state is the table and the
    letters used so far. *)
Definition first_wins_step (st : JS.table * list JS.cell) (pair : string)
    : JS.table * list JS.cell :=
  match pair with
  | String a (String b _) =>
      let A := Some (JS.char_toUpperCase a) in
      let B := Some (JS.char_toUpperCase b) in
      if decide (A ∈ alpha_table ∧ B ∈ alpha_table) then
        if decide (A ∈ st.2 ∨ B ∈ st.2) then st
        else (transpose A B <$> st.1, A :: B :: st.2)
      else st
  | _ => st
  end.

Definition Plugboard_first_wins (pairsStr : string) : Plugboard.t :=
  let pairs := JS.split " " (JS.trim pairsStr) in
  {| Plugboard.left := (foldl first_wins_step (alpha_table, []) pairs).1;
     Plugboard.right := alpha_table |}.

(** ** Regular expressions and [String.prototype.replace] with the [g] flag

    The patterns of the source use literals, character classes, greedy and
    lazy repetition of a class, alternatives of literals, capture groups
    without nesting and a leading [\b].  The matcher is the backtracking
    matcher of JavaScript restricted to these forms, in continuation style:
    [k] is what remains of the pattern. *)

Module Regex.

Inductive atom : Type :=
| Lit (l : list ascii)              (* a literal text *)
| Cls (p : ascii → bool)            (* one character of a class *)
| Star (p : ascii → bool)           (* class*  (greedy) *)
| Plus (p : ascii → bool)           (* class+  (greedy) *)
| LazyStar (p : ascii → bool)       (* class*? (lazy) *)
| Opt (p : ascii → bool)            (* class?  (greedy) *)
| AnyOf (alts : list (list ascii)). (* lit|lit|... , tried in order *)

Inductive item : Type :=
| At (a : atom)
| Group (g : list atom).            (* ( ... ) *)

Record t : Type := mk { word_boundary : bool; body : list item }.

(** The captures so far and the text that is left. *)
Definition result : Type := list (list ascii) * list ascii.

Fixpoint drop_prefix (l s : list ascii) : option (list ascii) :=
  match l, s with
  | [], _ => Some s
  | a :: l', c :: s' => if decide (a = c) then drop_prefix l' s' else None
  | _ :: _, [] => None
  end.

Definition or_else {R} (x y : option R) : option R :=
  match x with Some r => Some r | None => y end.

Fixpoint star_greedy {R} (p : ascii → bool) (k : list ascii → option R)
    (s : list ascii) : option R :=
  match s with
  | c :: s' => if p c then or_else (star_greedy p k s') (k s) else k s
  | [] => k s
  end.

Fixpoint star_lazy {R} (p : ascii → bool) (k : list ascii → option R)
    (s : list ascii) : option R :=
  or_else (k s)
    match s with
    | c :: s' => if p c then star_lazy p k s' else None
    | [] => None
    end.

Fixpoint any_of {R} (alts : list (list ascii)) (k : list ascii → option R)
    (s : list ascii) : option R :=
  match alts with
  | [] => None
  | l :: alts' => or_else (drop_prefix l s ≫= k) (any_of alts' k s)
  end.

Definition m_atom {R} (a : atom) (k : list ascii → option R)
    (s : list ascii) : option R :=
  match a with
  | Lit l => drop_prefix l s ≫= k
  | Cls p =>
      match s with c :: s' => if p c then k s' else None | [] => None end
  | Star p => star_greedy p k s
  | Plus p =>
      match s with
      | c :: s' => if p c then star_greedy p k s' else None
      | [] => None
      end
  | LazyStar p => star_lazy p k s
  | Opt p =>
      match s with
      | c :: s' => if p c then or_else (k s') (k s) else k s
      | [] => k s
      end
  | AnyOf alts => any_of alts k s
  end.

Fixpoint m_atoms {R} (l : list atom) (k : list ascii → option R)
    (s : list ascii) : option R :=
  match l with
  | [] => k s
  | a :: l' => m_atom a (m_atoms l' k) s
  end.

(** The text consumed between [s] and its suffix [s']. *)
Definition consumed (s s' : list ascii) : list ascii :=
  take (length s - length s') s.

Fixpoint m_items (l : list item) (caps : list (list ascii))
    (s : list ascii) : option result :=
  match l with
  | [] => Some (caps, s)
  | At a :: l' => m_atom a (m_items l' caps) s
  | Group g :: l' =>
      m_atoms g (λ s', m_items l' (caps ++ [consumed s s']) s') s
  end.

Definition is_word_opt (c : option ascii) : bool :=
  match c with Some c => JS.is_word c | None => false end.

(** [\b] between the character before the position and the one at it. *)
Definition at_boundary (prev : option ascii) (s : list ascii) : bool :=
  xorb (is_word_opt prev) (is_word_opt (head s)).

(** One match attempt at the current position. *)
Definition exec (re : t) (prev : option ascii) (s : list ascii)
    : option result :=
  if word_boundary re && negb (at_boundary prev s) then None
  else m_items (body re) [] s.

(** [text.replace(re, f)] for a global [re]: scan from the left; at a
    match, emit [f match captures] and resume after the match; otherwise
    copy the character.  [skip] counts the characters of the last match
    that are still to be passed over. *)
Fixpoint scan (re : t) (f : list ascii → list (list ascii) → list ascii)
    (prev : option ascii) (skip : nat) (s : list ascii) : list ascii :=
  match s with
  | [] =>
      match skip, exec re prev [] with
      | O, Some (caps, _) => f [] caps
      | _, _ => []
      end
  | c :: s' =>
      match skip with
      | S n => scan re f (Some c) n s'
      | O =>
          match exec re prev s with
          | Some (caps, rest) =>
              let m := consumed s rest in
              f m caps ++
              match length m with
              | O => c :: scan re f (Some c) 0 s'
              | S n => scan re f (Some c) n s'
              end
          | None => c :: scan re f (Some c) 0 s'
          end
      end
  end.

Definition replace (re : t)
    (f : list ascii → list (list ascii) → list ascii) (code : string)
    : string :=
  string_of_list_ascii (scan re f None 0 (list_ascii_of_string code)).

End Regex.

(** Character classes of the patterns. *)
Definition lit (s : string) : list ascii := list_ascii_of_string s.
Definition is_char (c : ascii) : ascii → bool := λ x, bool_decide (x = c).
Definition not_char (c : ascii) : ascii → bool := λ x, negb (bool_decide (x = c)).
(** [.]: any character but a line terminator *)
Definition is_dot (x : ascii) : bool :=
  negb (bool_decide (x = "010"%char) || bool_decide (x = "013"%char)).
(** [[w.]] *)
Definition is_w_or_dot (x : ascii) : bool :=
  bool_decide (x = "w"%char) || bool_decide (x = "."%char).
(** [[a-zA-Z_$]] *)
Definition is_ident_start (x : ascii) : bool :=
  JS.is_letter x || bool_decide (x = "_"%char) || bool_decide (x = "$"%char).
(** [[\w$]] *)
Definition is_ident_part (x : ascii) : bool :=
  JS.is_word x || bool_decide (x = "$"%char).

(** The n-th capture, [$n] (1-based in JavaScript, 0-based here). *)
Definition capture (caps : list (list ascii)) (n : nat) : list ascii :=
  default [] (caps !! n).

(** ** The deterministic passes *)

(** [parseInt(b)] for a run of decimal digits, as an exact number; the code
    computes with doubles, so the two agree for runs below 2^53. *)
Definition parseInt (b : list ascii) : N :=
  foldl (λ acc c, (acc * 10 + (N_of_ascii c - 48))%N) 0%N b.

(** The text of a non-negative integer in a template string. *)
Definition N_to_text (n : N) : list ascii :=
  lit (NilZero.string_of_uint (N.to_uint n)).

(** The text of [${-parseInt(b)}]; minus zero prints as 0. *)
Definition neg_text (n : N) : list ascii :=
  if (n =? 0)%N then lit "0" else lit "-" ++ N_to_text n.

Section encodeArithmetic.
(** The text of [${Math.log2(n)}], a floating-point computation, is a
    parameter of the pass. *)
Variable log2_text : N → list ascii.

Definition arith_regex (op : ascii) : Regex.t :=
  {| Regex.word_boundary := false;
     Regex.body :=
       [ Regex.Group [Regex.Plus is_w_or_dot];
         Regex.At (Regex.Star JS.is_space);
         Regex.At (Regex.Lit [op]);
         Regex.At (Regex.Star JS.is_space);
         Regex.Group [Regex.Plus JS.is_digit] ] |}.

Definition replace_plus (_ : list ascii) (caps : list (list ascii)) :=
  let a := capture caps 0 in
  let b := capture caps 1 in
  lit "(" ++ a ++ lit " - (" ++ neg_text (parseInt b) ++ lit "))".

Definition replace_times (_ : list ascii) (caps : list (list ascii)) :=
  let a := capture caps 0 in
  let b := capture caps 1 in
  lit "((" ++ a ++ lit " << " ++ log2_text (parseInt b) ++ lit ") + "
    ++ a ++ lit " * " ++ N_to_text (parseInt b mod 2) ++ lit ")".

Definition replace_minus (_ : list ascii) (caps : list (list ascii)) :=
  let a := capture caps 0 in
  let b := capture caps 1 in
  lit "(" ++ a ++ lit " + (" ++ neg_text (parseInt b) ++ lit "))".

Definition encodeArithmetic (code : string) : string :=
  let patterns :=
    [ (arith_regex "+", replace_plus);
      (arith_regex "*", replace_times);
      (arith_regex "-", replace_minus) ] in
  foldl (λ transformed '(regex, replace), Regex.replace regex replace transformed)
    code patterns.
End encodeArithmetic.

Definition varRegex : Regex.t :=
  {| Regex.word_boundary := true;
     Regex.body :=
       [ Regex.Group [Regex.AnyOf [lit "let"; lit "const"; lit "var"]];
         Regex.At (Regex.Plus JS.is_space);
         Regex.Group [Regex.Cls is_ident_start; Regex.Star is_ident_part];
         Regex.At (Regex.Star JS.is_space);
         Regex.At (Regex.Lit (lit "="));
         Regex.At (Regex.Star JS.is_space);
         Regex.Group [Regex.Plus (not_char ";")];
         Regex.At (Regex.Lit (lit ";")) ] |}.

(** The callback of [applyVariableHiding]:
    [(match, keyword, name, value) => ...] *)
Definition hide_value (_ : list ascii) (caps : list (list ascii)) : list ascii :=
  let keyword := capture caps 0 in
  let name := capture caps 1 in
  let value := capture caps 2 in
  let hiddenValue := lit "(" ++ value ++ lit " * 1 + 0)" in
  keyword ++ lit " " ++ name ++ lit " = " ++ hiddenValue ++ lit ";".

Definition applyVariableHiding (code : string) : string :=
  Regex.replace varRegex hide_value code.

(** [/\bfunction\s+_dummy\d+[^}]+}/g] *)
Definition junk_regex : Regex.t :=
  {| Regex.word_boundary := true;
     Regex.body :=
       [ Regex.At (Regex.Lit (lit "function"));
         Regex.At (Regex.Plus JS.is_space);
         Regex.At (Regex.Lit (lit "_dummy"));
         Regex.At (Regex.Plus JS.is_digit);
         Regex.At (Regex.Plus (not_char "}"));
         Regex.At (Regex.Lit (lit "}")) ] |}.

(** [/const _t = performance\.now\(\);\n?/g] *)
Definition timing_regex : Regex.t :=
  {| Regex.word_boundary := false;
     Regex.body :=
       [ Regex.At (Regex.Lit (lit "const _t = performance.now();"));
         Regex.At (Regex.Opt (is_char "010")) ] |}.

(** [/if\(_t % 2 === 0\)[^}]+}\n?/g] *)
Definition even_regex : Regex.t :=
  {| Regex.word_boundary := false;
     Regex.body :=
       [ Regex.At (Regex.Lit (lit "if(_t % 2 === 0)"));
         Regex.At (Regex.Plus (not_char "}"));
         Regex.At (Regex.Lit (lit "}"));
         Regex.At (Regex.Opt (is_char "010")) ] |}.

(** [/try\s*{\s*_dummy\d+\(\);\s*}\s*catch\(e\)\s*{[^}]+}\n?/g] *)
Definition try_regex : Regex.t :=
  {| Regex.word_boundary := false;
     Regex.body :=
       [ Regex.At (Regex.Lit (lit "try"));
         Regex.At (Regex.Star JS.is_space);
         Regex.At (Regex.Lit (lit "{"));
         Regex.At (Regex.Star JS.is_space);
         Regex.At (Regex.Lit (lit "_dummy"));
         Regex.At (Regex.Plus JS.is_digit);
         Regex.At (Regex.Lit (lit "();"));
         Regex.At (Regex.Star JS.is_space);
         Regex.At (Regex.Lit (lit "}"));
         Regex.At (Regex.Star JS.is_space);
         Regex.At (Regex.Lit (lit "catch(e)"));
         Regex.At (Regex.Star JS.is_space);
         Regex.At (Regex.Lit (lit "{"));
         Regex.At (Regex.Plus (not_char "}"));
         Regex.At (Regex.Lit (lit "}"));
         Regex.At (Regex.Opt (is_char "010")) ] |}.

(** [/\((.*?)\s*\*\s*1\s*\+\s*0\)/g] *)
Definition unwrap_regex : Regex.t :=
  {| Regex.word_boundary := false;
     Regex.body :=
       [ Regex.At (Regex.Lit (lit "("));
         Regex.Group [Regex.LazyStar is_dot];
         Regex.At (Regex.Star JS.is_space);
         Regex.At (Regex.Lit (lit "*"));
         Regex.At (Regex.Star JS.is_space);
         Regex.At (Regex.Lit (lit "1"));
         Regex.At (Regex.Star JS.is_space);
         Regex.At (Regex.Lit (lit "+"));
         Regex.At (Regex.Star JS.is_space);
         Regex.At (Regex.Lit (lit "0)")) ] |}.

(** The replacement texts [''] and ['$1']. *)
Definition nothing (_ : list ascii) (_ : list (list ascii)) : list ascii := [].
Definition first_capture (_ : list ascii) (caps : list (list ascii))
    : list ascii := capture caps 0.

Definition removeObfuscation (code : string) : string :=
  (* Remove junk functions *)
  let code := Regex.replace junk_regex nothing code in
  (* Remove dummy operations *)
  let code := Regex.replace timing_regex nothing code in
  let code := Regex.replace even_regex nothing code in
  let code := Regex.replace try_regex nothing code in
  (* Simplify hidden variables *)
  let code := Regex.replace unwrap_regex first_capture code in
  code.

(** ** Texts in which the removal pass finds nothing *)

(** A match of the pattern starts somewhere in the text [s]; [prev] is the
    character before [s]. *)
Fixpoint occurs_from (re : Regex.t) (prev : option ascii) (s : list ascii)
    : bool :=
  match Regex.exec re prev s with
  | Some _ => true
  | None =>
      match s with
      | [] => false
      | c :: s' => occurs_from re (Some c) s'
      end
  end.

Definition occurs (re : Regex.t) (code : string) : bool :=
  occurs_from re None (lit code).

(** The five patterns of [removeObfuscation], in the order of its passes. *)
Definition removal_patterns : list Regex.t :=
  [junk_regex; timing_regex; even_regex; try_regex; unwrap_regex].

(** None of the five patterns matches anywhere in the text. *)
Definition fully_stripped (code : string) : bool :=
  forallb (λ re, negb (occurs re code)) removal_patterns.

(** Every match of [re] is replaced by a shorter text. *)
Definition shrinks (re : Regex.t)
    (f : list ascii → list (list ascii) → list ascii) : Prop :=
  ∀ prev s caps rest,
    Regex.exec re prev s = Some (caps, rest) →
    (length (f (Regex.consumed s rest) caps)
     < length (Regex.consumed s rest))%nat.

Definition atom_needs (c : ascii) (a : Regex.atom) : Prop :=
  match a with Regex.Lit l => c ∈ l | _ => False end.

Definition item_needs (c : ascii) (i : Regex.item) : Prop :=
  match i with Regex.At a => atom_needs c a | Regex.Group _ => False end.

(** ** Declarations written in canonical form *)

Record declaration : Type :=
  { d_keyword : string; d_name : string; d_value : string }.

(** [KEYWORD NAME = VALUE;] with single spaces *)
Definition statement (d : declaration) : list ascii :=
  lit (d_keyword d) ++ lit " " ++ lit (d_name d) ++ lit " = "
    ++ lit (d_value d) ++ lit ";".

(** [KEYWORD NAME = (VALUE * 1 + 0);] *)
Definition wrapped_statement (d : declaration) : list ascii :=
  lit (d_keyword d) ++ lit " " ++ lit (d_name d) ++ lit " = "
    ++ (lit "(" ++ lit (d_value d) ++ lit " * 1 + 0)") ++ lit ";".

Definition newline : list ascii := ["010"%char].

(** A text of statements, each on a line of its own. *)
Definition lines (stmts : list (list ascii)) : list ascii :=
  concat ((λ l, l ++ newline) <$> stmts).

Definition program (ds : list declaration) : string :=
  string_of_list_ascii (lines (statement <$> ds)).

Definition is_identifier (n : list ascii) : bool :=
  match n with
  | c :: n' => is_ident_start c && forallb is_ident_part n'
  | [] => false
  end.

(** Characters that a plain value must not contain: the statement
    terminator, the closing brace and the star that the patterns of the
    removal pass look for, and the line terminators. *)
Definition excluded_in_value : list ascii :=
  [";"; "}"; "*"; "010"; "013"]%char.

(** A value on one line, not empty, without leading or trailing white
    space and without the excluded characters. *)
Definition is_plain_value (v : list ascii) : bool :=
  match v, last v with
  | c :: _, Some z =>
      negb (JS.is_space c) && negb (JS.is_space z) &&
      forallb (λ x, negb (bool_decide (x ∈ excluded_in_value))) v
  | _, _ => false
  end.

Definition canonical (d : declaration) : bool :=
  bool_decide (d_keyword d ∈ ["let"; "const"; "var"]) &&
  is_identifier (lit (d_name d)) && is_plain_value (lit (d_value d)).

Ltac ascii_cases x H :=
  revert H; destruct x as [[] [] [] [] [] [] [] []];
  let H' := fresh in intros H'; vm_compute in H'; try discriminate H'; clear H'.

(** ** The removal pass on wrapped canonical declarations *)

(** The text before the value: [KEYWORD NAME = ]. *)
Definition declaration_head (d : declaration) : list ascii :=
  lit (d_keyword d) ++ lit " " ++ lit (d_name d) ++ lit " = ".

(** No [;] of the text follows the two characters [()]. *)
Fixpoint no_call_semi (p2 p1 : ascii) (s : list ascii) : Prop :=
  match s with
  | [] => True
  | c :: s' =>
      (c = ";"%char → ¬ (p2 = "("%char ∧ p1 = ")"%char)) ∧ no_call_semi p1 c s'
  end.

(** * Definitions for the further properties *)

(** ** The text codec: letters seen by the machine *)

(** The number of characters of the text that are handed to [encipher]. *)
Fixpoint count_letters (text : string) : nat :=
  match text with
  | EmptyString => 0
  | String char text' =>
      if JS.is_letter char then S (count_letters text') else count_letters text'
  end.

(** ** Plugboard pairs that share no letter *)

(** The two letters that a pair token exchanges, if it exchanges any. *)
Definition pair_letters (pair : string) : list JS.cell :=
  match pair with
  | String a (String b _) =>
      let A := Some (JS.char_toUpperCase a) in
      let B := Some (JS.char_toUpperCase b) in
      if decide (A ∈ alpha_table ∧ B ∈ alpha_table) then [A; B] else []
  | _ => []
  end.

(** No letter is used twice in the pair string. *)
Definition conflict_free (pairsStr : string) : Prop :=
  NoDup (concat (pair_letters <$> JS.split " " (JS.trim pairsStr))).

(** The exchanges of all pairs, applied to one cell in the order of the
    pairs. *)
Definition exchange_all (pairs : list string) (x : JS.cell) : JS.cell :=
  foldl (λ y pair, pair_exchange pair y) x pairs.

(** ** Texts of code units below 128

    On these [JS.toUpperCase] and [JS.toLowerCase] are what JavaScript
    computes. *)
Definition is_ascii_text (s : string) : bool :=
  forallb (λ c, (N_of_ascii c <? 128)%N) (lit s).

(** ** The chat path

    [sendGeminiChat] enciphers the reply of the service with the loop of
    [enigmaObfuscate] and returns it in upper case; the chat panel has its
    own [enigmaObfuscate], which upper-cases the message first and hands
    every character in A-Z to [encipher]. *)

Definition sendGeminiChat_encrypt (aiResponse : string)
    (config : Configuration) : option string :=
  enigma ← build_enigma config;
  let encryptedResponse := codec_loop enigma aiResponse "" in
  Some (JS.toUpperCase encryptedResponse).

(** The panel's [createEnigmaMachineFromConfig]: it takes no parameter and
    reads the configuration from the five input fields of the panel, here
    [fields], at the time of the call; the machine is then built by the
    statements of the host. *)
Definition createEnigmaMachineFromConfig (fields : Configuration)
    : option Enigma.t :=
  build_enigma fields.

(** The body of the loop of the panel's [enigmaObfuscate]. *)
Definition panel_char (machine : Enigma.t) (char : ascii) : Enigma.t * string :=
  if JS.is_upper char then
    let '(machine, result) :=
      Enigma.encipher machine (String char EmptyString) in
    (machine, Enigma.letter result)
  else (machine, String char EmptyString).

Fixpoint panel_loop (machine : Enigma.t) (message result : string) : string :=
  match message with
  | EmptyString => result
  | String char message' =>
      let '(machine, piece) := panel_char machine char in
      panel_loop machine message' (result +:+ piece)
  end.

(** The panel's [enigmaObfuscate(message, config)]: the argument [config]
    is handed to [createEnigmaMachineFromConfig], which ignores it. *)
Definition panel_enigmaObfuscate (fields : Configuration) (message : string)
    (config : Configuration) : option string :=
  machine ← createEnigmaMachineFromConfig fields;
  Some (panel_loop machine (JS.toUpperCase message) "").

Definition panel_enigmaDeobfuscate (fields : Configuration) (message : string)
    (config : Configuration) : option string :=
  panel_enigmaObfuscate fields message config.

(** ** The tokenizer and the padding of the classifier
    ([src/src/ml/codeAnalyzer.ts] and the training script) *)

(** [l.slice(0, end)]: a negative [end] counts from the end of the array. *)
Definition slice_to {A} (l : list A) (end_ : Z) : list A :=
  let len := Z.of_nat (length l) in
  let final := if (end_ <? 0)%Z then Z.max (len + end_) 0 else Z.min end_ len in
  take (Z.to_nat final) l.

(** The separators of [/[\s\n\r\t{}()[\],;=+\-*/<>!&|^%]+/]. *)
Definition is_separator (c : ascii) : bool :=
  JS.is_space c ||
  bool_decide (c ∈ ["{"; "}"; "("; ")"; "["; "]"; ","; ";"; "="; "+"; "-";
                    "*"; "/"; "<"; ">"; "!"; "&"; "|"; "^"; "%"]%char).

(** [code.split(/[...]+/)]: the pieces between the maximal runs of
    separators; the first and the last piece may be empty.  [in_sep] tells
    that the character before was a separator. *)
Fixpoint split_runs (in_sep : bool) (s : list ascii) : list (list ascii) :=
  match s with
  | [] => [[]]
  | c :: s' =>
      if is_separator c then
        if in_sep then split_runs true s' else [] :: split_runs true s'
      else
        match split_runs false s' with
        | w :: ws => (c :: w) :: ws
        | [] => [[c]]
        end
  end.

(** The text begins with a separator (and [b], the flag of [split_runs], does
    not say that a run of separators is already open). *)
Definition leading_separator (b : bool) (s : list ascii) : bool :=
  negb b && match s with c :: _ => is_separator c | [] => false end.

(** [word.split('').reduce((acc, char) => (acc * 31 + char.charCodeAt(0)) >>> 0, 0)] *)
Definition word_hash (word : list ascii) : Z :=
  foldl (λ acc char, ((acc * 31 + Z.of_N (N_of_ascii char)) mod 2 ^ 32)%Z)
    0%Z word.

(** [padSequence]; the array of zeros is made by [new Array(n)], which
    throws for [n] from 2^32 on: the definition is for lengths below that. *)
Definition padSequence (sequence : list Z) (maxLength : Z) : list Z :=
  if (Z.of_nat (length sequence) >? maxLength)%Z
  then slice_to sequence maxLength
  else sequence
         ++ replicate (Z.to_nat (maxLength - Z.of_nat (length sequence))) 0%Z.

Module CodeAnalyzer.

Definition simpleTokenize (code : string) : list Z :=
  let words := split_runs false (lit code) in
  let tokens :=
    foldl (λ tokens word,
             if decide (word = []) then tokens
             else tokens ++ [Z.rem (word_hash word) 5000])
      [] words in
  slice_to tokens 512.

Section tokenizeCode.
(** The parser and the walk over the syntax tree are outside the model:
    [nodeTypes] stands for [Object.values(AST_NODE_TYPES)], and
    [ast_types fileType code] for the [type] fields that [traverseAST] visits
    in the parsed code, in order, or [None] when parsing throws. *)
Variable nodeTypes : list string.
Variable ast_types : string → string → option (list string).

Definition nodeTypeToToken (type : string) : Z :=
  let index :=
    match list_find (λ t, t = type) nodeTypes with
    | Some (i, _) => Z.of_nat i
    | None => (-1)%Z
    end in
  if (index =? -1)%Z then 0%Z else Z.rem index 5000.

Definition astToTokens (types : list string) : list Z :=
  foldl (λ tokens type, tokens ++ [nodeTypeToToken type]) [] types.

Definition tokenizeCode (code fileType : string) : list Z :=
  if negb (bool_decide (fileType ∈ [".js"; ".ts"; ".tsx"; ".jsx"]))
  then simpleTokenize code
  else match ast_types fileType code with
       | Some ast =>
           let tokens := astToTokens ast in
           (λ token, Z.rem token 5000) <$> tokens
       | None => simpleTokenize code
       end.

(** The token row that [analyzeCode] hands to the model. *)
Definition analyzeCode_input (code fileType : string) : list Z :=
  let tokens := tokenizeCode code fileType in
  let paddedTokens := padSequence tokens 512 in
  let validTokens := (λ t, Z.max 0 (Z.min t 4999)) <$> paddedTokens in
  validTokens.
End tokenizeCode.

End CodeAnalyzer.

Module Training.

(** [tokenizeCode] of the training script: every piece is hashed, the empty
    ones too. *)
Definition tokenizeCode (code : string) : list Z :=
  let tokens := split_runs false (lit code) in
  (λ token, Z.rem (word_hash token) 5000) <$> tokens.

(** A row of the training input. *)
Definition training_row (code : string) : list Z :=
  padSequence (tokenizeCode code) 512.

End Training.

(** ** What a pattern needs in order to match *)

(** Every text matched by the atom contains a character of the class [P]. *)
Definition atom_requires (P : ascii → bool) (a : Regex.atom) : Prop :=
  match a with
  | Regex.Lit l => Exists (λ c, P c = true) l
  | Regex.Cls p | Regex.Plus p => ∀ c, p c = true → P c = true
  | _ => False
  end.

Definition item_requires (P : ascii → bool) (i : Regex.item) : Prop :=
  match i with
  | Regex.At a => atom_requires P a
  | Regex.Group g => Exists (atom_requires P) g
  end.

(** No character of the text is in the class [P]. *)
Definition free_of (P : ascii → bool) (code : string) : bool :=
  forallb (λ c, negb (P c)) (lit code).

(** ** Ring settings against start positions *)

(** Two rotors with the same tables; the notch letter may differ. *)
Definition same_tables (r r' : Rotor.t) : Prop :=
  Rotor.left r = Rotor.left r' ∧ Rotor.right r = Rotor.right r'.

Definition same_machine (e e' : Enigma.t) : Prop :=
  Enigma.re e = Enigma.re e' ∧
  same_tables (Enigma.r1 e) (Enigma.r1 e') ∧
  same_tables (Enigma.r2 e) (Enigma.r2 e') ∧
  same_tables (Enigma.r3 e) (Enigma.r3 e') ∧
  Enigma.pb e = Enigma.pb e'.

(** A ring setting or a start position: three capital letters. *)
Definition is_key (s : string) : bool :=
  match s with
  | String a (String b (String c EmptyString)) =>
      JS.is_upper a && JS.is_upper b && JS.is_upper c
  | _ => false
  end.

Definition letter_index (c : ascii) : Z :=
  JS.str_indexOf alphabet (String c EmptyString).

Definition letter_at (k : Z) : ascii := ascii_of_N (65 + Z.to_N k).

(** The start position that stands for a start position used together with
    a ring setting: letter by letter, the start letter moved back by the
    ring letter. *)
Definition net_start (rings start : string) : string :=
  match rings, start with
  | String a (String b (String c _)), String x (String y (String z _)) =>
      String (letter_at ((letter_index x - letter_index a) mod 26))
        (String (letter_at ((letter_index y - letter_index b) mod 26))
           (String (letter_at ((letter_index z - letter_index c) mod 26))
              EmptyString))
  | _, _ => start
  end.

Definition with_key (config : Configuration) (rings start : string)
    : Configuration :=
  {| rotors := rotors config; rotorStart := start; rings := rings;
     plugboard := plugboard config; reflector := reflector config |}.

(** ** Control-flow flattening ([flattenControlFlow]) *)

Definition nl : string := String "010" EmptyString.

(** [l.join(sep)] *)
Fixpoint array_join (sep : string) (l : list string) : string :=
  match l with
  | [] => EmptyString
  | [x] => x
  | x :: l' => x +:+ sep +:+ array_join sep l'
  end.

(** The text of a counter in a template string. *)
Definition number_text (n : N) : string := NilZero.string_of_uint (N.to_uint n).

(** One iteration of the loop over the lines: three entries are pushed and
    the counter goes up.  (The jump table that the loop also fills is never
    read.) *)
Definition flatten_step (acc : list string * N) (line : string)
    : list string * N :=
  let '(flattened, state) := acc in
  (flattened
     ++ [ "case " +:+ number_text state +:+ ": // " +:+ JS.trim line;
          line;
          "state = " +:+ number_text (state + 1) +:+ "; break;" ],
   (state + 1)%N).

Definition flattenControlFlow (code : string) : string :=
  let lines := JS.split "010" code in
  let '(flattened, state) := foldl flatten_step ([], 0%N) lines in
  "let state = 0;" +:+ nl +:+ "while (state < " +:+ number_text state
    +:+ ") {" +:+ nl +:+ "  switch(state) {" +:+ nl +:+ "    "
    +:+ array_join (nl +:+ "    ") flattened +:+ nl +:+ "  }" +:+ nl +:+ "}".

(** The entries pushed for the lines [lines], counted from [state]. *)
Fixpoint case_blocks (state : N) (lines : list string) : list string :=
  match lines with
  | [] => []
  | line :: lines' =>
      [ "case " +:+ number_text state +:+ ": // " +:+ JS.trim line;
        line;
        "state = " +:+ number_text (state + 1) +:+ "; break;" ]
        ++ case_blocks (state + 1) lines'
  end.

(** An entry behind the four blanks of the template. *)
Definition indent (s : string) : string := "    " +:+ s.

Definition no_newline (s : string) : bool := free_of (is_char "010") s.

(** * Lemmas on the cipher machine *)

(** ** Permutation tables *)

Lemma alpha_table_NoDup : NoDup alpha_table.
Proof. apply (bool_decide_unpack _). by vm_compute. Qed.

Lemma perm_table_NoDup t : perm_table t → NoDup t.
Proof. intros Hp. unfold perm_table in Hp. rewrite Hp. apply alpha_table_NoDup. Qed.

Lemma perm_table_length t : perm_table t → length t = 26%nat.
Proof. intros Hp. unfold perm_table in Hp. by rewrite Hp. Qed.

Lemma perm_table_elem t x : perm_table t → x ∈ t ↔ x ∈ alpha_table.
Proof. intros Hp. unfold perm_table in Hp. by rewrite Hp. Qed.

Lemma perm_table_alt t :
  NoDup t → (∀ x, x ∈ t ↔ x ∈ alpha_table) → perm_table t.
Proof. intros ??. apply NoDup_Permutation; auto using alpha_table_NoDup. Qed.

Lemma at_index_lookup (t : JS.table) i x :
  t !! i = Some x → JS.at_index t (Z.of_nat i) = x.
Proof.
  intros Hi. unfold JS.at_index.
  destruct (Z.leb_spec 0 (Z.of_nat i)); [|lia].
  by rewrite Nat2Z.id, Hi.
Qed.

Lemma indexOf_lookup (t : JS.table) i x :
  NoDup t → t !! i = Some x → JS.indexOf t x = Z.of_nat i.
Proof.
  intros Hnd Hi. unfold JS.indexOf.
  destruct (list_find _ t) as [[j y]|] eqn:Hf.
  - apply list_find_Some in Hf as (Hj & -> & _).
    f_equal. eapply NoDup_lookup; eauto.
  - apply list_find_None in Hf.
    rewrite Forall_forall in Hf. destruct (Hf x); [|done].
    by eapply list_elem_of_lookup_2.
Qed.

Lemma indexOf_not_elem (t : JS.table) x : x ∉ t → JS.indexOf t x = (-1)%Z.
Proof.
  intros Hx. unfold JS.indexOf.
  destruct (list_find _ t) as [[j y]|] eqn:Hf; [|done].
  apply list_find_Some in Hf as (Hj & -> & _).
  destruct Hx. by eapply list_elem_of_lookup_2.
Qed.

Lemma indexOf_found (t : JS.table) x :
  JS.indexOf t x ≠ (-1)%Z →
  ∃ i, JS.indexOf t x = Z.of_nat i ∧ t !! i = Some x.
Proof.
  unfold JS.indexOf.
  destruct (list_find _ t) as [[j y]|] eqn:Hf; [|done].
  apply list_find_Some in Hf as (Hj & -> & _). eauto.
Qed.

Section through_tables.
Context (l r : JS.table) (Hl : perm_table l) (Hr : perm_table r).

Lemma through_spec s :
  (0 ≤ s < 26)%Z →
  ∃ i j x, s = Z.of_nat i ∧ r !! i = Some x ∧ l !! j = Some x ∧
           through l r s = Z.of_nat j.
Proof using Hl Hr.
  intros Hs.
  destruct (lookup_lt_is_Some_2 r (Z.to_nat s)) as [x Hx].
  { rewrite perm_table_length by done. lia. }
  assert (x ∈ l) as [j Hj]%list_elem_of_lookup_1.
  { rewrite (perm_table_elem l), <-(perm_table_elem r) by done.
    by eapply list_elem_of_lookup_2. }
  exists (Z.to_nat s), j, x. split_and!; [lia|done..|].
  unfold through.
  replace s with (Z.of_nat (Z.to_nat s)) at 1 by lia.
  rewrite (at_index_lookup _ _ _ Hx).
  apply indexOf_lookup; auto using perm_table_NoDup.
Qed.

Lemma through_range s : (0 ≤ s < 26)%Z → (0 ≤ through l r s < 26)%Z.
Proof using Hl Hr.
  intros (i & j & x & -> & Hi & Hj & ->)%through_spec.
  apply lookup_lt_Some in Hj. rewrite perm_table_length in Hj by done. lia.
Qed.

Lemma through_inverse s :
  (0 ≤ s < 26)%Z → through r l (through l r s) = s.
Proof using Hl Hr.
  intros (i & j & x & -> & Hi & Hj & ->)%through_spec.
  unfold through. rewrite (at_index_lookup _ _ _ Hj).
  apply indexOf_lookup; auto using perm_table_NoDup.
Qed.
End through_tables.

(** Rotation keeps a side well formed. *)

Lemma shift_push_perm t : perm_table t → perm_table (JS.shift_push t).
Proof.
  intros Hp. destruct t as [|x t]; simpl.
  - by apply perm_table_length in Hp.
  - unfold perm_table in *. rewrite <-Hp. by rewrite Permutation_app_comm.
Qed.

Lemma pop_unshift_perm t : perm_table t → perm_table (JS.pop_unshift t).
Proof.
  intros Hp. unfold JS.pop_unshift.
  destruct (last t) as [x|] eqn:Hlast.
  - apply last_Some in Hlast as [t' ->].
    rewrite removelast_last. unfold perm_table in *.
    rewrite <-Hp. by rewrite Permutation_app_comm.
  - apply last_None in Hlast as ->. by apply perm_table_length in Hp.
Qed.

Lemma rotate_once_wf fwd r : wf_rotor r → wf_rotor (Rotor.rotate_once fwd r).
Proof.
  intros [??]. destruct fwd; split; simpl;
    auto using shift_push_perm, pop_unshift_perm.
Qed.

Lemma rotate_wf n fwd r : wf_rotor r → wf_rotor (Rotor.rotate n fwd r).
Proof.
  intros Hr. unfold Rotor.rotate.
  induction (Z.to_nat n) as [|k IH]; simpl; auto using rotate_once_wf.
Qed.

Lemma rotateToLetter_wf letter r :
  wf_rotor r → wf_rotor (Rotor.rotateToLetter letter r).
Proof. apply rotate_wf. Qed.

Lemma setRing_wf n r : wf_rotor r → wf_rotor (Rotor.setRing n r).
Proof.
  intros Hr. destruct n as [n|]; simpl; [|done].
  by apply (rotate_wf (n - 1) false) in Hr.
Qed.

Lemma rotor_forward_range r s :
  wf_rotor r → (0 ≤ s < 26)%Z → (0 ≤ Rotor.forward r s < 26)%Z.
Proof. intros [??] ?. by apply through_range. Qed.

Lemma rotor_backward_range r s :
  wf_rotor r → (0 ≤ s < 26)%Z → (0 ≤ Rotor.backward r s < 26)%Z.
Proof. intros [??] ?. by apply through_range. Qed.

Lemma rotor_backward_forward r s :
  wf_rotor r → (0 ≤ s < 26)%Z → Rotor.backward r (Rotor.forward r s) = s.
Proof. intros [??] ?. by apply through_inverse. Qed.

Lemma rotor_forward_backward r s :
  wf_rotor r → (0 ≤ s < 26)%Z → Rotor.forward r (Rotor.backward r s) = s.
Proof. intros [??] ?. by apply through_inverse. Qed.

Lemma transpose_involutive a b x : transpose a b (transpose a b x) = x.
Proof. unfold transpose. repeat case_decide; congruence. Qed.

Global Instance transpose_inj a b : Inj (=) (=) (transpose a b).
Proof.
  intros x y Hxy. rewrite <-(transpose_involutive a b x), Hxy.
  apply transpose_involutive.
Qed.

Lemma swap_cells_transpose (t : JS.table) i j a b :
  NoDup t → t !! i = Some a → t !! j = Some b →
  JS.swap_cells t (Z.of_nat i) (Z.of_nat j) = transpose a b <$> t.
Proof.
  intros Hnd Hi Hj. unfold JS.swap_cells.
  rewrite (at_index_lookup _ _ _ Hi), (at_index_lookup _ _ _ Hj), !Nat2Z.id.
  apply list_eq. intros k. rewrite list_lookup_fmap.
  destruct (decide (k = j)) as [->|Hkj].
  - rewrite list_lookup_insert_eq.
    2:{ rewrite length_insert. by eapply lookup_lt_Some. }
    rewrite Hj. simpl. unfold transpose. repeat case_decide; congruence.
  - rewrite list_lookup_insert_ne by done.
    destruct (decide (k = i)) as [->|Hki].
    + rewrite list_lookup_insert_eq by (by eapply lookup_lt_Some).
      rewrite Hi. simpl. unfold transpose. by rewrite decide_True.
    + rewrite list_lookup_insert_ne by done.
      destruct (t !! k) as [x|] eqn:Hk; simpl; [|done].
      f_equal. unfold transpose.
      rewrite !decide_False; [done|..]; intros ->.
      * by apply Hkj, (NoDup_lookup t k j b).
      * by apply Hki, (NoDup_lookup t k i a).
Qed.

Lemma transpose_perm a b t :
  a ∈ alpha_table → b ∈ alpha_table →
  perm_table t → perm_table (transpose a b <$> t).
Proof.
  intros Ha Hb Hp. apply perm_table_alt.
  - apply NoDup_fmap_2; [apply _|]. by apply perm_table_NoDup.
  - intros x. rewrite list_elem_of_fmap. split.
    + intros (y & -> & Hy%(perm_table_elem _ _ Hp)).
      unfold transpose. by repeat case_decide.
    + intros Hx. exists (transpose a b x). split.
      * by rewrite transpose_involutive.
      * apply (perm_table_elem _ _ Hp). unfold transpose.
        by repeat case_decide.
Qed.

Lemma apply_pair_exchange l pair :
  perm_table l → Plugboard.apply_pair l pair = pair_exchange pair <$> l.
Proof.
  intros Hp. unfold Plugboard.apply_pair, pair_exchange.
  destruct pair as [|a [|b pair]]; try by rewrite list_fmap_id.
  set (A := Some (JS.char_toUpperCase a)).
  set (B := Some (JS.char_toUpperCase b)).
  case_decide as HAB.
  - destruct HAB as [HA HB].
    apply (perm_table_elem _ _ Hp) in HA, HB.
    apply list_elem_of_lookup_1 in HA as [i Hi].
    apply list_elem_of_lookup_1 in HB as [j Hj].
    pose proof (perm_table_NoDup _ Hp) as Hnd.
    rewrite (indexOf_lookup _ _ _ Hnd Hi), (indexOf_lookup _ _ _ Hnd Hj).
    assert (∀ n, (Z.of_nat n =? -1)%Z = false) as Hne
      by (intros n; apply Z.eqb_neq; lia).
    rewrite !Hne. simpl. by apply swap_cells_transpose.
  - rewrite list_fmap_id.
    destruct (decide (A ∈ l)) as [HA|HA].
    + destruct (decide (B ∈ l)) as [HB|HB].
      * destruct HAB. by rewrite <-!(perm_table_elem _ _ Hp).
      * rewrite (indexOf_not_elem _ _ HB).
        by rewrite andb_false_r.
    + by rewrite (indexOf_not_elem _ _ HA).
Qed.

Lemma pair_exchange_perm pair t :
  perm_table t → perm_table (pair_exchange pair <$> t).
Proof.
  intros Hp. unfold pair_exchange.
  destruct pair as [|a [|b pair]]; try by rewrite list_fmap_id.
  case_decide as HAB; [|by rewrite list_fmap_id].
  destruct HAB. by apply transpose_perm.
Qed.

Lemma foldl_apply_pair pairs l :
  perm_table l →
  perm_table (foldl Plugboard.apply_pair l pairs) ∧
  foldl Plugboard.apply_pair l pairs
  = foldl (λ t pair, pair_exchange pair <$> t) l pairs.
Proof.
  revert l. induction pairs as [|pair pairs IH]; intros l Hp; simpl; [done|].
  rewrite apply_pair_exchange by done.
  apply IH. by apply pair_exchange_perm.
Qed.

Lemma alpha_table_perm : perm_table alpha_table.
Proof. by unfold perm_table. Qed.

Lemma plugboard_new_perm pairsStr :
  perm_table (Plugboard.left (Plugboard.new pairsStr)) ∧
  perm_table (Plugboard.right (Plugboard.new pairsStr)).
Proof.
  split; simpl; [|apply alpha_table_perm].
  apply foldl_apply_pair, alpha_table_perm.
Qed.

(** ** Keyboard and letter case *)

Lemma keyboard_forward_backward s :
  (0 ≤ s < 26)%Z → Keyboard.forward (Keyboard.backward s) = s.
Proof.
  revert s.
  apply (Forall_seqZ (λ s, Keyboard.forward (Keyboard.backward s) = s) 0 26).
  vm_compute seqZ. repeat constructor.
Qed.

Lemma keyboard_backward_letter s :
  (0 ≤ s < 26)%Z →
  ∃ c, Keyboard.backward s = String c EmptyString ∧ JS.is_upper c = true.
Proof.
  revert s.
  apply (Forall_seqZ (λ s, ∃ c, Keyboard.backward s = String c EmptyString
                              ∧ JS.is_upper c = true) 0 26).
  vm_compute seqZ. repeat constructor; by eexists.
Qed.

Lemma keyboard_forward_letter c :
  JS.is_upper c = true →
  (0 ≤ Keyboard.forward (String c EmptyString) < 26)%Z ∧
  Keyboard.backward (Keyboard.forward (String c EmptyString))
  = String c EmptyString.
Proof.
  destruct c as [[] [] [] [] [] [] [] []]; intros H; vm_compute in H;
    try discriminate; clear H; (split; [by vm_compute|reflexivity]).
Qed.

Lemma lower_letter_case c :
  JS.is_lower c = true →
  JS.is_upper c = false ∧
  JS.is_upper (JS.char_toUpperCase c) = true ∧
  JS.char_toLowerCase c = c ∧
  JS.char_toLowerCase (JS.char_toUpperCase c) = c.
Proof.
  destruct c as [[] [] [] [] [] [] [] []]; intros H; vm_compute in H;
    try discriminate; clear H; by vm_compute.
Qed.

Lemma upper_letter_case c :
  JS.is_upper c = true →
  JS.is_lower c = false ∧
  JS.char_toUpperCase c = c ∧
  JS.char_toLowerCase c ≠ c ∧
  JS.is_lower (JS.char_toLowerCase c) = true ∧
  JS.char_toUpperCase (JS.char_toLowerCase c) = c.
Proof.
  destruct c as [[] [] [] [] [] [] [] []]; intros H; vm_compute in H;
    try discriminate; clear H; by vm_compute.
Qed.

Lemma encipher_core e letter :
  Enigma.encipher e letter
  = (advance e,
     {| Enigma.path := Enigma.path (Enigma.encipher e letter).2;
        Enigma.letter :=
          Keyboard.backward (core (advance e) (Keyboard.forward letter)) |}).
Proof. reflexivity. Qed.

Lemma advance_wf e : wf_enigma e → wf_enigma (advance e).
Proof.
  intros [????]. split; simpl; try done. by apply rotate_wf.
Qed.

Lemma plugboard_forward_range p s :
  wf_plugboard p → (0 ≤ s < 26)%Z → (0 ≤ Plugboard.forward p s < 26)%Z.
Proof. intros [??] ?. by apply through_range. Qed.

Lemma plugboard_backward_range p s :
  wf_plugboard p → (0 ≤ s < 26)%Z → (0 ≤ Plugboard.backward p s < 26)%Z.
Proof. intros [??] ?. by apply through_range. Qed.

Lemma plugboard_backward_forward p s :
  wf_plugboard p → (0 ≤ s < 26)%Z →
  Plugboard.backward p (Plugboard.forward p s) = s.
Proof. intros [??] ?. by apply through_inverse. Qed.

Lemma plugboard_forward_backward p s :
  wf_plugboard p → (0 ≤ s < 26)%Z →
  Plugboard.forward p (Plugboard.backward p s) = s.
Proof. intros [??] ?. by apply through_inverse. Qed.

Lemma reflect_range r s :
  wf_reflector r → (0 ≤ s < 26)%Z → (0 ≤ Reflector.reflect r s < 26)%Z.
Proof. intros (?&?&?) ?. by apply through_range. Qed.

Lemma reflect_involutive r s :
  wf_reflector r → (0 ≤ s < 26)%Z →
  Reflector.reflect r (Reflector.reflect r s) = s.
Proof. intros (_&_&H) ?. by apply H. Qed.

Lemma reflect_no_fixpoint r s :
  wf_reflector r → (0 ≤ s < 26)%Z → Reflector.reflect r s ≠ s.
Proof. intros (_&_&H) ?. by apply H. Qed.

Create HintDb enigma_range.
#[export] Hint Resolve rotor_forward_range rotor_backward_range
  plugboard_forward_range plugboard_backward_range reflect_range
  : enigma_range.

Lemma core_range e s :
  wf_enigma e → (0 ≤ s < 26)%Z → (0 ≤ core e s < 26)%Z.
Proof. intros [????] ?. unfold core. auto 12 with enigma_range. Qed.

Lemma core_involutive e s :
  wf_enigma e → (0 ≤ s < 26)%Z → core e (core e s) = s.
Proof.
  intros [Hre ????] Hs. unfold core.
  rewrite plugboard_forward_backward by auto 12 with enigma_range.
  rewrite !rotor_forward_backward by auto 12 with enigma_range.
  rewrite reflect_involutive by auto 12 with enigma_range.
  rewrite !rotor_backward_forward by auto 12 with enigma_range.
  by apply plugboard_backward_forward.
Qed.

Lemma core_no_fixpoint e s :
  wf_enigma e → (0 ≤ s < 26)%Z → core e s ≠ s.
Proof.
  intros [Hre ????] Hs Heq.
  apply (f_equal (Plugboard.forward (Enigma.pb e))) in Heq.
  unfold core in Heq.
  rewrite plugboard_forward_backward in Heq by auto 12 with enigma_range.
  apply (f_equal (Rotor.forward (Enigma.r3 e))) in Heq.
  rewrite rotor_forward_backward in Heq by auto 12 with enigma_range.
  apply (f_equal (Rotor.forward (Enigma.r2 e))) in Heq.
  rewrite rotor_forward_backward in Heq by auto 12 with enigma_range.
  apply (f_equal (Rotor.forward (Enigma.r1 e))) in Heq.
  rewrite rotor_forward_backward in Heq by auto 12 with enigma_range.
  revert Heq. apply reflect_no_fixpoint; auto 12 with enigma_range.
Qed.

Lemma perm_check_sound t : perm_check t = true → perm_table t.
Proof.
  intros (Hnd & Hlen & Hall)%bool_decide_eq_true.
  apply submseteq_length_Permutation.
  - apply NoDup_submseteq; [done|]. by apply Forall_forall.
  - by rewrite Hlen.
Qed.

Lemma rotorWirings_wf name wiring notch :
  rotorWirings !! name = Some wiring → wf_rotor (Rotor.new wiring notch).
Proof.
  intros H%elem_of_list_to_map_2.
  split; [apply alpha_table_perm|]. simpl.
  repeat (apply elem_of_cons in H as [H|H]);
    [injection H as -> ->; apply perm_check_sound; by vm_compute ..|].
  by apply elem_of_nil in H.
Qed.

Lemma reflector_check_sound r s :
  reflector_check r = true → (0 ≤ s < 26)%Z →
  Reflector.reflect r (Reflector.reflect r s) = s ∧ Reflector.reflect r s ≠ s.
Proof.
  intros H%bool_decide_eq_true Hs. revert s Hs.
  by apply (Forall_seqZ _ 0 26).
Qed.

Lemma reflectorWirings_wf name wiring :
  reflectorWirings !! name = Some wiring → wf_reflector (Reflector.new wiring).
Proof.
  intros H%elem_of_list_to_map_2.
  split; [apply alpha_table_perm|]. simpl.
  repeat (apply elem_of_cons in H as [H|H]);
    [injection H as -> ->;
     (split; [apply perm_check_sound; by vm_compute|]);
     intros s; apply reflector_check_sound; by vm_compute ..|].
  by apply elem_of_nil in H.
Qed.

Lemma setRings_wf rings e : wf_enigma e → wf_enigma (Enigma.setRings rings e).
Proof. intros [????]. split; simpl; auto using setRing_wf. Qed.

Lemma setKey_wf key e : wf_enigma e → wf_enigma (Enigma.setKey key e).
Proof. intros [????]. split; simpl; auto using rotateToLetter_wf. Qed.

Lemma build_enigma_wf config e : build_enigma config = Some e → wf_enigma e.
Proof.
  unfold build_enigma. intros H.
  apply bind_Some in H as (w1 & (n1 & _ & H1)%bind_Some & H).
  apply bind_Some in H as (w2 & (n2 & _ & H2)%bind_Some & H).
  apply bind_Some in H as (w3 & (n3 & _ & H3)%bind_Some & H).
  apply bind_Some in H as (wr & Hr & H).
  injection H as <-.
  apply setKey_wf, setRings_wf. split; simpl;
    eauto using rotorWirings_wf, reflectorWirings_wf.
  apply plugboard_new_perm.
Qed.

Lemma build_enigma_resolves config :
  resolves config → ∃ e, build_enigma config = Some e ∧ wf_enigma e.
Proof.
  intros [Hrot [wr Hr]].
  destruct (Hrot 0%nat) as (n1 & Hn1 & w1 & H1); [lia|].
  destruct (Hrot 1%nat) as (n2 & Hn2 & w2 & H2); [lia|].
  destruct (Hrot 2%nat) as (n3 & Hn3 & w3 & H3); [lia|].
  assert (is_Some (build_enigma config)) as [e He].
  { unfold build_enigma. rewrite Hn1, Hn2, Hn3. simpl.
    rewrite H1, H2, H3. simpl. rewrite Hr. simpl. eauto. }
  eauto using build_enigma_wf.
Qed.

(** ** One letter through the machine *)

Lemma encipher_upper e u :
  wf_enigma e → JS.is_upper u = true →
  ∃ v, JS.is_upper v = true ∧ v ≠ u ∧
       (Enigma.encipher e (String u EmptyString)).1 = advance e ∧
       Enigma.letter (Enigma.encipher e (String u EmptyString)).2
       = String v EmptyString ∧
       Enigma.letter (Enigma.encipher e (String v EmptyString)).2
       = String u EmptyString.
Proof.
  intros He%advance_wf Hu.
  destruct (keyboard_forward_letter u Hu) as [Hs0 Hback].
  set (s0 := Keyboard.forward (String u EmptyString)) in *.
  pose proof (core_range _ s0 He Hs0) as Hs9.
  destruct (keyboard_backward_letter _ Hs9) as (v & Hv & Hupper).
  exists v. split_and!; [done| |done|by rewrite encipher_core| ].
  - intros ->. apply (core_no_fixpoint _ s0 He Hs0).
    by rewrite <-(keyboard_forward_backward _ Hs9), Hv.
  - rewrite encipher_core. simpl.
    by rewrite <-Hv, (keyboard_forward_backward _ Hs9), core_involutive.
Qed.

Lemma codec_char_unfold e c :
  codec_char e c =
  if JS.is_letter c then
    let r := Enigma.encipher e (String (JS.char_toUpperCase c) EmptyString) in
    (r.1,
     if decide (c = JS.char_toLowerCase c)
     then JS.toLowerCase (Enigma.letter r.2) else Enigma.letter r.2)
  else (e, String c EmptyString).
Proof.
  unfold codec_char. destruct (JS.is_letter c); [|done].
  cbn [JS.toUpperCase JS.toLowerCase].
  destruct (Enigma.encipher _ _) as [e' res]. cbn [fst snd].
  f_equal. repeat case_decide; congruence.
Qed.

Lemma codec_char_other e c :
  JS.is_letter c = false → codec_char e c = (e, String c EmptyString).
Proof. intros H. unfold codec_char. by rewrite H. Qed.

Lemma codec_char_letter e c :
  wf_enigma e → JS.is_letter c = true →
  ∃ c', codec_char e c = (advance e, String c' EmptyString) ∧
        codec_char e c' = (advance e, String c EmptyString) ∧
        JS.is_letter c' = true ∧
        JS.is_upper c' = JS.is_upper c ∧
        c' ≠ c ∧
        Enigma.letter
          (Enigma.encipher e (JS.toUpperCase (String c EmptyString))).2
        = String (JS.char_toUpperCase c') EmptyString ∧
        JS.char_toUpperCase c' ≠ JS.char_toUpperCase c.
Proof.
  intros He Hc. unfold JS.is_letter in Hc.
  destruct (JS.is_upper c) eqn:Hup.
  - clear Hc. destruct (upper_letter_case c Hup) as (Hlo & Hcu & Hcl & _).
    destruct (encipher_upper e c He Hup) as (v & Hv & Hne & He1 & Hl1 & Hl2).
    destruct (upper_letter_case v Hv) as (Hvlo & Hvu & Hvl & _).
    exists v. rewrite !codec_char_unfold. unfold JS.is_letter.
    rewrite Hup, Hv, Hcu, Hvu. cbn [orb JS.toUpperCase].
    rewrite Hcu, Hl1, Hl2, He1, (encipher_core e (String v _)).
    rewrite !decide_False by congruence. by cbn [fst].
  - simpl in Hc. destruct (lower_letter_case c Hc) as (_ & Hu & Hcl & Hclu).
    set (u := JS.char_toUpperCase c) in *.
    destruct (encipher_upper e u He Hu) as (v & Hv & Hne & He1 & Hl1 & Hl2).
    destruct (upper_letter_case v Hv) as (Hvlo & Hvu & Hvl & Hvll & Hvul).
    destruct (lower_letter_case _ Hvll) as (Hwup & _ & Hwl & _).
    exists (JS.char_toLowerCase v). rewrite !codec_char_unfold.
    unfold JS.is_letter.
    rewrite Hup, Hc, Hwup, Hvll, Hvul, Hcl, Hwl. cbn [orb JS.toUpperCase].
    fold u. rewrite Hl1, Hl2, He1, (encipher_core e (String v _)).
    rewrite !decide_True by done. cbn [fst JS.toLowerCase]. rewrite Hclu.
    split_and!; try done.
    intros Heq. apply Hne. by rewrite <-Hvul, Heq.
Qed.

Lemma append_cons x (a b : string) : String x a +:+ b = String x (a +:+ b).
Proof. reflexivity. Qed.

Lemma append_empty_l (a : string) : "" +:+ a = a.
Proof. reflexivity. Qed.

Lemma append_assoc (a b c : string) : (a +:+ b) +:+ c = a +:+ (b +:+ c).
Proof.
  induction a as [|x a IH]; [done|]. by rewrite !append_cons, IH.
Qed.

Lemma append_empty_r (a : string) : a +:+ "" = a.
Proof. induction a as [|x a IH]; [done|]. by rewrite append_cons, IH. Qed.

Lemma codec_loop_run e text acc :
  codec_loop e text acc = acc +:+ codec_run e text.
Proof.
  revert e acc. induction text as [|c text IH]; intros e acc; simpl.
  - by rewrite append_empty_r.
  - destruct (codec_char e c) as [e' piece].
    by rewrite IH, append_assoc.
Qed.

Lemma codec_state_wf e text : wf_enigma e → wf_enigma (codec_state e text).
Proof.
  revert e. induction text as [|c text IH]; intros e He; simpl; [done|].
  apply IH. destruct (JS.is_letter c) eqn:Hc.
  - destruct (codec_char_letter e c He Hc) as (c' & -> & _).
    by apply advance_wf.
  - by rewrite codec_char_other.
Qed.

Lemma codec_run_involutive e text :
  wf_enigma e → codec_run e (codec_run e text) = text.
Proof.
  revert e. induction text as [|c text IH]; intros e He; simpl; [done|].
  destruct (JS.is_letter c) eqn:Hc.
  - destruct (codec_char_letter e c He Hc) as (c' & -> & Hback & _).
    simpl. rewrite Hback. simpl. f_equal. by apply IH, advance_wf.
  - rewrite codec_char_other by done. simpl.
    rewrite codec_char_other by done. simpl. f_equal. by apply IH.
Qed.

Lemma codec_run_positions e text :
  wf_enigma e →
  String.length (codec_run e text) = String.length text ∧
  ∀ i c, String.get i text = Some c →
    ∃ c', String.get i (codec_run e text) = Some c' ∧
          JS.is_letter c' = JS.is_letter c ∧
          (JS.is_letter c = false → c' = c) ∧
          (JS.is_letter c = true → JS.is_upper c' = JS.is_upper c ∧ c' ≠ c).
Proof.
  revert e. induction text as [|c text IH]; intros e He; simpl; [done|].
  destruct (JS.is_letter c) eqn:Hc.
  - destruct (codec_char_letter e c He Hc) as (c' & -> & _ & ? & ? & ? & _).
    rewrite append_cons, append_empty_l. simpl.
    destruct (IH _ (advance_wf _ He)) as [-> Hpos]. split; [done|].
    intros [|i] x Hx; [|by apply Hpos].
    injection Hx as <-. exists c'. rewrite Hc. by split_and!.
  - rewrite codec_char_other by done.
    rewrite append_cons, append_empty_l. simpl.
    destruct (IH _ He) as [-> Hpos]. split; [done|].
    intros [|i] x Hx; [|by apply Hpos].
    injection Hx as <-. exists c. rewrite Hc. by split_and!.
Qed.

Lemma string_get_lt i (s : string) :
  (i < String.length s)%nat ↔ is_Some (String.get i s).
Proof.
  revert i. induction s as [|c s IH]; intros i; simpl.
  - split; [lia|]. by intros [? ?].
  - destruct i as [|i]; [split; [eauto|lia]|].
    rewrite <-IH. lia.
Qed.

Lemma shift_push_lookup (t : JS.table) i :
  (i < length t)%nat →
  JS.shift_push t !! i = t !! ((i + 1) mod length t)%nat.
Proof.
  destruct t as [|x t]; cbn [JS.shift_push length]; [lia|]. intros Hi.
  destruct (decide (i = length t)) as [->|Hne].
  - rewrite lookup_app_r by lia. rewrite Nat.sub_diag.
    rewrite Nat.add_1_r. by rewrite Nat.Div0.mod_same.
  - rewrite lookup_app_l by lia.
    rewrite Nat.mod_small by lia. by rewrite Nat.add_1_r.
Qed.

Lemma cfg0_resolves : resolves cfg0.
Proof.
  split.
  - intros [|[|[|i]]] Hi; [..|lia]; eexists; (split; [reflexivity|]);
      eexists; vm_compute; reflexivity.
  - eexists; vm_compute; reflexivity.
Qed.

Lemma build_enigma_cfg0 : build_enigma cfg0 = Some enigma0.
Proof. by vm_compute. Qed.

Lemma enigma0_wf : wf_enigma enigma0.
Proof. apply (build_enigma_wf cfg0), build_enigma_cfg0. Qed.

Lemma rotor_I_wf : wf_rotor (Rotor.new "EKMFLGDQVZNTOWYHXUSPAIBRCJ" "Q").
Proof. apply enigma0_wf. Qed.

(** * Lemmas on the matcher and on the passes *)

(** ** The matcher: what a match consumes *)

Section matcher.
Context {R : Type}.
Implicit Types (k : list ascii → option R) (s : list ascii).

Lemma drop_prefix_Some l s s' :
  Regex.drop_prefix l s = Some s' ↔ s = l ++ s'.
Proof.
  revert s. induction l as [|a l IH]; intros s; simpl.
  - split; congruence.
  - destruct s as [|c s]; [split; discriminate|].
    case_decide as Hac.
    + subst. rewrite IH. split; congruence.
    + split; [discriminate|]. intros [= ??]. done.
Qed.

Lemma star_greedy_suffix p k s r :
  Regex.star_greedy p k s = Some r → ∃ s', s' `suffix_of` s ∧ k s' = Some r.
Proof.
  induction s as [|c s IH]; simpl; [eauto|].
  destruct (p c); [|eauto].
  destruct (Regex.star_greedy p k s) as [r'|] eqn:Hg; simpl.
  - intros [= ->]. destruct IH as (s' & Hs' & Hk); [done|].
    exists s'. split; [by apply suffix_cons_r|done].
  - eauto.
Qed.

Lemma star_lazy_suffix p k s r :
  Regex.star_lazy p k s = Some r → ∃ s', s' `suffix_of` s ∧ k s' = Some r.
Proof.
  induction s as [|c s IH]; simpl.
  - destruct (k []) eqn:Hk; simpl; [|done]. intros [= ->]. eauto.
  - destruct (k (c :: s)) eqn:Hk; simpl; [intros [= ->]; eauto|].
    destruct (p c); [|done].
    intros (s' & Hs' & ?)%IH. exists s'. split; [by apply suffix_cons_r|done].
Qed.

Lemma any_of_suffix alts k s r :
  Regex.any_of alts k s = Some r → ∃ s', s' `suffix_of` s ∧ k s' = Some r.
Proof.
  induction alts as [|l alts IH]; simpl; [done|].
  destruct (Regex.drop_prefix l s ≫= k) as [r'|] eqn:Hl; simpl; [|done].
  intros [= ->]. apply bind_Some in Hl as (s' & ->%drop_prefix_Some & Hk).
  exists s'. split; [by apply suffix_app_r|done].
Qed.

Lemma m_atom_suffix a k s r :
  Regex.m_atom a k s = Some r → ∃ s', s' `suffix_of` s ∧ k s' = Some r.
Proof.
  destruct a as [l|p|p|p|p|p|alts]; simpl.
  - intros (s' & ->%drop_prefix_Some & Hk)%bind_Some.
    exists s'. split; [by apply suffix_app_r|done].
  - destruct s as [|c s]; [done|]. destruct (p c); [|done].
    intros Hk. exists s. split; [by apply suffix_cons_r|done].
  - apply star_greedy_suffix.
  - destruct s as [|c s]; [done|]. destruct (p c); [|done].
    intros (s' & Hs' & Hk)%star_greedy_suffix.
    exists s'. split; [by apply suffix_cons_r|done].
  - apply star_lazy_suffix.
  - destruct s as [|c s]; [eauto|]. destruct (p c); [|eauto].
    destruct (k s) eqn:Hk; simpl; [|eauto].
    intros [= ->]. exists s. split; [by apply suffix_cons_r|done].
  - apply any_of_suffix.
Qed.

Lemma m_atoms_suffix l k s r :
  Regex.m_atoms l k s = Some r → ∃ s', s' `suffix_of` s ∧ k s' = Some r.
Proof.
  revert k s. induction l as [|a l IH]; intros k s; simpl; [eauto|].
  intros (s1 & Hs1 & (s2 & Hs2 & Hk)%IH)%m_atom_suffix.
  exists s2. split; [by etrans|done].
Qed.
End matcher.

Lemma m_items_suffix l caps s caps' s' :
  Regex.m_items l caps s = Some (caps', s') → s' `suffix_of` s.
Proof.
  revert caps s. induction l as [|[a|g] l IH]; intros caps s; simpl.
  - by intros [= _ ->].
  - intros (s1 & Hs1 & ?%IH)%m_atom_suffix. by etrans.
  - intros (s1 & Hs1 & ?%IH)%m_atoms_suffix. by etrans.
Qed.

Lemma suffix_elem_of (c : ascii) (s' s : list ascii) :
  s' `suffix_of` s → c ∈ s' → c ∈ s.
Proof. intros [k ->] ?. apply elem_of_app. by right. Qed.

Lemma m_items_needs c l caps s r :
  Exists (item_needs c) l → Regex.m_items l caps s = Some r → c ∈ s.
Proof.
  revert caps s. induction l as [|i l IH]; intros caps s Hex; [by inv Hex|].
  destruct i as [a|g]; simpl.
  - inv Hex as [?? Hneed|?? Hrest].
    + destruct a as [l0| | | | | |]; try done. simpl in *.
      intros (s1 & ->%drop_prefix_Some & _)%bind_Some.
      apply elem_of_app. by left.
    + intros (s1 & Hs1 & Hk)%m_atom_suffix. by eapply suffix_elem_of, IH.
  - intros (s1 & Hs1 & Hk)%m_atoms_suffix.
    inv Hex; [done|]. by eapply suffix_elem_of, IH.
Qed.

Lemma exec_needs c re prev s :
  Exists (item_needs c) (Regex.body re) → c ∉ s → Regex.exec re prev s = None.
Proof.
  intros Hex Hc. unfold Regex.exec.
  destruct (_ && _); [done|].
  destruct (Regex.m_items _ _ _) as [r|] eqn:Hm; [|done].
  destruct Hc. by eapply m_items_needs.
Qed.

(** ** Global replacement: where nothing matches, nothing changes *)

Lemma scan_no_match re f prev s :
  (∀ prev' t, t `suffix_of` s → Regex.exec re prev' t = None) →
  Regex.scan re f prev 0 s = s.
Proof.
  revert prev. induction s as [|c s IH]; intros prev Hno; simpl.
  - by rewrite Hno.
  - rewrite Hno by done. f_equal. apply IH.
    intros prev' t Ht. apply Hno. by apply suffix_cons_r.
Qed.

Lemma scan_needs c re f prev s :
  Exists (item_needs c) (Regex.body re) → c ∉ s →
  Regex.scan re f prev 0 s = s.
Proof.
  intros Hex Hc. apply scan_no_match. intros prev' t Ht.
  apply exec_needs with c; [done|]. intros Hin. apply Hc.
  by eapply suffix_elem_of.
Qed.

Lemma last_cons_from_option (prev : option ascii) c (a : list ascii) :
  from_option Some prev (last (c :: a)) = from_option Some (Some c) (last a).
Proof.
  destruct a as [|x a]; [done|].
  change (last (c :: x :: a)) with (last (x :: a)).
  destruct (last (x :: a)) eqn:E; [done|]. by apply last_None in E.
Qed.

Lemma scan_skip re f prev a rest :
  Regex.scan re f prev (length a) (a ++ rest)
  = Regex.scan re f (from_option Some prev (last a)) 0 rest.
Proof.
  revert prev. induction a as [|c a IH]; intros prev; simpl.
  - by destruct rest.
  - by rewrite IH, last_cons_from_option.
Qed.

Lemma consumed_app (m rest : list ascii) : Regex.consumed (m ++ rest) rest = m.
Proof.
  unfold Regex.consumed. rewrite length_app.
  replace (length m + length rest - length rest)%nat with (length m) by lia.
  by rewrite take_app_length.
Qed.

Lemma scan_match re f prev c m rest caps :
  Regex.exec re prev (c :: m ++ rest) = Some (caps, rest) →
  Regex.scan re f prev 0 (c :: m ++ rest)
  = f (c :: m) caps ++ Regex.scan re f (from_option Some (Some c) (last m)) 0 rest.
Proof.
  intros Hex. cbn [Regex.scan]. rewrite Hex. cbv zeta.
  change (Regex.consumed (c :: m ++ rest) rest)
    with (Regex.consumed ((c :: m) ++ rest) rest).
  rewrite consumed_app. cbn [length]. by rewrite scan_skip.
Qed.

Lemma scan_copy re f prev a rest :
  (∀ prev' a1 a2, a = a1 ++ a2 → a2 ≠ [] →
                  Regex.exec re prev' (a2 ++ rest) = None) →
  Regex.scan re f prev 0 (a ++ rest)
  = a ++ Regex.scan re f (from_option Some prev (last a)) 0 rest.
Proof.
  revert prev. induction a as [|c a IH]; intros prev Hno; [done|].
  pose proof (Hno prev [] (c :: a) eq_refl ltac:(done)) as H0.
  cbn [app Regex.scan] in *. rewrite H0. f_equal.
  rewrite IH.
  - by rewrite last_cons_from_option.
  - intros prev' a1 a2 -> Ha2. by apply (Hno prev' (c :: a1) a2).
Qed.

Lemma exec_first_char re prev c l items s :
  Regex.body re = Regex.At (Regex.Lit (c :: l)) :: items →
  head s ≠ Some c → Regex.exec re prev s = None.
Proof.
  intros Hb Hs. unfold Regex.exec. rewrite Hb.
  destruct (_ && _); [done|]. simpl.
  destruct s as [|x s]; [done|]. simpl in *.
  rewrite decide_False; [done|]. congruence.
Qed.

Lemma replace_chars re f code :
  list_ascii_of_string (Regex.replace re f code)
  = Regex.scan re f None 0 (list_ascii_of_string code).
Proof. apply list_ascii_of_string_of_list_ascii. Qed.

Lemma replace_unchanged re f code :
  Regex.scan re f None 0 (list_ascii_of_string code) = list_ascii_of_string code →
  Regex.replace re f code = code.
Proof.
  intros H. unfold Regex.replace. rewrite H.
  apply string_of_list_ascii_of_string.
Qed.

Lemma replace_needs c re f code :
  Exists (item_needs c) (Regex.body re) → c ∉ lit code →
  Regex.replace re f code = code.
Proof. intros ??. by apply replace_unchanged, scan_needs with c. Qed.

(** The five patterns of the removal pass need a closing brace or a closing
    parenthesis. *)
Lemma junk_regex_needs : Exists (item_needs "}") (Regex.body junk_regex).
Proof. do 5 apply Exists_cons_tl. apply Exists_cons_hd. set_solver. Qed.

Lemma even_regex_needs : Exists (item_needs "}") (Regex.body even_regex).
Proof. do 2 apply Exists_cons_tl. apply Exists_cons_hd. set_solver. Qed.

Lemma try_regex_needs : Exists (item_needs "}") (Regex.body try_regex).
Proof. do 8 apply Exists_cons_tl. apply Exists_cons_hd. set_solver. Qed.

Lemma timing_regex_needs : Exists (item_needs ")") (Regex.body timing_regex).
Proof. apply Exists_cons_hd. vm_compute. set_solver. Qed.

Lemma unwrap_regex_needs : Exists (item_needs ")") (Regex.body unwrap_regex).
Proof. do 9 apply Exists_cons_tl. apply Exists_cons_hd. set_solver. Qed.

Lemma removeObfuscation_clean (Y : string) :
  "}"%char ∉ lit Y → ")"%char ∉ lit Y → removeObfuscation Y = Y.
Proof.
  intros Hbrace Hparen. unfold removeObfuscation.
  rewrite (replace_needs "}" junk_regex) by auto using junk_regex_needs.
  rewrite (replace_needs ")" timing_regex) by auto using timing_regex_needs.
  rewrite (replace_needs "}" even_regex) by auto using even_regex_needs.
  rewrite (replace_needs "}" try_regex) by auto using try_regex_needs.
  by rewrite (replace_needs ")" unwrap_regex) by auto using unwrap_regex_needs.
Qed.

(** ** The matcher: deterministic steps *)

Section steps.
Context {R : Type}.
Implicit Types (k : list ascii → option R) (s : list ascii).

Lemma drop_prefix_app l s : Regex.drop_prefix l (l ++ s) = Some s.
Proof. by apply drop_prefix_Some. Qed.

Lemma star_greedy_stop p k s :
  (∀ x, head s = Some x → p x = false) → Regex.star_greedy p k s = k s.
Proof.
  intros Hs. destruct s as [|c s]; [done|]. simpl. by rewrite (Hs c).
Qed.

Lemma star_greedy_span p k a b r :
  Forall (λ x, p x = true) a → (∀ x, head b = Some x → p x = false) →
  k b = Some r → Regex.star_greedy p k (a ++ b) = Some r.
Proof.
  intros Ha Hb Hk. induction Ha as [|c a Hc Ha IH]; simpl.
  - by rewrite star_greedy_stop.
  - by rewrite Hc, IH.
Qed.

Lemma star_step p k a b r :
  Forall (λ x, p x = true) a → (∀ x, head b = Some x → p x = false) →
  k b = Some r → Regex.m_atom (Regex.Star p) k (a ++ b) = Some r.
Proof. apply star_greedy_span. Qed.

Lemma plus_step p k c a b r :
  p c = true → Forall (λ x, p x = true) a →
  (∀ x, head b = Some x → p x = false) →
  k b = Some r → Regex.m_atom (Regex.Plus p) k ((c :: a) ++ b) = Some r.
Proof. intros Hc ???. simpl. rewrite Hc. by apply star_greedy_span. Qed.

Lemma lit_step l k s r :
  k s = Some r → Regex.m_atom (Regex.Lit l) k (l ++ s) = Some r.
Proof. intros Hk. simpl. by rewrite drop_prefix_app. Qed.

Lemma cls_step p k c s r :
  p c = true → k s = Some r → Regex.m_atom (Regex.Cls p) k (c :: s) = Some r.
Proof. intros Hc Hk. simpl. by rewrite Hc. Qed.

(** A greedy run of white space followed by a literal character fails
    when the first character after the white space is another one. *)
Lemma star_space_lit_fail c l k ws x s :
  JS.is_space c = false →
  Forall (λ y, JS.is_space y = true) ws → JS.is_space x = false → x ≠ c →
  Regex.m_atom (Regex.Star JS.is_space)
    (Regex.m_atom (Regex.Lit (c :: l)) k) (ws ++ x :: s) = None.
Proof.
  intros Hc Hws Hx Hne. simpl.
  induction Hws as [|w ws Hw Hws IH]; simpl.
  - rewrite Hx. by rewrite decide_False by congruence.
  - rewrite Hw, IH. simpl. rewrite decide_False; [done|]. congruence.
Qed.

Lemma star_lazy_span p k v t r :
  Forall (λ x, p x = true) v →
  (∀ v1 v2, v = v1 ++ v2 → v2 ≠ [] → k (v2 ++ t) = None) →
  k t = Some r → Regex.m_atom (Regex.LazyStar p) k (v ++ t) = Some r.
Proof.
  intros Hv Hno Hk. simpl.
  induction Hv as [|c v Hc Hv IH].
  - simpl. destruct t; simpl; by rewrite Hk.
  - cbn [app Regex.star_lazy].
    pose proof (Hno [] (c :: v) eq_refl ltac:(done)) as H0.
    cbn [app] in H0. rewrite H0, Hc. simpl. apply IH.
    intros v1 v2 -> Hv2. by apply (Hno (c :: v1) v2).
Qed.
End steps.

Lemma m_items_At a l caps s :
  Regex.m_items (Regex.At a :: l) caps s
  = Regex.m_atom a (Regex.m_items l caps) s.
Proof. reflexivity. Qed.

Lemma m_items_Group g l caps s :
  Regex.m_items (Regex.Group g :: l) caps s
  = Regex.m_atoms g
      (λ s', Regex.m_items l (caps ++ [Regex.consumed s s']) s') s.
Proof. reflexivity. Qed.

Lemma m_atoms_cons {R} a l (k : list ascii → option R) s :
  Regex.m_atoms (a :: l) k s = Regex.m_atom a (Regex.m_atoms l k) s.
Proof. reflexivity. Qed.

Lemma m_atoms_nil {R} (k : list ascii → option R) s : Regex.m_atoms [] k s = k s.
Proof. reflexivity. Qed.

(** A non-empty text that does not end with white space starts with white
    space followed by another character. *)
Lemma split_at_non_space (v : list ascii) z :
  last v = Some z → JS.is_space z = false →
  ∃ ws x v', v = ws ++ x :: v' ∧
             Forall (λ y, JS.is_space y = true) ws ∧ JS.is_space x = false.
Proof.
  induction v as [|c v IH]; [done|]. intros Hlast Hz.
  destruct (JS.is_space c) eqn:Hc.
  - destruct v as [|c' v]; [simpl in Hlast; congruence|].
    destruct IH as (ws & x & v' & Hv & Hws & Hx); [done..|].
    exists (c :: ws), x, v'. rewrite Hv. split_and!; [done| |done].
    by constructor.
  - exists [], c, v. by split_and!.
Qed.

Lemma forallb_Forall_true {A} (f : A → bool) (l : list A) :
  forallb f l = true → Forall (λ x, f x = true) l.
Proof.
  induction l as [|x l IH]; simpl; [done|].
  intros [??]%andb_true_iff. constructor; auto.
Qed.

Lemma canonical_inv d :
  canonical d = true →
  d_keyword d ∈ ["let"; "const"; "var"] ∧
  (∃ c n, lit (d_name d) = c :: n ∧ is_ident_start c = true ∧
          Forall (λ x, is_ident_part x = true) n) ∧
  (∃ c v z, lit (d_value d) = c :: v ∧ last (c :: v) = Some z ∧
            JS.is_space c = false ∧ JS.is_space z = false ∧
            Forall (λ x, x ∉ excluded_in_value) (c :: v)).
Proof.
  unfold canonical. intros [[Hk Hn]%andb_true_iff Hv]%andb_true_iff.
  apply bool_decide_eq_true in Hk. split; [done|]. split.
  - destruct (lit (d_name d)) as [|c n]; [done|]. simpl in Hn.
    apply andb_true_iff in Hn as [Hc Hn]. exists c, n. split_and!; [done..|].
    by apply forallb_Forall_true.
  - unfold is_plain_value in Hv.
    destruct (lit (d_value d)) as [|c v]; [done|].
    destruct (last (c :: v)) as [z|] eqn:Hlast; [|done].
    apply andb_true_iff in Hv as [[Hc Hz]%andb_true_iff Hall].
    exists c, v, z. apply negb_true_iff in Hc, Hz. split_and!; [done..|].
    apply forallb_Forall_true in Hall. eapply Forall_impl; [exact Hall|].
    intros x Hx%negb_true_iff. by apply bool_decide_eq_false in Hx.
Qed.

Lemma ident_part_facts x :
  is_ident_part x = true →
  JS.is_space x = false ∧ x ≠ "("%char ∧ x ≠ "}"%char ∧ x ≠ ";"%char.
Proof. intros H. ascii_cases x H; by split_and!. Qed.

Lemma ident_start_facts x :
  is_ident_start x = true → JS.is_space x = false ∧ is_ident_part x = true.
Proof. intros H. ascii_cases x H; by split_and!. Qed.

Lemma anyof_keyword {R} (k : list ascii → option R) kw s r :
  kw ∈ ["let"; "const"; "var"] → k s = Some r →
  Regex.m_atom (Regex.AnyOf [lit "let"; lit "const"; lit "var"]) k (lit kw ++ s)
  = Some r.
Proof.
  intros Hkw Hk.
  repeat (apply elem_of_cons in Hkw as [->|Hkw]); [..|by apply elem_of_nil in Hkw];
    simpl; by rewrite Hk.
Qed.

Lemma exec_varRegex d prev rest :
  canonical d = true → Regex.is_word_opt prev = false →
  Regex.exec varRegex prev (statement d ++ rest)
  = Some ([lit (d_keyword d); lit (d_name d); lit (d_value d)], rest).
Proof.
  intros (Hkw & (c & n & Hname & Hc & Hn) &
          (v0 & v & z & Hvalue & Hlast & Hv0 & Hz & Hexcl))%canonical_inv Hprev.
  destruct (ident_start_facts c Hc) as [Hcs Hcp].
  assert (Regex.at_boundary prev (statement d ++ rest) = true) as Hb.
  { unfold Regex.at_boundary, statement. rewrite Hprev.
    repeat (apply elem_of_cons in Hkw as [->|Hkw]);
      [..|by apply elem_of_nil in Hkw]; reflexivity. }
  unfold Regex.exec. rewrite Hb. cbn [varRegex Regex.word_boundary Regex.body andb negb].
  unfold statement. rewrite <-!app_assoc.
  rewrite m_items_Group, m_atoms_cons.
  apply anyof_keyword; [done|]. rewrite m_atoms_nil.
  rewrite m_items_At.
  apply (plus_step JS.is_space _ " "%char []); [done|done| |].
  { rewrite Hname. by intros x [= <-]. }
  rewrite m_items_Group, m_atoms_cons. rewrite Hname at 1.
  apply (cls_step is_ident_start _ c); [done|].
  rewrite m_atoms_cons.
  apply (star_step is_ident_part _ n); [done|by intros x [= <-]|].
  rewrite m_atoms_nil, m_items_At.
  apply (star_step JS.is_space _ [" "%char]);
    [by repeat constructor|by intros x [= <-]|].
  rewrite m_items_At.
  apply (lit_step ["="%char]).
  rewrite m_items_At.
  apply (star_step JS.is_space _ [" "%char]); [by repeat constructor| |].
  { rewrite Hvalue. by intros x [= <-]. }
  rewrite m_items_Group, m_atoms_cons. rewrite Hvalue at 1.
  apply (plus_step (not_char ";") _ v0 v).
  - apply Forall_cons in Hexcl as [H0 _]. unfold not_char.
    apply negb_true_iff, bool_decide_eq_false. intros ->. apply H0. by left.
  - apply Forall_cons in Hexcl as [_ Hexcl]. eapply Forall_impl; [exact Hexcl|].
    intros x Hx. unfold not_char.
    apply negb_true_iff, bool_decide_eq_false. intros ->. apply Hx. by left.
  - by intros x [= <-].
  - rewrite m_atoms_nil, m_items_At. apply (lit_step [";"%char]).
    cbn [Regex.m_items]. do 2 f_equal.
    by rewrite !consumed_app.
Qed.

(** ** The wrapping pass on canonical declarations *)

Lemma scan_match_nonempty re f prev m rest caps :
  m ≠ [] → Regex.exec re prev (m ++ rest) = Some (caps, rest) →
  Regex.scan re f prev 0 (m ++ rest)
  = f m caps ++ Regex.scan re f (from_option Some prev (last m)) 0 rest.
Proof.
  destruct m as [|c m]; [done|]. intros _ Hex.
  rewrite last_cons_from_option. by apply scan_match.
Qed.

Lemma statement_snoc d :
  statement d
  = (lit (d_keyword d) ++ lit " " ++ lit (d_name d) ++ lit " = "
       ++ lit (d_value d)) ++ [";"%char].
Proof. unfold statement. by rewrite <-!app_assoc. Qed.

Lemma hide_value_statement d m :
  hide_value m [lit (d_keyword d); lit (d_name d); lit (d_value d)]
  = wrapped_statement d.
Proof. reflexivity. Qed.

Lemma scan_varRegex_statement d prev rest :
  canonical d = true → Regex.is_word_opt prev = false →
  Regex.scan varRegex hide_value prev 0 (statement d ++ newline ++ rest)
  = wrapped_statement d ++ newline
      ++ Regex.scan varRegex hide_value (Some "010"%char) 0 rest.
Proof.
  intros Hd Hprev.
  assert (statement d ≠ []) as Hne.
  { rewrite statement_snoc. by intros [? ?]%app_eq_nil. }
  rewrite (scan_match_nonempty _ hide_value _ _ _ _ Hne
             (exec_varRegex d prev _ Hd Hprev)).
  rewrite hide_value_statement. f_equal.
  rewrite statement_snoc, last_snoc. reflexivity.
Qed.

Lemma scan_varRegex_lines ds prev :
  forallb canonical ds = true → Regex.is_word_opt prev = false →
  Regex.scan varRegex hide_value prev 0 (lines (statement <$> ds))
  = lines (wrapped_statement <$> ds).
Proof.
  revert prev. induction ds as [|d ds IH]; intros prev Hds Hprev.
  - simpl. unfold Regex.exec, Regex.at_boundary. by rewrite Hprev.
  - simpl in Hds. apply andb_true_iff in Hds as [Hd Hds].
    unfold lines. rewrite !fmap_cons. cbn [concat]. rewrite <-!app_assoc.
    rewrite scan_varRegex_statement by done.
    do 2 f_equal. by apply IH.
Qed.

Lemma wrapped_statement_head d :
  wrapped_statement d
  = declaration_head d
      ++ (lit "(" ++ lit (d_value d) ++ lit " * 1 + 0)") ++ lit ";".
Proof. unfold wrapped_statement, declaration_head. by rewrite <-!app_assoc. Qed.

Lemma statement_head d :
  statement d = declaration_head d ++ lit (d_value d) ++ lit ";".
Proof. unfold statement, declaration_head. by rewrite <-!app_assoc. Qed.

Lemma declaration_head_chars d :
  canonical d = true →
  Forall (λ x, x ≠ "("%char ∧ x ≠ "}"%char ∧ x ≠ ";"%char) (declaration_head d).
Proof.
  intros (Hkw & (c & n & Hname & Hc & Hn) & _)%canonical_inv.
  unfold declaration_head. rewrite Hname.
  repeat apply Forall_app_2.
  - repeat (apply elem_of_cons in Hkw as [->|Hkw]);
      [..|by apply elem_of_nil in Hkw]; by repeat constructor.
  - by repeat constructor.
  - constructor.
    + by apply ident_part_facts, ident_start_facts.
    + eapply Forall_impl; [exact Hn|]. intros x Hx. by apply ident_part_facts.
  - by repeat constructor.
Qed.

Lemma plain_value_chars d :
  canonical d = true →
  Forall (λ x, x ≠ "}"%char ∧ x ≠ ";"%char ∧ x ≠ "*"%char ∧ is_dot x = true)
    (lit (d_value d)).
Proof.
  intros (_ & _ & (c & v & z & -> & _ & _ & _ & Hexcl))%canonical_inv.
  eapply Forall_impl; [exact Hexcl|]. intros x Hx.
  unfold excluded_in_value in Hx. rewrite !not_elem_of_cons in Hx.
  destruct Hx as (? & ? & ? & Hlf & Hcr & _). split_and!; try done.
  unfold is_dot. by rewrite !bool_decide_eq_false_2.
Qed.

Lemma wrapped_statement_chars d :
  canonical d = true →
  Forall (λ x, x ≠ "}"%char) (wrapped_statement d ++ newline).
Proof.
  intros Hd. rewrite wrapped_statement_head, <-!app_assoc.
  apply Forall_app_2.
  { eapply Forall_impl; [by apply declaration_head_chars|]. by intros x (?&?&?). }
  repeat apply Forall_app_2; try by repeat constructor.
  eapply Forall_impl; [by apply plain_value_chars|]. by intros x (?&?&?).
Qed.

Lemma wrapped_lines_no_brace ds :
  forallb canonical ds = true → "}"%char ∉ lines (wrapped_statement <$> ds).
Proof.
  induction ds as [|d ds IH]; simpl; [intros _; apply not_elem_of_nil|].
  intros [Hd Hds]%andb_true_iff. unfold lines. rewrite fmap_cons. cbn [concat].
  apply not_elem_of_app. split; [|by apply IH].
  intros Hin. pose proof (wrapped_statement_chars d Hd) as Hall.
  rewrite Forall_forall in Hall. by apply (Hall _ Hin).
Qed.

Lemma no_call_semi_spec p2 p1 s a x y b :
  no_call_semi p2 p1 s → s = a ++ x :: y :: ";"%char :: b →
  ¬ (x = "("%char ∧ y = ")"%char).
Proof.
  revert p2 p1 s. induction a as [|c a IH]; intros p2 p1 s Hs ->.
  - simpl in Hs. destruct Hs as (_ & _ & Hs & _). by apply Hs.
  - simpl in Hs. destruct Hs as [_ Hs]. by eapply IH.
Qed.

Lemma no_call_semi_app p2 p1 a b :
  Forall (λ x, x ≠ ";"%char) a → (∀ q2 q1, no_call_semi q2 q1 b) →
  no_call_semi p2 p1 (a ++ b).
Proof.
  intros Ha Hb. revert p2 p1.
  induction Ha as [|c a Hc Ha IH]; intros p2 p1; simpl; [done|].
  split; [done|apply IH].
Qed.

Lemma wrapped_lines_no_call_semi ds q2 q1 :
  forallb canonical ds = true →
  no_call_semi q2 q1 (lines (wrapped_statement <$> ds)).
Proof.
  revert q2 q1. induction ds as [|d ds IH]; intros q2 q1; simpl; [done|].
  intros [Hd Hds]%andb_true_iff. unfold lines. rewrite fmap_cons. cbn [concat].
  rewrite wrapped_statement_head.
  change (lit " * 1 + 0)") with (lit " * 1 + " ++ lit "0)").
  rewrite <-!app_assoc.
  apply no_call_semi_app.
  { eapply Forall_impl; [by apply declaration_head_chars|]. by intros x (?&?&?). }
  intros p2 p1. apply (no_call_semi_app _ _ (lit "(")); [by repeat constructor|].
  clear p2 p1. intros p2 p1. apply no_call_semi_app.
  { eapply Forall_impl; [by apply plain_value_chars|]. by intros x (?&?&?). }
  clear p2 p1. intros p2 p1.
  apply (no_call_semi_app _ _ (lit " * 1 + ")); [by repeat constructor|].
  clear p2 p1. intros p2 p1. simpl.
  split_and!; try done. { intros _ [? _]. done. }
  by apply IH.
Qed.

Lemma exec_timing_regex prev t :
  (∀ q2 q1, no_call_semi q2 q1 t) → ∀ t', t' `suffix_of` t →
  Regex.exec timing_regex prev t' = None.
Proof.
  intros Ht t' [a ->]. unfold Regex.exec.
  cbn [timing_regex Regex.word_boundary Regex.body andb].
  rewrite m_items_At. cbn [Regex.m_atom].
  destruct (Regex.drop_prefix _ t') as [t''|] eqn:Hp; [|done].
  apply drop_prefix_Some in Hp as ->.
  destruct (no_call_semi_spec "000" "000" _
              (a ++ lit "const _t = performance.now") "(" ")" t''
              (Ht _ _)); [|done].
  by rewrite <-!app_assoc.
Qed.

Lemma wrap_tail_match caps rest :
  Regex.m_items
    [ Regex.At (Regex.Star JS.is_space); Regex.At (Regex.Lit (lit "*"));
      Regex.At (Regex.Star JS.is_space); Regex.At (Regex.Lit (lit "1"));
      Regex.At (Regex.Star JS.is_space); Regex.At (Regex.Lit (lit "+"));
      Regex.At (Regex.Star JS.is_space); Regex.At (Regex.Lit (lit "0)")) ]
    caps (lit " * 1 + 0)" ++ rest)
  = Some (caps, rest).
Proof. reflexivity. Qed.

Lemma exec_unwrap_regex d prev rest :
  canonical d = true →
  Regex.exec unwrap_regex prev
    ((lit "(" ++ lit (d_value d) ++ lit " * 1 + 0)") ++ rest)
  = Some ([lit (d_value d)], rest).
Proof.
  intros Hd. pose proof (plain_value_chars d Hd) as Hchars.
  destruct (canonical_inv d Hd) as (_ & _ & (c & v & z & Hv & Hlast & _ & Hz & _)).
  unfold Regex.exec.
  cbn [unwrap_regex Regex.word_boundary Regex.body andb].
  rewrite <-!app_assoc, m_items_At. apply (lit_step (lit "(")).
  rewrite m_items_Group, m_atoms_cons.
  apply (star_lazy_span is_dot _ (lit (d_value d))).
  - eapply Forall_impl; [exact Hchars|]. by intros x (?&?&?&?).
  - intros v1 v2 Hsplit Hv2. rewrite m_atoms_nil, m_items_At.
    destruct (split_at_non_space v2 z) as (ws & x & v' & -> & Hws & Hx); [|done|].
    { rewrite <-Hv, Hsplit, last_app in Hlast.
      destruct (last v2) eqn:E; [done|]. by apply last_None in E. }
    rewrite <-app_assoc.
    apply (star_space_lit_fail "*" []); [done..|].
    rewrite Forall_forall in Hchars.
    destruct (Hchars x) as (_ & _ & Hstar & _); [|done].
    rewrite Hsplit. apply elem_of_app. right. apply elem_of_app. right. by left.
  - rewrite m_atoms_nil, wrap_tail_match. by rewrite consumed_app.
Qed.

Lemma scan_unwrap_statement d prev rest :
  canonical d = true →
  Regex.scan unwrap_regex first_capture prev 0
    (wrapped_statement d ++ newline ++ rest)
  = statement d ++ newline
      ++ Regex.scan unwrap_regex first_capture (Some "010"%char) 0 rest.
Proof.
  intros Hd. rewrite wrapped_statement_head, statement_head.
  set (m := lit "(" ++ lit (d_value d) ++ lit " * 1 + 0)").
  rewrite <-(app_assoc (declaration_head d)), <-(app_assoc m).
  rewrite <-(app_assoc (declaration_head d)).
  rewrite scan_copy.
  2:{ intros prev' a1 a2 Hsplit Ha2.
      eapply (exec_first_char _ _ "(" []); [reflexivity|].
      destruct a2 as [|x a2]; [done|]. simpl. intros [= ->].
      pose proof (declaration_head_chars d Hd) as Hall.
      rewrite Forall_forall in Hall. destruct (Hall "("%char) as [? _]; [|done].
      rewrite Hsplit. apply elem_of_app. right. by left. }
  f_equal.
  assert (m ≠ []) as Hne by done.
  rewrite (scan_match_nonempty _ first_capture _ _ _ _ Hne
             (exec_unwrap_regex d _ _ Hd)).
  unfold first_capture at 1, capture. cbn [lookup list_lookup default].
  rewrite <-app_assoc. f_equal.
Qed.

Lemma scan_unwrap_lines ds prev :
  forallb canonical ds = true →
  Regex.scan unwrap_regex first_capture prev 0 (lines (wrapped_statement <$> ds))
  = lines (statement <$> ds).
Proof.
  revert prev. induction ds as [|d ds IH]; intros prev Hds; [done|].
  simpl in Hds. apply andb_true_iff in Hds as [Hd Hds].
  unfold lines. rewrite !fmap_cons. cbn [concat]. rewrite <-!app_assoc.
  rewrite scan_unwrap_statement by done.
  do 2 f_equal. by apply IH.
Qed.

Lemma replace_of_chars re f (l : list ascii) :
  Regex.replace re f (string_of_list_ascii l)
  = string_of_list_ascii (Regex.scan re f None 0 l).
Proof.
  unfold Regex.replace. by rewrite list_ascii_of_string_of_list_ascii.
Qed.

Lemma applyVariableHiding_program ds :
  forallb canonical ds = true →
  applyVariableHiding (program ds)
  = string_of_list_ascii (lines (wrapped_statement <$> ds)).
Proof.
  intros Hds. unfold applyVariableHiding, program.
  by rewrite replace_of_chars, scan_varRegex_lines.
Qed.

Lemma removeObfuscation_wrapped ds :
  forallb canonical ds = true →
  removeObfuscation (string_of_list_ascii (lines (wrapped_statement <$> ds)))
  = program ds.
Proof.
  intros Hds. unfold removeObfuscation, program.
  pose proof (wrapped_lines_no_brace ds Hds) as Hbrace.
  rewrite replace_of_chars, (scan_needs "}") by auto using junk_regex_needs.
  rewrite replace_of_chars, scan_no_match.
  2:{ intros prev t Ht. eapply exec_timing_regex; [|exact Ht].
      intros q2 q1. by apply wrapped_lines_no_call_semi. }
  rewrite replace_of_chars, (scan_needs "}") by auto using even_regex_needs.
  rewrite replace_of_chars, (scan_needs "}") by auto using try_regex_needs.
  by rewrite replace_of_chars, scan_unwrap_lines.
Qed.

(** ** The removal pass: fixed points *)

Lemma scan_absent re f prev s :
  occurs_from re prev s = false → Regex.scan re f prev 0 s = s.
Proof.
  revert prev. induction s as [|c s IH]; intros prev; cbn [occurs_from Regex.scan].
  - by destruct (Regex.exec re prev []).
  - destruct (Regex.exec re prev (c :: s)); [done|].
    intros H. by rewrite IH.
Qed.

Lemma consumed_length (s rest : list ascii) :
  rest `suffix_of` s →
  length (Regex.consumed s rest) = (length s - length rest)%nat.
Proof.
  intros [k ->]. unfold Regex.consumed. rewrite length_take, length_app. lia.
Qed.

Lemma consumed_length_le (s rest : list ascii) :
  (length (Regex.consumed s rest) ≤ length s)%nat.
Proof. unfold Regex.consumed. rewrite length_take. lia. Qed.

Lemma scan_length_le re f :
  shrinks re f →
  ∀ s prev k, (length (Regex.scan re f prev k s) ≤ length s - k)%nat.
Proof.
  intros Hsh. induction s as [|c s IH]; intros prev k; cbn [Regex.scan].
  - destruct k; [|simpl; lia].
    destruct (Regex.exec re prev []) as [[caps rest]|] eqn:E; [|simpl; lia].
    pose proof (Hsh _ _ _ _ E) as Hm. pose proof (consumed_length_le [] rest).
    simpl in *. lia.
  - destruct k as [|k].
    + destruct (Regex.exec re prev (c :: s)) as [[caps rest]|] eqn:E.
      * pose proof (Hsh _ _ _ _ E) as Hm.
        pose proof (consumed_length_le (c :: s) rest) as Hle.
        cbv zeta. rewrite length_app.
        destruct (length (Regex.consumed (c :: s) rest)) as [|n] eqn:En; [lia|].
        specialize (IH (Some c) n). simpl in *. lia.
      * specialize (IH (Some c) 0%nat). simpl in *. lia.
    + specialize (IH (Some c) k). simpl in *. lia.
Qed.

Lemma scan_length_lt re f :
  shrinks re f →
  ∀ s prev, occurs_from re prev s = true →
            (length (Regex.scan re f prev 0 s) < length s)%nat.
Proof.
  intros Hsh. induction s as [|c s IH]; intros prev;
    cbn [occurs_from Regex.scan].
  - destruct (Regex.exec re prev []) as [[caps rest]|] eqn:E; [|done].
    intros _. pose proof (Hsh _ _ _ _ E) as Hm.
    pose proof (consumed_length_le [] rest). simpl in *. lia.
  - destruct (Regex.exec re prev (c :: s)) as [[caps rest]|] eqn:E.
    + intros _. pose proof (Hsh _ _ _ _ E) as Hm.
      pose proof (consumed_length_le (c :: s) rest) as Hle.
      cbv zeta. rewrite length_app.
      destruct (length (Regex.consumed (c :: s) rest)) as [|n] eqn:En; [lia|].
      pose proof (scan_length_le re f Hsh s (Some c) n). simpl in *. lia.
    + intros H. specialize (IH (Some c) H). simpl. lia.
Qed.

Lemma m_items_captures l caps s caps' rest :
  Regex.m_items l caps s = Some (caps', rest) → caps `prefix_of` caps'.
Proof.
  revert caps s. induction l as [|[a|g] l IH]; intros caps s; simpl.
  - by intros [= -> _].
  - intros (s1 & _ & ?%IH)%m_atom_suffix. done.
  - intros (s1 & _ & H%IH)%m_atoms_suffix.
    etrans; [|exact H]. by apply prefix_app_r.
Qed.

(** A pattern that begins with a literal matches no empty text, so deleting
    its matches shrinks them. *)
Lemma shrinks_nothing re c l items :
  Regex.body re = Regex.At (Regex.Lit (c :: l)) :: items → shrinks re nothing.
Proof.
  intros Hb prev s caps rest. unfold Regex.exec. rewrite Hb.
  destruct (_ && _); [done|].
  rewrite m_items_At. cbn [Regex.m_atom].
  intros (s1 & ->%drop_prefix_Some & Hs1%m_items_suffix)%bind_Some.
  rewrite consumed_length.
  - apply suffix_length in Hs1. rewrite length_app. simpl. lia.
  - etrans; [exact Hs1|]. by apply suffix_app_r.
Qed.

(** A pattern that begins with a literal and a group, replaced by that
    group: the match also has the literal, so the replacement is shorter. *)
Lemma shrinks_first_group re c l g items :
  Regex.body re = Regex.At (Regex.Lit (c :: l)) :: Regex.Group g :: items →
  shrinks re first_capture.
Proof.
  intros Hb prev s caps rest. unfold Regex.exec. rewrite Hb.
  destruct (_ && _); [done|].
  rewrite m_items_At. cbn [Regex.m_atom].
  intros (s1 & ->%drop_prefix_Some & H)%bind_Some.
  rewrite m_items_Group in H.
  apply m_atoms_suffix in H as (s2 & Hs2 & H).
  pose proof (m_items_captures _ _ _ _ _ H) as Hcaps.
  pose proof (m_items_suffix _ _ _ _ _ H) as Hrest.
  unfold first_capture, capture.
  assert (caps !! 0%nat = Some (Regex.consumed s1 s2)) as ->.
  { destruct Hcaps as [k ->]. done. }
  change (default [] (Some (Regex.consumed s1 s2)))
    with (Regex.consumed s1 s2).
  rewrite (consumed_length s1 s2) by done.
  rewrite consumed_length.
  - apply suffix_length in Hs2, Hrest. rewrite length_app. simpl. lia.
  - etrans; [exact Hrest|]. etrans; [exact Hs2|]. by apply suffix_app_r.
Qed.

Lemma replace_absent re f code :
  occurs re code = false → Regex.replace re f code = code.
Proof. intros H. by apply replace_unchanged, scan_absent. Qed.

Lemma string_length_chars (s : string) :
  String.length s = length (list_ascii_of_string s).
Proof. induction s as [|c s IH]; simpl; congruence. Qed.

Lemma replace_length_le re f code :
  shrinks re f →
  (String.length (Regex.replace re f code) ≤ String.length code)%nat.
Proof.
  intros Hsh. rewrite !string_length_chars, replace_chars.
  pose proof (scan_length_le re f Hsh (list_ascii_of_string code) None 0%nat).
  lia.
Qed.

Lemma replace_length_lt re f code :
  shrinks re f → occurs re code = true →
  (String.length (Regex.replace re f code) < String.length code)%nat.
Proof.
  intros Hsh H. rewrite !string_length_chars, replace_chars.
  by apply scan_length_lt.
Qed.

Lemma removal_shrinks :
  shrinks junk_regex nothing ∧ shrinks timing_regex nothing ∧
  shrinks even_regex nothing ∧ shrinks try_regex nothing ∧
  shrinks unwrap_regex first_capture.
Proof.
  split_and!;
    [eapply shrinks_nothing; reflexivity ..
    |eapply shrinks_first_group; reflexivity].
Qed.

(** The texts that the removal pass leaves as they are: those in which none
    of its patterns matches. *)
Lemma removeObfuscation_fixed_point (Y : string) :
  removeObfuscation Y = Y ↔ fully_stripped Y = true.
Proof.
  destruct removal_shrinks as (Hj & Ht & He & Hy & Hu).
  unfold fully_stripped, removal_patterns. cbn [forallb].
  unfold removeObfuscation. split.
  - intros H.
    destruct (occurs junk_regex Y) eqn:E1.
    { exfalso. apply (f_equal String.length) in H.
      pose proof (replace_length_lt _ nothing Y Hj E1).
      pose proof (replace_length_le _ nothing
                    (Regex.replace junk_regex nothing Y) Ht).
      pose proof (replace_length_le _ nothing
                    (Regex.replace timing_regex nothing
                       (Regex.replace junk_regex nothing Y)) He).
      pose proof (replace_length_le _ nothing
                    (Regex.replace even_regex nothing
                       (Regex.replace timing_regex nothing
                          (Regex.replace junk_regex nothing Y))) Hy).
      pose proof (replace_length_le _ first_capture
                    (Regex.replace try_regex nothing
                       (Regex.replace even_regex nothing
                          (Regex.replace timing_regex nothing
                             (Regex.replace junk_regex nothing Y)))) Hu).
      lia. }
    rewrite (replace_absent _ _ _ E1) in H.
    destruct (occurs timing_regex Y) eqn:E2.
    { exfalso. apply (f_equal String.length) in H.
      pose proof (replace_length_lt _ nothing Y Ht E2).
      pose proof (replace_length_le _ nothing
                    (Regex.replace timing_regex nothing Y) He).
      pose proof (replace_length_le _ nothing
                    (Regex.replace even_regex nothing
                       (Regex.replace timing_regex nothing Y)) Hy).
      pose proof (replace_length_le _ first_capture
                    (Regex.replace try_regex nothing
                       (Regex.replace even_regex nothing
                          (Regex.replace timing_regex nothing Y))) Hu).
      lia. }
    rewrite (replace_absent _ _ _ E2) in H.
    destruct (occurs even_regex Y) eqn:E3.
    { exfalso. apply (f_equal String.length) in H.
      pose proof (replace_length_lt _ nothing Y He E3).
      pose proof (replace_length_le _ nothing
                    (Regex.replace even_regex nothing Y) Hy).
      pose proof (replace_length_le _ first_capture
                    (Regex.replace try_regex nothing
                       (Regex.replace even_regex nothing Y)) Hu).
      lia. }
    rewrite (replace_absent _ _ _ E3) in H.
    destruct (occurs try_regex Y) eqn:E4.
    { exfalso. apply (f_equal String.length) in H.
      pose proof (replace_length_lt _ nothing Y Hy E4).
      pose proof (replace_length_le _ first_capture
                    (Regex.replace try_regex nothing Y) Hu).
      lia. }
    rewrite (replace_absent _ _ _ E4) in H.
    destruct (occurs unwrap_regex Y) eqn:E5; [|done].
    exfalso. apply (f_equal String.length) in H.
    pose proof (replace_length_lt _ first_capture Y Hu E5). lia.
  - intros H.
    apply andb_prop in H as [E1%negb_true_iff H].
    apply andb_prop in H as [E2%negb_true_iff H].
    apply andb_prop in H as [E3%negb_true_iff H].
    apply andb_prop in H as [E4%negb_true_iff H].
    apply andb_prop in H as [E5%negb_true_iff _].
    by rewrite (replace_absent _ _ _ E1), (replace_absent _ _ _ E2),
      (replace_absent _ _ _ E3), (replace_absent _ _ _ E4),
      (replace_absent _ _ _ E5).
Qed.

(** ** Input outside the alphabet *)

Lemma perm_table_no_undefined t : perm_table t → JS.indexOf t None = (-1)%Z.
Proof.
  intros Hp. apply indexOf_not_elem. rewrite (perm_table_elem _ _ Hp).
  apply (bool_decide_unpack _). by vm_compute.
Qed.

Lemma through_not_found l r : perm_table l → through l r (-1) = (-1)%Z.
Proof. intros Hl. unfold through. simpl. by apply perm_table_no_undefined. Qed.

Lemma keyboard_forward_other c :
  JS.is_upper c = false → Keyboard.forward (String c EmptyString) = (-1)%Z.
Proof.
  destruct c as [[] [] [] [] [] [] [] []]; intros H; vm_compute in H;
    try discriminate; reflexivity.
Qed.

Lemma encipher_not_upper (e : Enigma.t) (c : ascii) :
  wf_enigma e → JS.is_upper c = false →
  Enigma.encipher e (String c EmptyString)
  = (advance e, {| Enigma.path := replicate 10 (-1)%Z; Enigma.letter := "" |}).
Proof.
  intros [(Hrel & Hrer & _) [H1l H1r] [H2l H2r] H3 [Hpl Hpr]]%advance_wf Hc.
  destruct H3 as [H3l H3r].
  unfold Enigma.encipher. cbv zeta.
  rewrite (keyboard_forward_other c Hc).
  unfold Plugboard.forward, Plugboard.backward, Rotor.forward, Rotor.backward,
    Reflector.reflect.
  cbv zeta. fold (advance e).
  repeat match goal with
         | |- context [JS.indexOf ?l (JS.at_index ?r (-1))] =>
             change (JS.indexOf l (JS.at_index r (-1))) with (through l r (-1));
             rewrite (through_not_found l r) by assumption
         end.
  reflexivity.
Qed.

(** * The claims *)

(** C1. For every configuration whose rotor and reflector names resolve
    and every text, the text codec applied twice, each time with a fresh
    machine built from the configuration, gives the text back exactly. *)
Theorem text_codec_self_inverse (C : Configuration) (S : string) (o1 o2 : bool) :
  resolves C →
  ∃ T, enigmaObfuscate S C o1 = Some T ∧ enigmaObfuscate T C o2 = Some S.
Proof.
  intros (e & He & Hwf)%build_enigma_resolves.
  unfold enigmaObfuscate. rewrite He. simpl.
  eexists. split; [done|].
  rewrite !codec_loop_run, !append_empty_l.
  by rewrite codec_run_involutive.
Qed.

Lemma text_codec_self_inverse_witness :
  resolves cfg0 ∧
  ∃ T, enigmaObfuscate "Hello, World!" cfg0 true = Some T ∧
       enigmaObfuscate T cfg0 false = Some "Hello, World!".
Proof.
  split; [exact cfg0_resolves|].
  exact (text_codec_self_inverse cfg0 "Hello, World!" true false cfg0_resolves).
Defined.

(** C4. Every character that is not a letter appears unchanged at the same
    position of the output (and the output has no other non-letters), and
    processing such a character leaves the whole machine, hence all three
    rotors, as it was. *)
Theorem non_letters_pass_through (C : Configuration) (S : string) (o : bool) :
  resolves C →
  ∃ T, enigmaObfuscate S C o = Some T ∧
       String.length T = String.length S ∧
       (∀ i c, JS.is_letter c = false →
               String.get i T = Some c ↔ String.get i S = Some c) ∧
       (∀ e c, JS.is_letter c = false →
               codec_char e c = (e, String c EmptyString)).
Proof.
  intros (e & He & Hwf)%build_enigma_resolves.
  unfold enigmaObfuscate. rewrite He. simpl.
  eexists. split; [done|].
  rewrite !codec_loop_run, !append_empty_l.
  destruct (codec_run_positions e S Hwf) as [Hlen Hpos].
  split_and!; [done| |by apply codec_char_other].
  intros i c Hc. split.
  - intros HT.
    destruct (proj1 (string_get_lt i S)) as [x Hx].
    { rewrite <-Hlen. apply string_get_lt. eauto. }
    destruct (Hpos i x Hx) as (c' & Hc' & Hl & Hsame & _).
    rewrite HT in Hc'. injection Hc' as <-.
    rewrite Hx. f_equal. symmetry. apply Hsame. congruence.
  - intros HS. destruct (Hpos i c HS) as (c' & Hc' & _ & Hsame & _).
    by rewrite Hc', Hsame.
Qed.

Lemma non_letters_pass_through_witness :
  resolves cfg0 ∧
  ∃ T, enigmaObfuscate "a1, b2!" cfg0 true = Some T ∧
       String.length T = String.length "a1, b2!" ∧
       (∀ i c, JS.is_letter c = false →
               String.get i T = Some c ↔ String.get i "a1, b2!" = Some c) ∧
       (∀ e c, JS.is_letter c = false →
               codec_char e c = (e, String c EmptyString)).
Proof.
  split; [exact cfg0_resolves|].
  exact (non_letters_pass_through cfg0 "a1, b2!" true cfg0_resolves).
Defined.

(** C5 (as stated, refuted). [encipher] does not normalise its input: on
    the lower-case letter a it returns the empty string and ten times -1,
    no letter and no positions. *)
Lemma encipher_lower_case_gives_no_letter :
  Enigma.letter (Enigma.encipher enigma0 "a").2 = "" ∧
  Enigma.path (Enigma.encipher enigma0 "a").2 = replicate 10 (-1)%Z.
Proof. by vm_compute. Qed.

(** C5 (amended). One [encipher] call, on every input character, first
    steps the rightmost rotor (rotor 3) by exactly one position and leaves
    the other rotors, the reflector and the plugboard alone; the signal then
    goes keyboard, plugboard forward, rotor 3, 2, 1 forward, reflector,
    rotor 1, 2, 3 backward, plugboard backward, keyboard backward; the call
    returns the 10 intermediate values in that order and the keyboard's
    letter for the last one.  For an upper-case letter the ten values are
    positions in [0,26) and the result is an upper-case letter; for every
    other character, a lower-case letter included, the ten values are -1 and
    the result is the empty string. *)
Theorem encipher_steps_then_threads (e : Enigma.t) (c : ascii) :
  wf_enigma e →
  let letter := String c EmptyString in
  let r3' := Rotor.rotate_once true (Enigma.r3 e) in
  let s0 := Keyboard.forward letter in
  let s1 := Plugboard.forward (Enigma.pb e) s0 in
  let s2 := Rotor.forward r3' s1 in
  let s3 := Rotor.forward (Enigma.r2 e) s2 in
  let s4 := Rotor.forward (Enigma.r1 e) s3 in
  let s5 := Reflector.reflect (Enigma.re e) s4 in
  let s6 := Rotor.backward (Enigma.r1 e) s5 in
  let s7 := Rotor.backward (Enigma.r2 e) s6 in
  let s8 := Rotor.backward r3' s7 in
  let s9 := Plugboard.backward (Enigma.pb e) s8 in
  let e' := (Enigma.encipher e letter).1 in
  let res := (Enigma.encipher e letter).2 in
  Enigma.r3 e' = r3' ∧
  (∀ i, (i < 26)%nat →
        Rotor.left r3' !! i = Rotor.left (Enigma.r3 e) !! ((i + 1) mod 26)%nat ∧
        Rotor.right r3' !! i = Rotor.right (Enigma.r3 e) !! ((i + 1) mod 26)%nat) ∧
  Enigma.r1 e' = Enigma.r1 e ∧ Enigma.r2 e' = Enigma.r2 e ∧
  Enigma.re e' = Enigma.re e ∧ Enigma.pb e' = Enigma.pb e ∧
  Enigma.path res = [s0; s1; s2; s3; s4; s5; s6; s7; s8; s9] ∧
  length (Enigma.path res) = 10%nat ∧
  Enigma.letter res = Keyboard.backward s9 ∧
  (JS.is_upper c = true →
   Forall (λ s, (0 ≤ s < 26)%Z) (Enigma.path res) ∧
   ∃ v, Enigma.letter res = String v EmptyString ∧ JS.is_upper v = true) ∧
  (JS.is_upper c = false →
   Enigma.path res = replicate 10 (-1)%Z ∧ Enigma.letter res = "").
Proof.
  intros Hwf. pose proof (advance_wf e Hwf) as [Hre H1 H2 H3 Hpb].
  simpl in Hre, H1, H2, H3, Hpb.
  change (Rotor.rotate 1 true (Enigma.r3 e))
    with (Rotor.rotate_once true (Enigma.r3 e)) in H3.
  cbv zeta.
  split_and!; try reflexivity.
  - intros i Hi. destruct Hwf as [_ _ _ [Hl Hr] _].
    apply perm_table_length in Hl, Hr. simpl.
    rewrite !shift_push_lookup by lia. by rewrite Hl, Hr.
  - intros Hc. destruct (keyboard_forward_letter c Hc) as [Hs0 _]. split.
    + cbn [Enigma.encipher Enigma.path snd app].
      change (Rotor.rotate 1 true (Enigma.r3 e))
        with (Rotor.rotate_once true (Enigma.r3 e)).
      repeat (apply Forall_cons; split); auto 12 with enigma_range.
    + apply keyboard_backward_letter.
      change (Rotor.rotate 1 true (Enigma.r3 e))
        with (Rotor.rotate_once true (Enigma.r3 e)).
      auto 12 with enigma_range.
  - intros Hc. by rewrite (encipher_not_upper e c Hwf Hc).
Qed.

Lemma encipher_steps_then_threads_witness :
  wf_enigma enigma0 ∧
  Enigma.r3 (Enigma.encipher enigma0 "a").1
  = Rotor.rotate_once true (Enigma.r3 enigma0) ∧
  Enigma.r1 (Enigma.encipher enigma0 "a").1 = Enigma.r1 enigma0 ∧
  Enigma.r2 (Enigma.encipher enigma0 "a").1 = Enigma.r2 enigma0 ∧
  length (Enigma.path (Enigma.encipher enigma0 "A").2) = 10%nat ∧
  Forall (λ s, (0 ≤ s < 26)%Z) (Enigma.path (Enigma.encipher enigma0 "A").2).
Proof.
  pose proof (encipher_steps_then_threads enigma0 "a" enigma0_wf) as Ha.
  pose proof (encipher_steps_then_threads enigma0 "A" enigma0_wf) as H.
  cbv zeta in Ha, H.
  destruct Ha as (H3 & _ & H1 & H2 & _).
  destruct H as (_ & _ & _ & _ & _ & _ & _ & Hlen & _ & Hupper & _).
  split; [exact enigma0_wf|].
  split; [exact H3|]. split; [exact H1|]. split; [exact H2|].
  split; [exact Hlen|exact (proj1 (Hupper eq_refl))].
Defined.

(** C8. For every plugboard pair string and every position in [0,26), the
    plugboard's backward map undoes its forward map (and conversely), and
    both stay within [0,26). *)
Theorem plugboard_backward_inverts_forward (pairsStr : string) (p : Z) :
  (0 ≤ p < 26)%Z →
  let pb := Plugboard.new pairsStr in
  Plugboard.backward pb (Plugboard.forward pb p) = p ∧
  Plugboard.forward pb (Plugboard.backward pb p) = p ∧
  (0 ≤ Plugboard.forward pb p < 26)%Z ∧
  (0 ≤ Plugboard.backward pb p < 26)%Z.
Proof.
  intros Hp pb. pose proof (plugboard_new_perm pairsStr) as Hwf.
  fold pb in Hwf. change (wf_plugboard pb) in Hwf.
  split; [|split; [|split]].
  - by apply plugboard_backward_forward.
  - by apply plugboard_forward_backward.
  - by apply plugboard_forward_range.
  - by apply plugboard_backward_range.
Qed.

Lemma plugboard_backward_inverts_forward_witness :
  (0 ≤ 2 < 26)%Z ∧
  Plugboard.backward (Plugboard.new "AB CD EF")
    (Plugboard.forward (Plugboard.new "AB CD EF") 2) = 2%Z.
Proof.
  split; [lia|].
  apply (plugboard_backward_inverts_forward "AB CD EF" 2). lia.
Defined.

(** C9. [rotate(n, direction)] for any [n], [rotateToLetter(letter)] and
    [setRing(n)] keep both sides of a rotor permutations of the 26 letters,
    so that forward and backward lookups give positions in [0,26). *)
Theorem rotor_operations_preserve_permutation (r : Rotor.t) :
  perm_table (Rotor.left r) ∧ perm_table (Rotor.right r) →
  ∀ r',
    ((∃ n fwd, r' = Rotor.rotate n fwd r) ∨
     (∃ letter, r' = Rotor.rotateToLetter letter r) ∨
     (∃ n, r' = Rotor.setRing n r)) →
    (perm_table (Rotor.left r') ∧ perm_table (Rotor.right r')) ∧
    ∀ s, (0 ≤ s < 26)%Z →
         (0 ≤ Rotor.forward r' s < 26)%Z ∧ (0 ≤ Rotor.backward r' s < 26)%Z.
Proof.
  intros Hr r' Hop.
  assert (wf_rotor r') as Hr'.
  { destruct Hop as [(n & fwd & ->)|[(letter & ->)|(n & ->)]];
      auto using rotate_wf, rotateToLetter_wf, setRing_wf. }
  split; [exact Hr'|].
  intros s Hs. split; auto using rotor_forward_range, rotor_backward_range.
Qed.

Lemma rotor_operations_preserve_permutation_witness :
  let r := Rotor.new "EKMFLGDQVZNTOWYHXUSPAIBRCJ" "Q" in
  (perm_table (Rotor.left r) ∧ perm_table (Rotor.right r)) ∧
  (perm_table (Rotor.left (Rotor.setRing (Some 3%Z) r)) ∧
   perm_table (Rotor.right (Rotor.setRing (Some 3%Z) r))).
Proof.
  intros r. split; [exact rotor_I_wf|].
  apply (rotor_operations_preserve_permutation r rotor_I_wf
           (Rotor.setRing (Some 3%Z) r)).
  right. right. exists (Some 3%Z). reflexivity.
Defined.

(** C10. With a built-in reflector, in every state the machine reaches while
    a text is processed, the letter returned by [encipher] differs from the
    upper-cased input letter. *)
Theorem encipher_never_returns_its_input
    (C : Configuration) (e0 : Enigma.t) (processed : string) (c : ascii) :
  build_enigma C = Some e0 → JS.is_letter c = true →
  Enigma.letter
    (Enigma.encipher (codec_state e0 processed)
       (JS.toUpperCase (String c EmptyString))).2
  ≠ JS.toUpperCase (String c EmptyString).
Proof.
  intros He0%build_enigma_wf Hc.
  pose proof (codec_state_wf e0 processed He0) as Hwf.
  destruct (codec_char_letter _ c Hwf Hc) as (c' & _ & _ & _ & _ & _ & -> & Hne).
  cbn [JS.toUpperCase]. congruence.
Qed.

Lemma encipher_never_returns_its_input_witness :
  build_enigma cfg0 = Some enigma0 ∧ JS.is_letter "l" = true ∧
  Enigma.letter
    (Enigma.encipher (codec_state enigma0 "He")
       (JS.toUpperCase "l")).2 ≠ JS.toUpperCase "l".
Proof.
  split; [exact build_enigma_cfg0|]. split; [reflexivity|].
  exact (encipher_never_returns_its_input cfg0 enigma0 "He" "l"
           build_enigma_cfg0 eq_refl).
Defined.

(** C2 (as stated, refuted). With the pair string "AB BC" the second pair
    shares B with the first, yet it is applied: the table differs from the
    first-applied-wins table. *)
Lemma plugboard_conflict_not_first_wins :
  Plugboard.left (Plugboard.new "AB BC")
  ≠ Plugboard.left (Plugboard_first_wins "AB BC").
Proof. by vm_compute. Qed.

(** C2 (amended). For every pair string, conflicting or not, every pair
    token with two letters is applied, in order, as the exchange of its two
    letters wherever they stand in the table built so far; no pair is
    skipped.  The table is the alphabet mapped through the exchanges of all
    pairs, and it is a permutation of the alphabet. *)
Theorem plugboard_applies_every_pair (pairsStr : string) :
  Plugboard.left (Plugboard.new pairsStr)
  = foldl (λ t pair, pair_exchange pair <$> t) alpha_table
      (JS.split " " (JS.trim pairsStr)) ∧
  Plugboard.right (Plugboard.new pairsStr) = alpha_table ∧
  perm_table (Plugboard.left (Plugboard.new pairsStr)).
Proof.
  split_and!; [|done|apply plugboard_new_perm].
  apply foldl_apply_pair, alpha_table_perm.
Qed.

(** C3 (defect of the code). The pattern of the arithmetic pass reads
    [[w.]+] where a word class was meant, so an operand is only recognised
    when it is made of the letter w and dots: the addition [x + 5] is left
    as it is instead of becoming [(x - (-5))]. *)
Theorem encodeArithmetic_leaves_x_plus_5 (log2_text : N → list ascii) :
  encodeArithmetic log2_text "x + 5" = "x + 5".
Proof. reflexivity. Qed.

(** The same addition on an operand named [w] is rewritten. *)
Lemma encodeArithmetic_rewrites_w_plus_5 (log2_text : N → list ascii) :
  encodeArithmetic log2_text "w + 5" = "(w - (-5))".
Proof. reflexivity. Qed.

(** C6. The code does not do what the claim says.  A declaration whose
    value runs over two lines is wrapped, because [[^;]+] in the wrapping
    pattern takes the line break; the removal pass then leaves the wrapper in
    place, because [.] in its pattern stops at a line break.  The same
    declaration written on one line does come back. *)
Theorem variable_wrap_stays_on_two_line_value :
  applyVariableHiding "let total = a +
  b;" = "let total = (a +
  b * 1 + 0);" ∧
  removeObfuscation (applyVariableHiding "let total = a +
  b;") = "let total = (a +
  b * 1 + 0);" ∧
  removeObfuscation (applyVariableHiding "let total = a + b;")
  = "let total = a + b;".
Proof. split_and!; by vm_compute. Qed.

(** Declarations in canonical form, [KEYWORD NAME = VALUE;] with single
    spaces, each on a line of its own and with a plain value on one line, do
    come back exactly. *)
Lemma variable_wrap_round_trip_canonical (ds : list declaration) :
  forallb canonical ds = true →
  removeObfuscation (applyVariableHiding (program ds)) = program ds.
Proof.
  intros Hds.
  by rewrite applyVariableHiding_program, removeObfuscation_wrapped.
Qed.

(** C7 (as stated, refuted). A value wrapped twice, as produced by two runs
    of the wrapping pass, loses one wrapper per run of the removal pass. *)
Lemma removeObfuscation_not_idempotent :
  removeObfuscation (removeObfuscation "let x = ((5 * 1 + 0) * 1 + 0);")
  ≠ removeObfuscation "let x = ((5 * 1 + 0) * 1 + 0);".
Proof. by vm_compute. Qed.

(** C7 (amended). A second run of the removal pass changes nothing exactly
    when the first run has left no match of any of the five patterns of the
    pass: a run only deletes matches or replaces a wrapper by its content,
    so it leaves a text alone if and only if nothing in it matches. *)
Theorem removeObfuscation_idempotent_iff_stripped (X : string) :
  removeObfuscation (removeObfuscation X) = removeObfuscation X
  ↔ fully_stripped (removeObfuscation X) = true.
Proof. apply removeObfuscation_fixed_point. Qed.

Lemma removeObfuscation_idempotent_iff_stripped_witness :
  let X := "if (ok) { foo(1); }
let x = (5 * 1 + 0);
function _dummy1() { return Math.random() > 0.5; }" in
  removeObfuscation X = "if (ok) { foo(1); }
let x = 5;
" ∧
  fully_stripped (removeObfuscation X) = true ∧
  removeObfuscation (removeObfuscation X) = removeObfuscation X.
Proof.
  intros X.
  assert (fully_stripped (removeObfuscation X) = true) as H by (by vm_compute).
  split; [by vm_compute|]. split; [exact H|].
  exact (proj2 (removeObfuscation_idempotent_iff_stripped X) H).
Defined.

(** * Further properties of the cipher machine *)

(** ** Rotation *)

Lemma pop_unshift_shift_push (t : JS.table) :
  t ≠ [] → JS.pop_unshift (JS.shift_push t) = t.
Proof.
  destruct t as [|x t]; [done|]. intros _. unfold JS.pop_unshift. simpl.
  by rewrite last_snoc, removelast_last.
Qed.

Lemma shift_push_pop_unshift (t : JS.table) :
  t ≠ [] → JS.shift_push (JS.pop_unshift t) = t.
Proof.
  intros Ht. unfold JS.pop_unshift.
  destruct (last t) as [x|] eqn:Hlast.
  - apply last_Some in Hlast as [t' ->]. by rewrite removelast_last.
  - by apply last_None in Hlast.
Qed.

Lemma perm_table_non_empty t : perm_table t → t ≠ [].
Proof. intros Hp%perm_table_length ->. done. Qed.

Lemma rotate_once_cancel r :
  wf_rotor r →
  Rotor.rotate_once true (Rotor.rotate_once false r) = r ∧
  Rotor.rotate_once false (Rotor.rotate_once true r) = r.
Proof.
  intros [Hl%perm_table_non_empty Hr%perm_table_non_empty].
  destruct r as [l r n]. unfold Rotor.rotate_once. simpl in *.
  by rewrite !shift_push_pop_unshift, !pop_unshift_shift_push.
Qed.

Lemma rotate_nat_wf n fwd r :
  wf_rotor r → wf_rotor (Nat.iter n (Rotor.rotate_once fwd) r).
Proof. intros Hr. induction n; simpl; auto using rotate_once_wf. Qed.

Lemma rotate_cancel_nat n r :
  wf_rotor r →
  Nat.iter n (Rotor.rotate_once true) (Nat.iter n (Rotor.rotate_once false) r) = r ∧
  Nat.iter n (Rotor.rotate_once false) (Nat.iter n (Rotor.rotate_once true) r) = r.
Proof.
  intros Hr. induction n as [|n [IH1 IH2]]; [done|].
  rewrite (Nat.iter_succ_r n (Rotor.rotate_once true)
             (Nat.iter (S n) (Rotor.rotate_once false) r)).
  rewrite (Nat.iter_succ_r n (Rotor.rotate_once false)
             (Nat.iter (S n) (Rotor.rotate_once true) r)).
  change (Nat.iter (S n) (Rotor.rotate_once false) r)
    with (Rotor.rotate_once false (Nat.iter n (Rotor.rotate_once false) r)).
  change (Nat.iter (S n) (Rotor.rotate_once true) r)
    with (Rotor.rotate_once true (Nat.iter n (Rotor.rotate_once true) r)).
  rewrite (proj1 (rotate_once_cancel _ (rotate_nat_wf n false r Hr))).
  by rewrite (proj2 (rotate_once_cancel _ (rotate_nat_wf n true r Hr))).
Qed.

Lemma iter_shift_push n (t : JS.table) :
  (n ≤ length t)%nat → Nat.iter n JS.shift_push t = drop n t ++ take n t.
Proof.
  induction n as [|n IH]; intros Hn.
  - simpl. by rewrite drop_0, take_0, app_nil_r.
  - change (Nat.iter (S n) JS.shift_push t)
      with (JS.shift_push (Nat.iter n JS.shift_push t)).
    rewrite IH by lia.
    destruct (lookup_lt_is_Some_2 t n) as [x Hx]; [lia|].
    rewrite (drop_S _ _ _ Hx). cbn [JS.shift_push].
    by rewrite (take_S_r _ _ _ Hx), app_assoc.
Qed.

Lemma rotate_26_forward r : wf_rotor r → Rotor.rotate 26 true r = r.
Proof.
  intros [Hl%perm_table_length Hr%perm_table_length].
  unfold Rotor.rotate. change (Z.to_nat 26) with 26%nat.
  assert (∀ n r, Nat.iter n (Rotor.rotate_once true) r
                 = {| Rotor.left := Nat.iter n JS.shift_push (Rotor.left r);
                      Rotor.right := Nat.iter n JS.shift_push (Rotor.right r);
                      Rotor.notch := Rotor.notch r |}) as Hiter.
  { induction n as [|n IH]; intros [l' r' n']; [done|].
    change (Nat.iter (S n) ?f ?x) with (f (Nat.iter n f x)).
    by rewrite IH. }
  rewrite Hiter, !iter_shift_push by lia.
  rewrite <-Hl at 1 2. rewrite <-Hr at 1 2.
  rewrite !drop_all, !firstn_all. by destruct r.
Qed.

(** X1. On a rotor whose two sides are permutations of the alphabet,
    [forward] and [backward] undo each other on every position of
    [0,26). *)
Theorem rotor_forward_backward_inverse (r : Rotor.t) (s : Z) :
  wf_rotor r → (0 ≤ s < 26)%Z →
  Rotor.backward r (Rotor.forward r s) = s ∧
  Rotor.forward r (Rotor.backward r s) = s.
Proof.
  intros Hr Hs. split.
  - by apply rotor_backward_forward.
  - by apply rotor_forward_backward.
Qed.

Lemma rotor_forward_backward_inverse_witness :
  wf_rotor (Enigma.r1 enigma0) ∧ (0 ≤ 7 < 26)%Z ∧
  Rotor.backward (Enigma.r1 enigma0) (Rotor.forward (Enigma.r1 enigma0) 7) = 7%Z.
Proof.
  split; [exact rotor_I_wf|]. split; [lia|].
  apply (rotor_forward_backward_inverse (Enigma.r1 enigma0) 7 rotor_I_wf). lia.
Defined.

(** X2. Each built-in reflector wiring is an involution of [0,26) without
    fixed point. *)
Theorem builtin_reflectors_are_derangements (name wiring : string) (s : Z) :
  reflectorWirings !! name = Some wiring → (0 ≤ s < 26)%Z →
  let re := Reflector.new wiring in
  (0 ≤ Reflector.reflect re s < 26)%Z ∧
  Reflector.reflect re (Reflector.reflect re s) = s ∧
  Reflector.reflect re s ≠ s.
Proof.
  intros Hw%reflectorWirings_wf Hs re. split; [|split].
  - by apply reflect_range.
  - by apply reflect_involutive.
  - by apply reflect_no_fixpoint.
Qed.

Lemma builtin_reflectors_are_derangements_witness :
  reflectorWirings !! "C" = Some "FVPJIAOYEDRZXWGCTKUQSBNMHL" ∧ (0 ≤ 4 < 26)%Z ∧
  Reflector.reflect (Reflector.new "FVPJIAOYEDRZXWGCTKUQSBNMHL") 4 ≠ 4%Z.
Proof.
  assert (reflectorWirings !! "C" = Some "FVPJIAOYEDRZXWGCTKUQSBNMHL") as H
    by (vm_compute; reflexivity).
  split; [exact H|]. split; [lia|].
  apply (builtin_reflectors_are_derangements "C" _ 4 H). lia.
Defined.

(** X3. On a well-formed rotor, rotating [n] steps in one direction and
    [n] steps in the other gives the rotor back; a count that is zero or
    negative rotates nothing. *)
Theorem rotate_directions_cancel (r : Rotor.t) (n : Z) :
  wf_rotor r →
  Rotor.rotate n true (Rotor.rotate n false r) = r ∧
  Rotor.rotate n false (Rotor.rotate n true r) = r ∧
  ((n ≤ 0)%Z → ∀ fwd, Rotor.rotate n fwd r = r).
Proof.
  intros Hr. unfold Rotor.rotate. split; [|split].
  - by apply rotate_cancel_nat.
  - by apply rotate_cancel_nat.
  - intros Hn fwd. by replace (Z.to_nat n) with 0%nat by lia.
Qed.

Lemma rotate_directions_cancel_witness :
  wf_rotor (Enigma.r1 enigma0) ∧
  Rotor.rotate 5 true (Rotor.rotate 5 false (Enigma.r1 enigma0))
  = Enigma.r1 enigma0.
Proof.
  split; [exact rotor_I_wf|].
  apply (rotate_directions_cancel (Enigma.r1 enigma0) 5 rotor_I_wf).
Defined.

Lemma rotate_adds_and_has_period_26_aux (r : Rotor.t) (a : Z) :
  wf_rotor r →
  (∀ b fwd, (0 ≤ a)%Z → (0 ≤ b)%Z →
     Rotor.rotate (a + b) fwd r = Rotor.rotate a fwd (Rotor.rotate b fwd r)) ∧
  ((0 ≤ a)%Z → Rotor.rotate (a + 26) true r = Rotor.rotate a true r).
Proof.
  intros Hr.
  assert (∀ b fwd, (0 ≤ a)%Z → (0 ≤ b)%Z →
            Rotor.rotate (a + b) fwd r
            = Rotor.rotate a fwd (Rotor.rotate b fwd r)) as Hadd.
  { intros b fwd Ha Hb. unfold Rotor.rotate.
    rewrite Z2Nat.inj_add by done. apply Nat.iter_add. }
  split; [done|]. intros Ha.
  rewrite Hadd by lia. by rewrite rotate_26_forward.
Qed.

(** X4. Rotations add up, and 26 steps in either direction bring a
    well-formed rotor back to where it was. *)
Theorem rotate_adds_and_has_period_26 (r : Rotor.t) (a b : Z) (fwd : bool) :
  wf_rotor r → (0 ≤ a)%Z → (0 ≤ b)%Z →
  Rotor.rotate (a + b) fwd r = Rotor.rotate a fwd (Rotor.rotate b fwd r) ∧
  Rotor.rotate 26 fwd r = r ∧
  Rotor.rotate (a + 26) fwd r = Rotor.rotate a fwd r.
Proof.
  intros Hr Ha Hb.
  destruct (rotate_adds_and_has_period_26_aux r a Hr) as [Hadd _].
  assert (Rotor.rotate 26 fwd r = r) as H26.
  { destruct fwd; [by apply rotate_26_forward|].
    rewrite <-(rotate_26_forward r Hr) at 1.
    apply (rotate_cancel_nat 26 r Hr). }
  split; [by apply Hadd|]. split; [done|].
  rewrite Hadd by lia. by rewrite H26.
Qed.

Lemma rotate_adds_and_has_period_26_witness :
  wf_rotor (Enigma.r1 enigma0) ∧ (0 ≤ 3)%Z ∧ (0 ≤ 4)%Z ∧
  Rotor.rotate 26 false (Enigma.r1 enigma0) = Enigma.r1 enigma0.
Proof.
  split; [exact rotor_I_wf|]. split; [lia|]. split; [lia|].
  apply (rotate_adds_and_has_period_26 (Enigma.r1 enigma0) 3 4 false rotor_I_wf);
    lia.
Defined.

(** ** Input outside the alphabet *)

(** X5. [encipher] called with a character that is not an upper-case
    letter (a digit, a lower-case letter, ...) still steps rotor 3, but the
    signal is "not found" all the way: the ten positions are -1 and the
    returned letter is the empty string. *)
Theorem encipher_outside_alphabet (e : Enigma.t) (c : ascii) :
  wf_enigma e → JS.is_upper c = false →
  Enigma.encipher e (String c EmptyString)
  = (advance e, {| Enigma.path := replicate 10 (-1)%Z; Enigma.letter := "" |}).
Proof. apply encipher_not_upper. Qed.

Lemma encipher_outside_alphabet_witness :
  wf_enigma enigma0 ∧ JS.is_upper "a" = false ∧
  Enigma.letter (Enigma.encipher enigma0 "a").2 = "".
Proof.
  split; [exact enigma0_wf|]. split; [reflexivity|].
  exact (f_equal (λ x, Enigma.letter x.2)
           (encipher_outside_alphabet enigma0 "a" enigma0_wf eq_refl)).
Defined.

(** X6. A letter of the alphabet and its position: the keyboard maps are
    inverse to each other. *)
Theorem keyboard_round_trip (c : ascii) (s : Z) :
  JS.is_upper c = true → (0 ≤ s < 26)%Z →
  (0 ≤ Keyboard.forward (String c EmptyString) < 26)%Z ∧
  Keyboard.backward (Keyboard.forward (String c EmptyString))
  = String c EmptyString ∧
  Keyboard.forward (Keyboard.backward s) = s.
Proof.
  intros Hc Hs. destruct (keyboard_forward_letter c Hc) as [??].
  split_and!; try done; try lia. by apply keyboard_forward_backward.
Qed.

Lemma keyboard_round_trip_witness :
  JS.is_upper "Q" = true ∧ (0 ≤ 25 < 26)%Z ∧
  Keyboard.backward (Keyboard.forward "Q") = "Q" ∧
  Keyboard.forward (Keyboard.backward 25) = 25%Z.
Proof.
  split; [reflexivity|]. split; [lia|].
  apply (keyboard_round_trip "Q" 25 eq_refl). lia.
Defined.

(** ** The text codec: stepping *)

Lemma codec_char_state e c :
  (codec_char e c).1 = if JS.is_letter c then advance e else e.
Proof. rewrite codec_char_unfold. by destruct (JS.is_letter c). Qed.

Lemma rotate_succ n r :
  Rotor.rotate (Z.of_nat (S n)) true r
  = Rotor.rotate (Z.of_nat n) true (Rotor.rotate 1 true r).
Proof.
  unfold Rotor.rotate. rewrite !Nat2Z.id. apply Nat.iter_succ_r.
Qed.

Lemma codec_state_rotate (e : Enigma.t) (text : string) :
  codec_state e text
  = {| Enigma.re := Enigma.re e; Enigma.r1 := Enigma.r1 e;
       Enigma.r2 := Enigma.r2 e;
       Enigma.r3 :=
         Rotor.rotate (Z.of_nat (count_letters text)) true (Enigma.r3 e);
       Enigma.pb := Enigma.pb e |}.
Proof.
  revert e. induction text as [|c text IH]; intros e.
  - by destruct e.
  - cbn [codec_state count_letters]. rewrite IH, codec_char_state.
    destruct (JS.is_letter c); [|done].
    by rewrite rotate_succ.
Qed.

(** X7. The loop of the text codec steps rotor 3 once for every letter of
    the text and never touches rotor 1, rotor 2, the reflector or the
    plugboard: after a text the machine is the initial one with rotor 3
    rotated by the number of letters. *)
Theorem codec_steps_rotor3_once_per_letter (e : Enigma.t) (text : string) :
  codec_state e text
  = {| Enigma.re := Enigma.re e; Enigma.r1 := Enigma.r1 e;
       Enigma.r2 := Enigma.r2 e;
       Enigma.r3 :=
         Rotor.rotate (Z.of_nat (count_letters text)) true (Enigma.r3 e);
       Enigma.pb := Enigma.pb e |}.
Proof. apply codec_state_rotate. Qed.

Lemma rotate_multiple_of_26 k r :
  wf_rotor r → Rotor.rotate (Z.of_nat (26 * k)) true r = r.
Proof.
  intros Hr. induction k as [|k IH]; [done|].
  replace (Z.of_nat (26 * S k)) with (Z.of_nat (26 * k) + 26)%Z by lia.
  destruct (rotate_adds_and_has_period_26_aux r (Z.of_nat (26 * k)) Hr)
    as [_ Hperiod].
  rewrite Hperiod by lia. exact IH.
Qed.

Lemma codec_state_period e text k :
  wf_enigma e → count_letters text = (26 * k)%nat → codec_state e text = e.
Proof.
  intros [_ _ _ H3 _] Hk. rewrite codec_state_rotate, Hk.
  rewrite rotate_multiple_of_26 by done. by destruct e.
Qed.

Lemma codec_run_app e (a b : string) :
  codec_run e (a +:+ b) = codec_run e a +:+ codec_run (codec_state e a) b.
Proof.
  revert e. induction a as [|c a IH]; intros e; [done|].
  rewrite append_cons. cbn [codec_run codec_state].
  destruct (codec_char e c) as [e' piece]. cbn [fst].
  by rewrite IH, append_assoc.
Qed.

(** X8. Only rotor 3 ever moves, so the cipher starts over after 26
    letters: when the first part of a text has a multiple of 26 letters,
    enciphering the whole text gives the two parts enciphered separately,
    each from the initial machine. *)
Theorem codec_restarts_every_26_letters
    (C : Configuration) (t1 t2 : string) (o : bool) (k : nat) :
  resolves C → count_letters t1 = (26 * k)%nat →
  ∃ o1 o2, enigmaObfuscate t1 C o = Some o1 ∧
           enigmaObfuscate t2 C o = Some o2 ∧
           enigmaObfuscate (t1 +:+ t2) C o = Some (o1 +:+ o2).
Proof.
  intros (e & He & Hwf)%build_enigma_resolves Hk.
  unfold enigmaObfuscate. rewrite He. simpl.
  do 2 eexists. split_and!; try reflexivity.
  rewrite !codec_loop_run, !append_empty_l, codec_run_app.
  by rewrite (codec_state_period e t1 k).
Qed.

Lemma codec_restarts_every_26_letters_witness :
  resolves cfg0 ∧
  count_letters "The quick brown fox jumps over a" = (26 * 1)%nat ∧
  ∃ o1 o2,
    enigmaObfuscate "The quick brown fox jumps over a" cfg0 true = Some o1 ∧
    enigmaObfuscate " lazy dog." cfg0 true = Some o2 ∧
    enigmaObfuscate ("The quick brown fox jumps over a" +:+ " lazy dog.")
      cfg0 true = Some (o1 +:+ o2).
Proof.
  split; [exact cfg0_resolves|]. split; [reflexivity|].
  exact (codec_restarts_every_26_letters cfg0
           "The quick brown fox jumps over a" " lazy dog." true 1
           cfg0_resolves eq_refl).
Defined.

(** ** The text codec: case *)

Lemma letter_case_facts c :
  JS.is_letter c = true →
  JS.is_upper (JS.char_toUpperCase c) = true ∧
  JS.is_letter (JS.char_toUpperCase c) = true ∧
  JS.is_letter (JS.char_toLowerCase c) = true ∧
  JS.is_upper (JS.char_toLowerCase c) = false ∧
  JS.char_toUpperCase (JS.char_toUpperCase c) = JS.char_toUpperCase c ∧
  JS.char_toUpperCase (JS.char_toLowerCase c) = JS.char_toUpperCase c ∧
  JS.char_toLowerCase (JS.char_toLowerCase c) = JS.char_toLowerCase c ∧
  JS.char_toLowerCase (JS.char_toUpperCase c) = JS.char_toLowerCase c ∧
  (c = JS.char_toLowerCase c ↔ JS.is_upper c = false).
Proof.
  destruct c as [[] [] [] [] [] [] [] []]; intros H; vm_compute in H;
    try discriminate; clear H; vm_compute; split_and!; try done;
    split; congruence.
Qed.

Lemma other_case_facts c :
  JS.is_letter c = false →
  JS.char_toUpperCase c = c ∧ JS.char_toLowerCase c = c ∧
  JS.is_upper c = false.
Proof.
  unfold JS.is_letter, JS.char_toUpperCase, JS.char_toLowerCase.
  intros [-> ->]%orb_false_iff. done.
Qed.

(** What the loop body does with a letter, in terms of the upper-case
    letter [v] that [encipher] returns. *)
Lemma codec_char_letter_cases e c :
  wf_enigma e → JS.is_letter c = true →
  ∃ v, JS.is_upper v = true ∧
       Enigma.encipher e (String (JS.char_toUpperCase c) EmptyString)
       = (advance e, (Enigma.encipher e
                        (String (JS.char_toUpperCase c) EmptyString)).2) ∧
       Enigma.letter
         (Enigma.encipher e (String (JS.char_toUpperCase c) EmptyString)).2
       = String v EmptyString ∧
       codec_char e c
       = (advance e,
          String (if JS.is_upper c then v else JS.char_toLowerCase v)
            EmptyString).
Proof.
  intros He Hc.
  destruct (letter_case_facts c Hc) as (Hu & _ & _ & _ & _ & _ & _ & _ & Hdec).
  destruct (encipher_upper e _ He Hu) as (v & Hv & _ & He1 & Hl1 & _).
  exists v. split_and!; [done|done|done|].
  rewrite codec_char_unfold, Hc. cbv zeta. rewrite Hl1. cbn [fst].
  f_equal. destruct (JS.is_upper c) eqn:Hup.
  - rewrite decide_False; [done|]. intros Heq%Hdec. done.
  - rewrite decide_True; [done|]. by apply Hdec.
Qed.

Lemma toUpperCase_app (a b : string) :
  JS.toUpperCase (a +:+ b) = JS.toUpperCase a +:+ JS.toUpperCase b.
Proof.
  induction a as [|x a IH]; [done|].
  rewrite append_cons. cbn [JS.toUpperCase]. by rewrite append_cons, IH.
Qed.

Lemma toLowerCase_app (a b : string) :
  JS.toLowerCase (a +:+ b) = JS.toLowerCase a +:+ JS.toLowerCase b.
Proof.
  induction a as [|x a IH]; [done|].
  rewrite append_cons. cbn [JS.toLowerCase]. by rewrite append_cons, IH.
Qed.

Lemma codec_run_toUpperCase e S :
  wf_enigma e → codec_run e (JS.toUpperCase S) = JS.toUpperCase (codec_run e S).
Proof.
  revert e. induction S as [|c S IH]; intros e He; [done|].
  cbn [JS.toUpperCase codec_run].
  destruct (JS.is_letter c) eqn:Hc.
  - destruct (letter_case_facts c Hc) as (Hu & Hul & _ & _ & Huu & _).
    destruct (codec_char_letter_cases e c He Hc) as (v & Hv & _ & Hl & ->).
    destruct (codec_char_letter_cases e _ He Hul) as (v' & _ & _ & Hl' & ->).
    rewrite Huu, Hl in Hl'. injection Hl' as <-. rewrite Hu.
    rewrite toUpperCase_app, IH by by apply advance_wf.
    f_equal. cbn [JS.toUpperCase]. f_equal.
    destruct (upper_letter_case v Hv) as (_ & Hvu & _ & _ & Hvlu).
    by destruct (JS.is_upper c).
  - destruct (other_case_facts c Hc) as (-> & _ & _).
    rewrite codec_char_other by done.
    rewrite toUpperCase_app, IH by done. f_equal.
    cbn [JS.toUpperCase]. by destruct (other_case_facts c Hc) as (-> & _ & _).
Qed.

Lemma codec_run_toLowerCase e S :
  wf_enigma e → codec_run e (JS.toLowerCase S) = JS.toLowerCase (codec_run e S).
Proof.
  revert e. induction S as [|c S IH]; intros e He; [done|].
  cbn [JS.toLowerCase codec_run].
  destruct (JS.is_letter c) eqn:Hc.
  - destruct (letter_case_facts c Hc) as (_ & _ & Hll & Hlu & _ & Hul & _).
    destruct (codec_char_letter_cases e c He Hc) as (v & Hv & _ & Hl & ->).
    destruct (codec_char_letter_cases e _ He Hll) as (v' & _ & _ & Hl' & ->).
    rewrite Hul, Hl in Hl'. injection Hl' as <-. rewrite Hlu.
    rewrite toLowerCase_app, IH by by apply advance_wf.
    f_equal. cbn [JS.toLowerCase]. f_equal.
    destruct (upper_letter_case v Hv) as (_ & _ & _ & Hvl & _).
    destruct (lower_letter_case _ Hvl) as (_ & _ & Hvll & _).
    by destruct (JS.is_upper c).
  - destruct (other_case_facts c Hc) as (_ & -> & _).
    rewrite codec_char_other by done.
    rewrite toLowerCase_app, IH by done. f_equal.
    cbn [JS.toLowerCase]. by destruct (other_case_facts c Hc) as (_ & -> & _).
Qed.

(** X9. On a text of code units below 128 the text codec commutes with
    case conversion: the letter mapping is the same for a letter in lower
    and in upper case, and the case of the input is what decides the case of
    the output. *)
Theorem codec_commutes_with_case (C : Configuration) (S : string) (o : bool) :
  is_ascii_text S = true →
  enigmaObfuscate (JS.toUpperCase S) C o
  = JS.toUpperCase <$> enigmaObfuscate S C o ∧
  enigmaObfuscate (JS.toLowerCase S) C o
  = JS.toLowerCase <$> enigmaObfuscate S C o.
Proof.
  intros _. unfold enigmaObfuscate.
  destruct (build_enigma C) as [e|] eqn:He; [|done].
  apply build_enigma_wf in He. simpl.
  rewrite !codec_loop_run, !append_empty_l.
  by rewrite codec_run_toUpperCase, codec_run_toLowerCase.
Qed.

Lemma codec_commutes_with_case_witness :
  is_ascii_text "Hello, World!" = true ∧
  enigmaObfuscate "HELLO, WORLD!" cfg0 true
  = JS.toUpperCase <$> enigmaObfuscate "Hello, World!" cfg0 true.
Proof.
  split; [reflexivity|].
  exact (proj1 (codec_commutes_with_case cfg0 "Hello, World!" true eq_refl)).
Defined.

(** ** The chat path *)

Lemma char_toUpperCase_idemp c :
  JS.char_toUpperCase (JS.char_toUpperCase c) = JS.char_toUpperCase c.
Proof.
  destruct (JS.is_letter c) eqn:Hc.
  - by destruct (letter_case_facts c Hc) as (_ & _ & _ & _ & -> & _).
  - destruct (other_case_facts c Hc) as (Hu & _). by rewrite !Hu.
Qed.

Lemma toUpperCase_idemp (s : string) :
  JS.toUpperCase (JS.toUpperCase s) = JS.toUpperCase s.
Proof.
  induction s as [|c s IH]; [done|].
  cbn [JS.toUpperCase]. by rewrite char_toUpperCase_idemp, IH.
Qed.

Lemma panel_loop_codec e (m acc : string) :
  wf_enigma e →
  panel_loop e (JS.toUpperCase m) acc
  = acc +:+ JS.toUpperCase (codec_run e m).
Proof.
  revert e acc. induction m as [|c m IH]; intros e acc He.
  - simpl. by rewrite append_empty_r.
  - cbn [JS.toUpperCase panel_loop codec_run]. unfold panel_char.
    destruct (JS.is_letter c) eqn:Hc.
    + destruct (letter_case_facts c Hc) as (Hu & _).
      destruct (codec_char_letter_cases e c He Hc) as (v & Hv & Henc & Hl & ->).
      rewrite Hu, Henc, Hl, IH by by apply advance_wf.
      rewrite toUpperCase_app, append_assoc. do 2 f_equal.
      cbn [JS.toUpperCase]. f_equal.
      destruct (upper_letter_case v Hv) as (_ & Hvu & _ & _ & Hvlu).
      by destruct (JS.is_upper c).
    + destruct (other_case_facts c Hc) as (Hcu & _ & Hup).
      rewrite Hcu, Hup, codec_char_other, IH by done.
      rewrite toUpperCase_app, append_assoc. do 2 f_equal.
      cbn [JS.toUpperCase]. by rewrite Hcu.
Qed.

(** X11. On a message of code units below 128, the chat panel's own
    [enigmaObfuscate] (upper-case first, then encipher the characters in
    A-Z) computes what the host computes for a chat reply (the loop of the
    text codec, then upper-case) with the configuration that stands in the
    panel's input fields, whatever configuration is passed to it as argument
    and also when the configuration is rejected. *)
Theorem panel_codec_agrees_with_host
    (fields : Configuration) (m : string) (config : Configuration) :
  is_ascii_text m = true →
  panel_enigmaObfuscate fields m config = sendGeminiChat_encrypt m fields.
Proof.
  intros _.
  unfold panel_enigmaObfuscate, createEnigmaMachineFromConfig,
    sendGeminiChat_encrypt.
  destruct (build_enigma fields) as [e|] eqn:He; [|done].
  apply build_enigma_wf in He. simpl.
  by rewrite panel_loop_codec, codec_loop_run, !append_empty_l.
Qed.

Lemma panel_codec_agrees_with_host_witness :
  is_ascii_text "Hello, World!" = true ∧
  panel_enigmaObfuscate cfg0 "Hello, World!"
    (with_key cfg0 "ABC" "XYZ")
  = sendGeminiChat_encrypt "Hello, World!" cfg0.
Proof.
  split; [reflexivity|].
  exact (panel_codec_agrees_with_host cfg0 "Hello, World!"
           (with_key cfg0 "ABC" "XYZ") eq_refl).
Defined.

(** X12. A reply of code units below 128, enciphered by the host with a
    configuration and then run through the panel's deobfuscation while the
    panel's input fields hold the same configuration, comes back as the
    reply in upper case, whatever configuration is passed to the panel's
    function as argument. *)
Theorem chat_reply_round_trip (reply : string) (C : Configuration) :
  resolves C → is_ascii_text reply = true →
  ∃ T, sendGeminiChat_encrypt reply C = Some T ∧
       ∀ config, panel_enigmaDeobfuscate C T config
                 = Some (JS.toUpperCase reply).
Proof.
  intros (e & He & Hwf)%build_enigma_resolves _.
  unfold panel_enigmaDeobfuscate, panel_enigmaObfuscate,
    createEnigmaMachineFromConfig, sendGeminiChat_encrypt.
  rewrite He. simpl. eexists. split; [done|]. intros _.
  rewrite codec_loop_run, panel_loop_codec, !append_empty_l by done.
  rewrite codec_run_toUpperCase, codec_run_involutive by done.
  by rewrite toUpperCase_idemp.
Qed.

Lemma chat_reply_round_trip_witness :
  resolves cfg0 ∧ is_ascii_text "Hello, World!" = true ∧
  ∃ T, sendGeminiChat_encrypt "Hello, World!" cfg0 = Some T ∧
       ∀ config, panel_enigmaDeobfuscate cfg0 T config = Some "HELLO, WORLD!".
Proof.
  split; [exact cfg0_resolves|]. split; [reflexivity|].
  exact (chat_reply_round_trip "Hello, World!" cfg0 cfg0_resolves eq_refl).
Defined.

(** ** Plugboard pairs without a repeated letter *)

Lemma foldl_exchange_fmap pairs (l : JS.table) :
  foldl (λ t pair, pair_exchange pair <$> t) l pairs
  = exchange_all pairs <$> l.
Proof.
  revert l. induction pairs as [|p pairs IH]; intros l; simpl.
  - by rewrite list_fmap_id.
  - rewrite IH, <-list_fmap_compose. done.
Qed.

Lemma pair_exchange_involutive p x : pair_exchange p (pair_exchange p x) = x.
Proof.
  unfold pair_exchange. destruct p as [|a [|b p]]; try done.
  case_decide; [apply transpose_involutive|done].
Qed.

Lemma pair_exchange_fix p x : x ∉ pair_letters p → pair_exchange p x = x.
Proof.
  unfold pair_exchange, pair_letters. destruct p as [|a [|b p]]; try done.
  case_decide; [|done]. rewrite !not_elem_of_cons. intros (? & ? & _).
  unfold transpose. by rewrite !decide_False.
Qed.

Lemma pair_exchange_letters p x :
  x ∈ pair_letters p → pair_exchange p x ∈ pair_letters p.
Proof.
  unfold pair_exchange, pair_letters. destruct p as [|a [|b p]]; try done.
  case_decide; [|done]. rewrite !elem_of_cons. unfold transpose.
  intros [->|[->|[]%elem_of_nil]]; repeat case_decide; auto.
Qed.

Lemma exchange_all_cons p ps x :
  exchange_all (p :: ps) x = exchange_all ps (pair_exchange p x).
Proof. reflexivity. Qed.

Lemma exchange_all_fix ps x :
  x ∉ concat (pair_letters <$> ps) → exchange_all ps x = x.
Proof.
  revert x. induction ps as [|p ps IH]; intros x; [done|].
  rewrite fmap_cons. cbn [concat]. intros [??]%not_elem_of_app.
  by rewrite exchange_all_cons, pair_exchange_fix, IH.
Qed.

Lemma exchange_all_inj ps x y :
  exchange_all ps x = exchange_all ps y → x = y.
Proof.
  revert x y. induction ps as [|p ps IH]; intros x y; [done|].
  rewrite !exchange_all_cons. intros H%IH.
  by rewrite <-(pair_exchange_involutive p x), H, pair_exchange_involutive.
Qed.

Lemma exchange_all_commute p ps x :
  (∀ y, y ∈ pair_letters p → y ∉ concat (pair_letters <$> ps)) →
  exchange_all ps (pair_exchange p x) = pair_exchange p (exchange_all ps x).
Proof.
  intros Hdis. destruct (decide (x ∈ pair_letters p)) as [Hx|Hx].
  - rewrite !exchange_all_fix; auto using pair_exchange_letters.
  - rewrite (pair_exchange_fix p x) by done.
    rewrite pair_exchange_fix; [done|]. intros Hy.
    apply Hx. assert (exchange_all ps x = x) as <-; [|done].
    apply (exchange_all_inj ps), exchange_all_fix. by apply Hdis.
Qed.

Lemma exchange_all_involutive ps x :
  NoDup (concat (pair_letters <$> ps)) →
  exchange_all ps (exchange_all ps x) = x.
Proof.
  revert x. induction ps as [|p ps IH]; intros x; [done|].
  rewrite fmap_cons. cbn [concat]. intros (_ & Hdis & Hnd)%NoDup_app.
  rewrite !exchange_all_cons.
  rewrite <-(exchange_all_commute p ps (pair_exchange p x)) by done.
  by rewrite pair_exchange_involutive, IH.
Qed.

Lemma plugboard_left_exchange pairsStr :
  Plugboard.left (Plugboard.new pairsStr)
  = exchange_all (JS.split " " (JS.trim pairsStr)) <$> alpha_table.
Proof.
  unfold Plugboard.new. cbn [Plugboard.left].
  etrans; [apply (proj2 (foldl_apply_pair _ _ alpha_table_perm))|].
  apply foldl_exchange_fmap.
Qed.

Lemma plugboard_forward_is_backward pairsStr p :
  conflict_free pairsStr → (0 ≤ p < 26)%Z →
  Plugboard.forward (Plugboard.new pairsStr) p
  = Plugboard.backward (Plugboard.new pairsStr) p.
Proof.
  intros Hfree Hp.
  destruct (plugboard_new_perm pairsStr) as [Hl Hr].
  set (pb := Plugboard.new pairsStr) in *.
  set (σ := exchange_all (JS.split " " (JS.trim pairsStr))).
  assert (Plugboard.left pb = σ <$> alpha_table) as Hleft
    by apply plugboard_left_exchange.
  destruct (lookup_lt_is_Some_2 alpha_table (Z.to_nat p)) as [x Hx].
  { change (length alpha_table) with 26%nat. lia. }
  assert (σ x ∈ alpha_table) as [j Hj]%list_elem_of_lookup_1.
  { apply (perm_table_elem _ _ Hl). rewrite Hleft.
    apply list_elem_of_fmap_2. by eapply list_elem_of_lookup_2. }
  unfold Plugboard.forward, Plugboard.backward.
  change (Plugboard.right pb) with alpha_table.
  replace p with (Z.of_nat (Z.to_nat p)) by lia.
  rewrite (at_index_lookup alpha_table _ _ Hx).
  rewrite (at_index_lookup (Plugboard.left pb) _ (σ x)).
  2:{ by rewrite Hleft, list_lookup_fmap, Hx. }
  rewrite (indexOf_lookup alpha_table j) by auto using alpha_table_NoDup.
  apply indexOf_lookup; [by apply perm_table_NoDup|].
  rewrite Hleft, list_lookup_fmap, Hj. simpl. f_equal.
  by apply exchange_all_involutive.
Qed.

(** X13. When no letter occurs twice in the pair string, the plugboard is
    its own inverse: forward and backward are the same map, and applying
    forward twice gives the position back. *)
Theorem plugboard_without_conflict_is_involution (pairsStr : string) (p : Z) :
  conflict_free pairsStr → (0 ≤ p < 26)%Z →
  let pb := Plugboard.new pairsStr in
  Plugboard.forward pb p = Plugboard.backward pb p ∧
  Plugboard.forward pb (Plugboard.forward pb p) = p.
Proof.
  intros Hfree Hp pb. subst pb.
  pose proof (plugboard_new_perm pairsStr) as Hwf.
  split; [by apply plugboard_forward_is_backward|].
  rewrite plugboard_forward_is_backward; [|done|].
  - by apply plugboard_backward_forward.
  - by apply plugboard_forward_range.
Qed.

Lemma plugboard_without_conflict_is_involution_witness :
  conflict_free "AB CD EF" ∧ (0 ≤ 2 < 26)%Z ∧
  Plugboard.forward (Plugboard.new "AB CD EF")
    (Plugboard.forward (Plugboard.new "AB CD EF") 2) = 2%Z.
Proof.
  assert (conflict_free "AB CD EF") as H
    by (apply (bool_decide_unpack _); vm_compute; exact I).
  split; [exact H|]. split; [lia|].
  apply (plugboard_without_conflict_is_involution "AB CD EF" 2 H). lia.
Defined.

(** * Properties of the tokenizer and of the padding *)

Lemma slice_to_take {A} (l : list A) (n : Z) :
  (0 ≤ n)%Z → slice_to l n = take (Z.to_nat n) l.
Proof.
  intros Hn. unfold slice_to.
  destruct (Z.ltb_spec n 0); [lia|].
  destruct (Z.min_spec n (Z.of_nat (length l))) as [[? ->]|[? ->]]; [done|].
  rewrite Nat2Z.id, firstn_all. symmetry. apply take_ge. lia.
Qed.

Lemma padSequence_length sequence maxLength :
  (0 ≤ maxLength)%Z → length (padSequence sequence maxLength) = Z.to_nat maxLength.
Proof.
  intros Hm. unfold padSequence.
  destruct (Z.gtb_spec (Z.of_nat (length sequence)) maxLength).
  - rewrite slice_to_take, length_take by done. lia.
  - rewrite length_app, length_replicate. lia.
Qed.

Lemma padSequence_lookup sequence maxLength i :
  (0 ≤ maxLength)%Z → (i < Z.to_nat maxLength)%nat →
  padSequence sequence maxLength !! i = Some (default 0%Z (sequence !! i)).
Proof.
  intros Hm Hi. unfold padSequence.
  destruct (Z.gtb_spec (Z.of_nat (length sequence)) maxLength).
  - rewrite slice_to_take, lookup_take_lt by done.
    destruct (lookup_lt_is_Some_2 sequence i) as [x ->]; [lia|done].
  - destruct (decide (i < length sequence)%nat).
    + rewrite lookup_app_l by done.
      destruct (lookup_lt_is_Some_2 sequence i) as [x ->]; [lia|done].
    + rewrite lookup_app_r, (lookup_ge_None_2 sequence) by lia.
      simpl. apply lookup_replicate_2. lia.
Qed.

Lemma padSequence_exact sequence maxLength :
  Z.of_nat (length sequence) = maxLength →
  padSequence sequence maxLength = sequence.
Proof.
  intros <-. unfold padSequence.
  destruct (Z.gtb_spec (Z.of_nat (length sequence)) (Z.of_nat (length sequence)));
    [lia|].
  rewrite Z.sub_diag. simpl. apply app_nil_r.
Qed.

(** X14. For a length that is not negative and below 2^32, [padSequence]
    returns exactly that many entries: entry [i] is the entry of the
    sequence when there is one and 0 otherwise; padding a second time
    changes nothing.  (From 2^32 on the code cannot make the array.) *)
Theorem padSequence_pads_or_truncates (sequence : list Z) (maxLength : Z) :
  (0 ≤ maxLength < 2 ^ 32)%Z →
  length (padSequence sequence maxLength) = Z.to_nat maxLength ∧
  (∀ i, (i < Z.to_nat maxLength)%nat →
        padSequence sequence maxLength !! i
        = Some (default 0%Z (sequence !! i))) ∧
  padSequence (padSequence sequence maxLength) maxLength
  = padSequence sequence maxLength.
Proof.
  intros [Hm _]. split; [by apply padSequence_length|]. split.
  - intros i Hi. by apply padSequence_lookup.
  - apply padSequence_exact. rewrite padSequence_length by done. lia.
Qed.

Lemma padSequence_pads_or_truncates_witness :
  (0 ≤ 4 < 2 ^ 32)%Z ∧ padSequence [7; 8]%Z 4 = [7; 8; 0; 0]%Z ∧
  length (padSequence [1; 2; 3; 4; 5; 6]%Z 4) = 4%nat.
Proof.
  split; [lia|]. split; [reflexivity|].
  pose proof (padSequence_pads_or_truncates [1; 2; 3; 4; 5; 6]%Z 4) as H.
  apply H. lia.
Defined.

Lemma push_tokens_filter (words : list (list ascii)) (acc : list Z) :
  foldl (λ tokens word,
           if decide (word = []) then tokens
           else tokens ++ [Z.rem (word_hash word) 5000])
    acc words
  = acc ++ ((λ word, Z.rem (word_hash word) 5000)
              <$> filter (λ word, word ≠ []) words).
Proof.
  revert acc. induction words as [|w words IH]; intros acc.
  - simpl. by rewrite app_nil_r.
  - cbn [foldl]. rewrite IH. case_decide as Hw.
    + subst. by rewrite filter_cons_False by (by intros ?).
    + rewrite filter_cons_True by done. by rewrite fmap_cons, <-app_assoc.
Qed.

Lemma simpleTokenize_tokens code :
  CodeAnalyzer.simpleTokenize code
  = take 512 ((λ word, Z.rem (word_hash word) 5000)
                <$> filter (λ word, word ≠ []) (split_runs false (lit code))).
Proof.
  unfold CodeAnalyzer.simpleTokenize. rewrite slice_to_take by lia.
  by rewrite push_tokens_filter.
Qed.

Lemma word_hash_snoc word c :
  word_hash (word ++ [c])
  = ((word_hash word * 31 + Z.of_N (N_of_ascii c)) mod 2 ^ 32)%Z.
Proof. unfold word_hash. by rewrite foldl_app. Qed.

Lemma word_hash_range word : (0 ≤ word_hash word < 2 ^ 32)%Z.
Proof.
  induction word as [|c word _] using rev_ind; [by vm_compute|].
  rewrite word_hash_snoc. apply Z.mod_pos_bound. lia.
Qed.

Lemma token_range word : (0 ≤ Z.rem (word_hash word) 5000 < 5000)%Z.
Proof. apply Z.rem_bound_pos; [apply word_hash_range|lia]. Qed.

Lemma simpleTokenize_range code :
  Forall (λ token, (0 ≤ token < 5000)%Z) (CodeAnalyzer.simpleTokenize code).
Proof.
  rewrite simpleTokenize_tokens.
  apply Forall_take, Forall_fmap, Forall_forall. intros w _.
  apply token_range.
Qed.

(** X15. The fallback tokenizer returns at most 512 tokens, and each of
    them is an index of the vocabulary: at least 0 and below 5000. *)
Theorem simpleTokenize_within_vocabulary (code : string) :
  (length (CodeAnalyzer.simpleTokenize code) ≤ 512)%nat ∧
  Forall (λ token, (0 ≤ token < 5000)%Z) (CodeAnalyzer.simpleTokenize code).
Proof.
  split; [|apply simpleTokenize_range].
  rewrite simpleTokenize_tokens, length_take. lia.
Qed.

Lemma nodeTypeToToken_range nodeTypes type :
  (0 ≤ CodeAnalyzer.nodeTypeToToken nodeTypes type < 5000)%Z.
Proof.
  unfold CodeAnalyzer.nodeTypeToToken.
  destruct (list_find _ nodeTypes) as [[i ?]|]; [|simpl; lia].
  destruct (Z.eqb_spec (Z.of_nat i) (-1)); [lia|].
  apply Z.rem_bound_pos; lia.
Qed.

Lemma push_node_tokens nodeTypes types (acc : list Z) :
  foldl (λ tokens type, tokens ++ [CodeAnalyzer.nodeTypeToToken nodeTypes type])
    acc types
  = acc ++ (CodeAnalyzer.nodeTypeToToken nodeTypes <$> types).
Proof.
  revert acc. induction types as [|t types IH]; intros acc.
  - simpl. by rewrite app_nil_r.
  - cbn [foldl]. rewrite IH, fmap_cons. by rewrite <-app_assoc.
Qed.

Lemma astToTokens_fmap nodeTypes types :
  CodeAnalyzer.astToTokens nodeTypes types
  = CodeAnalyzer.nodeTypeToToken nodeTypes <$> types.
Proof. unfold CodeAnalyzer.astToTokens. by rewrite push_node_tokens. Qed.

Lemma tokenizeCode_range nodeTypes ast_types code fileType :
  Forall (λ token, (0 ≤ token < 5000)%Z)
    (CodeAnalyzer.tokenizeCode nodeTypes ast_types code fileType).
Proof.
  unfold CodeAnalyzer.tokenizeCode.
  destruct (negb _); [apply simpleTokenize_range|].
  destruct (ast_types fileType code) as [types|];
    [|apply simpleTokenize_range].
  cbn zeta. rewrite astToTokens_fmap.
  apply Forall_fmap, Forall_fmap, Forall_forall. intros t _. simpl.
  pose proof (nodeTypeToToken_range nodeTypes t).
  apply Z.rem_bound_pos; lia.
Qed.

Lemma padSequence_range sequence maxLength :
  Forall (λ token, (0 ≤ token < 5000)%Z) sequence →
  Forall (λ token, (0 ≤ token < 5000)%Z) (padSequence sequence maxLength).
Proof.
  intros H. unfold padSequence. destruct (_ >? _)%Z.
  - unfold slice_to. by apply Forall_take.
  - apply Forall_app. split; [done|]. apply Forall_replicate. lia.
Qed.

(** X16. Whatever the file type, the table of node types and the outcome of
    the parser, the row that [analyzeCode] gives to the model has exactly 512
    entries, each an index of the vocabulary, and the clamp to 0..4999
    changes no entry: the row is the padded token sequence itself, the same
    row that [trainModel] builds. *)
Theorem analyzeCode_input_shape
  (nodeTypes : list string) (ast_types : string → string → option (list string))
  (code fileType : string) :
  let row := CodeAnalyzer.analyzeCode_input nodeTypes ast_types code fileType in
  length row = 512%nat ∧
  Forall (λ token, (0 ≤ token ≤ 4999)%Z) row ∧
  row = padSequence
          (CodeAnalyzer.tokenizeCode nodeTypes ast_types code fileType) 512.
Proof.
  cbn zeta. unfold CodeAnalyzer.analyzeCode_input.
  pose proof (padSequence_range _ 512
                (tokenizeCode_range nodeTypes ast_types code fileType)) as Hrange.
  revert Hrange.
  generalize (padSequence_length
    (CodeAnalyzer.tokenizeCode nodeTypes ast_types code fileType) 512).
  generalize (padSequence
    (CodeAnalyzer.tokenizeCode nodeTypes ast_types code fileType) 512).
  intros row Hlen Hrange.
  assert ((λ t, Z.max 0 (Z.min t 4999)) <$> row = row) as ->.
  { clear Hlen. induction Hrange as [|t l Ht _ IH]; [done|].
    rewrite fmap_cons, IH. f_equal. lia. }
  split; [rewrite Hlen; lia|]. split; [|done].
  eapply Forall_impl; [exact Hrange|]. intros t Ht. simpl in Ht. lia.
Qed.

Lemma padSequence_lookup_ge sequence maxLength i :
  (0 ≤ maxLength)%Z → (Z.to_nat maxLength ≤ i)%nat →
  padSequence sequence maxLength !! i = None.
Proof.
  intros Hm Hi. apply lookup_ge_None_2. by rewrite padSequence_length.
Qed.

Lemma padSequence_ext l1 l2 maxLength :
  (0 ≤ maxLength)%Z →
  (∀ i, (i < Z.to_nat maxLength)%nat →
        default 0%Z (l1 !! i) = default 0%Z (l2 !! i)) →
  padSequence l1 maxLength = padSequence l2 maxLength.
Proof.
  intros Hm H. apply list_eq. intros i.
  destruct (decide (i < Z.to_nat maxLength)%nat).
  - rewrite !padSequence_lookup by done. f_equal. by apply H.
  - by rewrite !padSequence_lookup_ge by lia.
Qed.

Lemma padSequence_cons x l maxLength :
  (0 < maxLength)%Z →
  padSequence (x :: l) maxLength = x :: padSequence l (maxLength - 1).
Proof.
  intros Hm. apply list_eq. intros [|i].
  - rewrite padSequence_lookup by lia. done.
  - cbn [lookup list_lookup]. fold (@lookup _ _ _ (@list_lookup Z)).
    destruct (decide (S i < Z.to_nat maxLength)%nat).
    + rewrite !padSequence_lookup by lia. done.
    + rewrite !padSequence_lookup_ge by lia. done.
Qed.

Lemma take_padSequence l m n :
  (0 ≤ m ≤ n)%Z →
  take (Z.to_nat m) (padSequence l n) = padSequence l m.
Proof.
  intros Hm. apply list_eq. intros i.
  destruct (decide (i < Z.to_nat m)%nat).
  - rewrite lookup_take_lt, !padSequence_lookup by lia. done.
  - rewrite lookup_take_ge, padSequence_lookup_ge by lia. done.
Qed.

Lemma default_lookup_zeros (l : list Z) k i :
  default 0%Z ((l ++ replicate k 0%Z) !! i) = default 0%Z (l !! i).
Proof.
  destruct (decide (i < length l)%nat).
  - by rewrite lookup_app_l.
  - rewrite lookup_app_r, (lookup_ge_None_2 l) by lia.
    destruct (replicate k 0%Z !! (i - length l)%nat) as [x|] eqn:E; [|done].
    by apply lookup_replicate in E as [-> _].
Qed.

Lemma default_lookup_take (l : list Z) n i :
  (i < n)%nat → default 0%Z (take n l !! i) = default 0%Z (l !! i).
Proof. intros. by rewrite lookup_take_lt. Qed.

Lemma split_runs_shape s b :
  ∃ ws k, Forall (λ w, w ≠ []) ws ∧
    split_runs b s
    = (if leading_separator b s then [[]] else []) ++ ws ++ replicate k [].
Proof.
  revert b. induction s as [|c s IH]; intros b.
  - exists [], 1%nat. split; [done|].
    unfold leading_separator. by rewrite andb_false_r.
  - cbn [split_runs]. destruct (is_separator c) eqn:Hc.
    + destruct (IH true) as (ws & k & Hws & ->). exists ws, k. split; [done|].
      unfold leading_separator. rewrite Hc. by destruct b.
    + destruct (IH false) as (ws & k & Hws & ->).
      unfold leading_separator at 2. rewrite Hc, andb_false_r.
      destruct (leading_separator false s).
      * exists ([c] :: ws), k. split; [|done]. by constructor.
      * destruct Hws as [|w ws Hw Hws].
        -- exists [[c]], (pred k). split; [by repeat constructor|].
           by destruct k.
        -- exists ((c :: w) :: ws), k. split; [|done]. by constructor.
Qed.

Lemma filter_non_empty_shape (lead : bool) (ws : list (list ascii)) k :
  Forall (λ w, w ≠ []) ws →
  filter (λ w, w ≠ []) ((if lead then [[]] else []) ++ ws ++ replicate k [])
  = ws.
Proof.
  intros Hws.
  assert (filter (λ w : list ascii, w ≠ []) (ws ++ replicate k []) = ws) as H.
  { rewrite filter_app.
    assert (filter (λ w : list ascii, w ≠ []) (replicate k []) = []) as ->.
    { induction k as [|k IH]; [done|]. simpl.
      by rewrite filter_cons_False by (by intros ?). }
    rewrite app_nil_r. induction Hws as [|w ws Hw _ IH]; [done|].
    by rewrite filter_cons_True, IH by done. }
  destruct lead; [|done].
  simpl. by rewrite filter_cons_False by (by intros ?).
Qed.

(** X17. The training script and the fallback tokenizer of the analyzer
    build the same row of 512 tokens for a code that does not begin with a
    separator.  For a code that does, the training script hashes the empty
    piece before the separator: its row is the analyzer's row moved one
    place to the right behind a 0. *)
Theorem training_row_against_analyzer_row (code : string) :
  let row := padSequence (CodeAnalyzer.simpleTokenize code) 512 in
  Training.training_row code
  = if leading_separator false (lit code) then take 512 (0%Z :: row) else row.
Proof.
  cbn zeta. unfold Training.training_row, Training.tokenizeCode.
  rewrite simpleTokenize_tokens.
  destruct (split_runs_shape (lit code) false) as (ws & k & Hws & ->).
  rewrite filter_non_empty_shape by done.
  rewrite fmap_app, fmap_app, fmap_replicate.
  change (Z.rem (word_hash []) 5000) with 0%Z.
  set (h := λ word, Z.rem (word_hash word) 5000).
  destruct (leading_separator false (lit code)).
  - change (h <$> [[]]) with [0%Z]. cbn [app].
    rewrite padSequence_cons by lia.
    change 512%nat with (S 511). cbn [take]. f_equal.
    change 511%nat with (Z.to_nat 511).
    rewrite take_padSequence by lia.
    apply padSequence_ext; [lia|]. intros i Hi.
    rewrite default_lookup_zeros, default_lookup_take by lia. done.
  - cbn [fmap list_fmap app].
    apply padSequence_ext; [lia|]. intros i Hi.
    rewrite default_lookup_zeros, default_lookup_take by lia. done.
Qed.

(** * Properties of the rewriting passes *)

Lemma suffix_Exists (P : ascii → Prop) (s' s : list ascii) :
  s' `suffix_of` s → Exists P s' → Exists P s.
Proof. intros [k ->] ?. apply Exists_app. by right. Qed.

Lemma m_atom_requires {R} P a (k : list ascii → option R) s r :
  atom_requires P a → Regex.m_atom a k s = Some r →
  Exists (λ c, P c = true) s.
Proof.
  destruct a as [l|p|p|p|p|p|alts]; simpl; try done.
  - intros Hl (s' & ->%drop_prefix_Some & _)%bind_Some.
    apply Exists_app. by left.
  - intros Hp. destruct s as [|c s]; [done|].
    destruct (p c) eqn:Hc; [|done]. intros _. apply Exists_cons_hd. auto.
  - intros Hp. destruct s as [|c s]; [done|].
    destruct (p c) eqn:Hc; [|done]. intros _. apply Exists_cons_hd. auto.
Qed.

Lemma m_atoms_requires {R} P g (k : list ascii → option R) s r :
  Exists (atom_requires P) g → Regex.m_atoms g k s = Some r →
  Exists (λ c, P c = true) s.
Proof.
  revert k s. induction g as [|a g IH]; intros k s Hex; [by inv Hex|].
  simpl. inv Hex as [?? Ha|?? Hg].
  - by apply m_atom_requires.
  - intros (s1 & Hs1 & Hk)%m_atom_suffix.
    eapply suffix_Exists; [exact Hs1|]. by eapply IH.
Qed.

Lemma m_items_requires P l caps s r :
  Exists (item_requires P) l → Regex.m_items l caps s = Some r →
  Exists (λ c, P c = true) s.
Proof.
  revert caps s. induction l as [|i l IH]; intros caps s Hex; [by inv Hex|].
  destruct i as [a|g]; simpl.
  - inv Hex as [?? Hneed|?? Hrest].
    + by apply m_atom_requires.
    + intros (s1 & Hs1 & Hk)%m_atom_suffix.
      eapply suffix_Exists; [exact Hs1|]. by eapply IH.
  - inv Hex as [?? Hneed|?? Hrest].
    + by apply m_atoms_requires.
    + intros (s1 & Hs1 & Hk)%m_atoms_suffix.
      eapply suffix_Exists; [exact Hs1|]. by eapply IH.
Qed.

Lemma free_of_spec P code :
  free_of P code = true → ¬ Exists (λ c, P c = true) (lit code).
Proof.
  unfold free_of. generalize (lit code). intros s.
  induction s as [|c s IH]; simpl; [by intros _ H; inv H|].
  intros [Hc Hs]%andb_prop H. inv H as [?? Hp|?? Hp].
  - rewrite Hp in Hc. done.
  - by apply IH.
Qed.

Lemma replace_requires P re f code :
  Exists (item_requires P) (Regex.body re) → free_of P code = true →
  Regex.replace re f code = code.
Proof.
  intros Hex Hfree%free_of_spec. apply replace_unchanged, scan_no_match.
  intros prev t Ht. unfold Regex.exec.
  destruct (_ && _); [done|].
  destruct (Regex.m_items _ _ _) as [r|] eqn:Hm; [|done].
  destruct Hfree. eapply suffix_Exists; [exact Ht|].
  by eapply m_items_requires.
Qed.

Lemma arith_regex_requires_operand op :
  Exists (item_requires is_w_or_dot) (Regex.body (arith_regex op)).
Proof. apply Exists_cons_hd. simpl. apply Exists_cons_hd. by simpl. Qed.

Lemma arith_regex_requires_digit op :
  Exists (item_requires JS.is_digit) (Regex.body (arith_regex op)).
Proof.
  do 4 apply Exists_cons_tl. apply Exists_cons_hd. simpl.
  apply Exists_cons_hd. by simpl.
Qed.

(** X18. The arithmetic pass changes nothing in a text that has no letter
    [w] and no dot, and nothing in a text that has no decimal digit: each of
    its three patterns needs an operand made of [w] and dots and a run of
    digits. *)
Theorem encodeArithmetic_needs_w_or_dot_and_digit
  (log2_text : N → list ascii) (code : string) :
  free_of is_w_or_dot code = true ∨ free_of JS.is_digit code = true →
  encodeArithmetic log2_text code = code.
Proof.
  intros H. unfold encodeArithmetic. cbn [foldl].
  assert (∀ op f, Regex.replace (arith_regex op) f code = code) as Hop.
  { intros op f. destruct H as [H|H].
    - apply (replace_requires is_w_or_dot);
        [apply arith_regex_requires_operand|done].
    - apply (replace_requires JS.is_digit);
        [apply arith_regex_requires_digit|done]. }
  by rewrite !Hop.
Qed.

Lemma encodeArithmetic_needs_w_or_dot_and_digit_witness :
  free_of is_w_or_dot "total = x + 5 * y - 12;" = true ∧
  ∀ log2_text,
    encodeArithmetic log2_text "total = x + 5 * y - 12;"
    = "total = x + 5 * y - 12;".
Proof.
  split; [reflexivity|]. intros log2_text.
  apply (encodeArithmetic_needs_w_or_dot_and_digit log2_text).
  left. reflexivity.
Defined.

Lemma varRegex_needs_equals : Exists (item_needs "=") (Regex.body varRegex).
Proof. do 4 apply Exists_cons_tl. apply Exists_cons_hd. by left. Qed.

Lemma varRegex_needs_semicolon : Exists (item_needs ";") (Regex.body varRegex).
Proof. do 7 apply Exists_cons_tl. apply Exists_cons_hd. by left. Qed.

(** X19. The wrapping pass changes nothing in a text without an equals
    sign, and nothing in a text without a semicolon: a declaration that is
    not closed by [;] is never wrapped. *)
Theorem applyVariableHiding_needs_equals_and_semicolon (code : string) :
  "="%char ∉ lit code ∨ ";"%char ∉ lit code →
  applyVariableHiding code = code.
Proof.
  intros [H|H]; unfold applyVariableHiding.
  - by apply (replace_needs "="), H; apply varRegex_needs_equals.
  - by apply (replace_needs ";"), H; apply varRegex_needs_semicolon.
Qed.

Lemma applyVariableHiding_needs_equals_and_semicolon_witness :
  (";"%char ∉ lit "let x = 5
const y = x") ∧
  applyVariableHiding "let x = 5
const y = x" = "let x = 5
const y = x".
Proof.
  assert (";"%char ∉ lit "let x = 5
const y = x") as H
    by (apply (bool_decide_unpack _); vm_compute; exact I).
  split; [exact H|].
  apply applyVariableHiding_needs_equals_and_semicolon. by right.
Defined.

(** X20. On a text of declarations in canonical form, one on each line,
    the wrapping pass rewrites every declaration [KEYWORD NAME = VALUE;]
    into [KEYWORD NAME = (VALUE * 1 + 0);] and keeps the lines and their
    order. *)
Theorem applyVariableHiding_wraps_each_declaration (ds : list declaration) :
  forallb canonical ds = true →
  applyVariableHiding (program ds)
  = string_of_list_ascii (lines (wrapped_statement <$> ds)).
Proof. apply applyVariableHiding_program. Qed.

Lemma applyVariableHiding_wraps_each_declaration_witness :
  let ds := [ {| d_keyword := "var"; d_name := "$n"; d_value := "a.b[0]" |};
              {| d_keyword := "let"; d_name := "k"; d_value := "7" |} ] in
  forallb canonical ds = true ∧
  applyVariableHiding (program ds) = "var $n = (a.b[0] * 1 + 0);
let k = (7 * 1 + 0);
".
Proof.
  intros ds. split; [reflexivity|].
  apply (applyVariableHiding_wraps_each_declaration ds). reflexivity.
Defined.

(** * Ring settings against start positions *)

Lemma same_tables_refl r : same_tables r r.
Proof. done. Qed.

Lemma same_tables_trans r r' r'' :
  same_tables r r' → same_tables r' r'' → same_tables r r''.
Proof. intros [??] [??]. split; congruence. Qed.

Lemma same_tables_sym r r' : same_tables r r' → same_tables r' r.
Proof. intros [??]. by split. Qed.

Lemma rotate_once_same_tables fwd r r' :
  same_tables r r' →
  same_tables (Rotor.rotate_once fwd r) (Rotor.rotate_once fwd r').
Proof.
  intros [Hl Hr]. unfold Rotor.rotate_once.
  destruct fwd; split; cbn [Rotor.left Rotor.right]; by rewrite ?Hl, ?Hr.
Qed.

Lemma rotate_same_tables n fwd r r' :
  same_tables r r' → same_tables (Rotor.rotate n fwd r) (Rotor.rotate n fwd r').
Proof.
  intros H. unfold Rotor.rotate.
  induction (Z.to_nat n) as [|k IH]; [done|].
  change (Nat.iter (S k) ?f ?x) with (f (Nat.iter k f x)).
  by apply rotate_once_same_tables.
Qed.

Lemma setRing_same_tables n r :
  same_tables (Rotor.setRing (Some n) r) (Rotor.rotate (n - 1) false r).
Proof. done. Qed.

Lemma rotate_back_then_forth r0 r s :
  wf_rotor r0 → (0 ≤ r < 26)%Z → (0 ≤ s < 26)%Z →
  Rotor.rotate s true (Rotor.rotate r false r0)
  = Rotor.rotate ((s - r) mod 26) true r0.
Proof.
  intros Hwf Hr Hs.
  assert (∀ n x, wf_rotor x →
            Rotor.rotate n true (Rotor.rotate n false x) = x ∧
            Rotor.rotate n false (Rotor.rotate n true x) = x) as Hcancel.
  { intros n x Hx. apply (rotate_cancel_nat (Z.to_nat n) x Hx). }
  destruct (decide (r ≤ s)%Z).
  - rewrite Z.mod_small by lia.
    replace s with ((s - r) + r)%Z at 1 by lia.
    destruct (rotate_adds_and_has_period_26_aux
                (Rotor.rotate r false r0) (s - r)
                (rotate_wf r false r0 Hwf)) as [Hadd _].
    rewrite Hadd by lia. by rewrite (proj1 (Hcancel r r0 Hwf)).
  - replace ((s - r) mod 26)%Z with (s + (26 - r))%Z.
    2:{ symmetry. rewrite <-(Z.mod_add _ 1 26) by lia.
        rewrite Z.mod_small; lia. }
    destruct (rotate_adds_and_has_period_26_aux r0 s Hwf) as [Hadd _].
    rewrite Hadd by lia. f_equal.
    rewrite <-(rotate_26_forward r0 Hwf) at 1.
    destruct (rotate_adds_and_has_period_26_aux r0 r Hwf) as [Hadd' _].
    replace 26%Z with (r + (26 - r))%Z at 1 by lia.
    rewrite Hadd' by lia.
    apply (Hcancel r), rotate_wf, Hwf.
Qed.

Lemma letter_index_upper c :
  JS.is_upper c = true →
  (0 ≤ letter_index c < 26)%Z ∧ JS.char_toUpperCase c = c.
Proof.
  intros Hc. split.
  - apply (keyboard_forward_letter c Hc).
  - apply (upper_letter_case c Hc).
Qed.

Lemma letter_at_index k :
  (0 ≤ k < 26)%Z →
  JS.is_upper (letter_at k) = true ∧ letter_index (letter_at k) = k.
Proof.
  revert k.
  apply (Forall_seqZ (λ k, JS.is_upper (letter_at k) = true
                           ∧ letter_index (letter_at k) = k) 0 26).
  vm_compute seqZ. repeat constructor.
Qed.

Lemma ring_start_rotor r0 a x :
  wf_rotor r0 → JS.is_upper a = true → JS.is_upper x = true →
  same_tables
    (Rotor.rotateToLetter (JS.toUpperCase (String x EmptyString))
       (Rotor.setRing (Some (letter_index a + 1)%Z) r0))
    (Rotor.rotateToLetter
       (JS.toUpperCase
          (String (letter_at ((letter_index x - letter_index a) mod 26))
             EmptyString))
       (Rotor.setRing (Some (letter_index "A" + 1)%Z) r0)).
Proof.
  intros Hwf [Ha _]%letter_index_upper [Hx Hxu]%letter_index_upper.
  assert (0 ≤ (letter_index x - letter_index a) mod 26 < 26)%Z as Hk
    by (apply Z.mod_pos_bound; lia).
  destruct (letter_at_index _ Hk) as [[_ Hku]%letter_index_upper Hki].
  unfold Rotor.rotateToLetter. cbn [JS.toUpperCase]. rewrite Hxu, Hku.
  fold (letter_index x).
  fold (letter_index (letter_at ((letter_index x - letter_index a) mod 26))).
  rewrite Hki.
  eapply same_tables_trans.
  { apply rotate_same_tables, setRing_same_tables. }
  eapply same_tables_trans.
  2:{ apply same_tables_sym, rotate_same_tables, setRing_same_tables. }
  replace (letter_index a + 1 - 1)%Z with (letter_index a) by lia.
  change (letter_index "A" + 1 - 1)%Z with 0%Z.
  rewrite rotate_back_then_forth by done.
  apply same_tables_refl.
Qed.

Lemma core_same_machine e e' s :
  same_machine e e' → core e s = core e' s.
Proof.
  intros (Hre & [Hl1 Hr1] & [Hl2 Hr2] & [Hl3 Hr3] & Hpb).
  unfold core, Rotor.forward, Rotor.backward.
  by rewrite Hre, Hl1, Hr1, Hl2, Hr2, Hl3, Hr3, Hpb.
Qed.

Lemma advance_same_machine e e' :
  same_machine e e' → same_machine (advance e) (advance e').
Proof.
  intros (Hre & H1 & H2 & H3 & Hpb). unfold advance.
  split; [done|]. split; [done|]. split; [done|]. split; [|done].
  by apply rotate_same_tables.
Qed.

Lemma codec_char_same_machine e e' c :
  same_machine e e' →
  same_machine (codec_char e c).1 (codec_char e' c).1 ∧
  (codec_char e c).2 = (codec_char e' c).2.
Proof.
  intros H. rewrite !codec_char_unfold.
  destruct (JS.is_letter c); [|done].
  cbn zeta.
  rewrite (encipher_core e), (encipher_core e'). cbn [fst snd Enigma.letter].
  split; [by apply advance_same_machine|].
  by rewrite (core_same_machine _ _ _ (advance_same_machine _ _ H)).
Qed.

Lemma codec_run_same_machine e e' text :
  same_machine e e' → codec_run e text = codec_run e' text.
Proof.
  revert e e'. induction text as [|c text IH]; intros e e' H; [done|].
  cbn [codec_run].
  destruct (codec_char_same_machine e e' c H) as [Hm Hp].
  destruct (codec_char e c) as [e1 p1], (codec_char e' c) as [e1' p1'].
  simpl in *. subst. by rewrite (IH e1 e1').
Qed.

Lemma build_enigma_same_machine C a b c x y z :
  rings C = String a (String b (String c EmptyString)) →
  rotorStart C = String x (String y (String z EmptyString)) →
  JS.is_upper a = true → JS.is_upper b = true → JS.is_upper c = true →
  JS.is_upper x = true → JS.is_upper y = true → JS.is_upper z = true →
  match build_enigma C,
        build_enigma (with_key C "AAA" (net_start (rings C) (rotorStart C)))
  with
  | Some e, Some e' => same_machine e e'
  | None, None => True
  | _, _ => False
  end.
Proof.
  intros HR HS Ha Hb Hc Hx Hy Hz. unfold build_enigma.
  cbn [with_key rotors reflector plugboard rings rotorStart].
  rewrite HR, HS.
  destruct (JS.split "-" (rotors C) !! 0%nat ≫= (rotorWirings !!.))
    as [w1|] eqn:H1; [|done].
  destruct (JS.split "-" (rotors C) !! 1%nat ≫= (rotorWirings !!.))
    as [w2|] eqn:H2; [|done].
  destruct (JS.split "-" (rotors C) !! 2%nat ≫= (rotorWirings !!.))
    as [w3|] eqn:H3; [|done].
  destruct (reflectorWirings !! reflector C) as [wr|] eqn:Hr; [|done].
  apply bind_Some in H1 as (n1 & _ & H1).
  apply bind_Some in H2 as (n2 & _ & H2).
  apply bind_Some in H3 as (n3 & _ & H3).
  cbn [mbind option_bind net_start].
  split; [done|].
  split; [apply ring_start_rotor; eauto using rotorWirings_wf|].
  split; [apply ring_start_rotor; eauto using rotorWirings_wf|].
  split; [apply ring_start_rotor; eauto using rotorWirings_wf|done].
Qed.

(** X21. A ring setting adds nothing to the key.  For ring letters and
    start letters that are capitals, the codec gives on every text the same
    result as with the ring setting AAA and, rotor by rotor, the start
    letter moved back by the ring letter; an unknown rotor or reflector name
    fails in both. *)
Theorem ring_setting_is_a_start_offset
  (C : Configuration) (text : string) (o : bool) :
  is_key (rings C) = true → is_key (rotorStart C) = true →
  enigmaObfuscate text C o
  = enigmaObfuscate text
      (with_key C "AAA" (net_start (rings C) (rotorStart C))) o.
Proof.
  intros HR HS. unfold enigmaObfuscate.
  destruct (rings C) as [|a [|b [|c [|]]]] eqn:ER; try done.
  destruct (rotorStart C) as [|x [|y [|z [|]]]] eqn:ES; try done.
  cbn [is_key] in HR, HS.
  apply andb_prop in HR as [[Ha Hb]%andb_prop Hc].
  apply andb_prop in HS as [[Hx Hy]%andb_prop Hz].
  pose proof (build_enigma_same_machine C a b c x y z ER ES
                Ha Hb Hc Hx Hy Hz) as H.
  rewrite ER, ES in H.
  destruct (build_enigma C) as [e|],
    (build_enigma (with_key C "AAA" _)) as [e'|]; try done.
  cbn [mbind option_bind]. f_equal.
  rewrite !codec_loop_run. f_equal. by apply codec_run_same_machine.
Qed.

Lemma ring_setting_is_a_start_offset_witness :
  let C := {| rotors := "II-IV-I"; rotorStart := "CAT"; rings := "DOG";
              plugboard := "AB CD"; reflector := "B" |} in
  is_key (rings C) = true ∧ is_key (rotorStart C) = true ∧
  net_start (rings C) (rotorStart C) = "ZMN" ∧
  enigmaObfuscate "Hello, World" C true
  = enigmaObfuscate "Hello, World" (with_key C "AAA" "ZMN") true.
Proof.
  intros C. split; [reflexivity|]. split; [reflexivity|].
  split; [reflexivity|].
  apply (ring_setting_is_a_start_offset C "Hello, World" true); reflexivity.
Defined.

(** * Control-flow flattening *)

Lemma lit_app (a b : string) : lit (a +:+ b) = lit a ++ lit b.
Proof.
  induction a as [|c a IH]; [by rewrite append_empty_l|].
  rewrite append_cons. simpl. by rewrite <-IH.
Qed.

Lemma free_of_app P a b :
  free_of P (a +:+ b) = free_of P a && free_of P b.
Proof. unfold free_of. by rewrite lit_app, forallb_app. Qed.

Lemma free_of_cons P c s :
  free_of P (String c s) = negb (P c) && free_of P s.
Proof. done. Qed.

Lemma split_no_sep sep s :
  free_of (is_char sep) s = true → JS.split sep s = [s].
Proof.
  induction s as [|c s IH]; [done|].
  rewrite free_of_cons. intros [Hc Hs]%andb_prop. cbn [JS.split].
  rewrite decide_False.
  - by rewrite IH.
  - intros ->. unfold is_char in Hc. by rewrite bool_decide_eq_true_2 in Hc.
Qed.

Lemma split_app_sep sep a b :
  free_of (is_char sep) a = true →
  JS.split sep (a +:+ String sep b) = a :: JS.split sep b.
Proof.
  induction a as [|c a IH].
  - intros _. rewrite append_empty_l. cbn [JS.split]. by rewrite decide_True.
  - rewrite free_of_cons. intros [Hc Hs]%andb_prop.
    rewrite append_cons. cbn [JS.split]. rewrite decide_False.
    + by rewrite IH.
    + intros ->. unfold is_char in Hc. by rewrite bool_decide_eq_true_2 in Hc.
Qed.

Lemma nl_append (s : string) : nl +:+ s = String "010" s.
Proof. unfold nl. by rewrite append_cons, append_empty_l. Qed.

Lemma array_join_cons sep x y l :
  array_join sep (x :: y :: l) = x +:+ sep +:+ array_join sep (y :: l).
Proof. done. Qed.

Lemma split_array_join l :
  l ≠ [] → forallb no_newline l = true →
  JS.split "010" (array_join nl l) = l.
Proof.
  induction l as [|x l IH]; [done|]. intros _.
  cbn [forallb]. intros [Hx Hl]%andb_prop.
  destruct l as [|y l]; [by apply split_no_sep|].
  rewrite array_join_cons, nl_append, split_app_sep by done.
  by rewrite IH.
Qed.

Lemma array_join_app sep l1 l2 :
  l1 ≠ [] → l2 ≠ [] →
  array_join sep (l1 ++ l2)
  = array_join sep l1 +:+ sep +:+ array_join sep l2.
Proof.
  intros H1 H2. induction l1 as [|x l1 IH]; [done|].
  destruct l1 as [|y l1].
  - destruct l2 as [|z l2]; [done|]. done.
  - change ((x :: y :: l1) ++ l2) with (x :: y :: (l1 ++ l2)).
    rewrite !array_join_cons.
    change (y :: l1 ++ l2) with ((y :: l1) ++ l2).
    rewrite IH by done. by rewrite !append_assoc.
Qed.

Lemma array_join_indent (fl : list string) :
  fl ≠ [] →
  "    " +:+ array_join (nl +:+ "    ") fl
  = array_join nl (indent <$> fl).
Proof.
  induction fl as [|x fl IH]; [done|]. intros _.
  destruct fl as [|y fl]; [done|].
  rewrite !fmap_cons, !array_join_cons.
  rewrite <-!fmap_cons, <-IH by done.
  by rewrite !append_assoc.
Qed.

Lemma split_lines_no_newline code :
  forallb no_newline (JS.split "010" code) = true.
Proof.
  induction code as [|c code IH]; [done|]. cbn [JS.split].
  case_decide as Hc; [cbn [forallb]; by rewrite IH|].
  destruct (JS.split "010" code) as [|w ws]; cbn [forallb] in *.
  - unfold no_newline. rewrite free_of_cons. unfold is_char.
    by rewrite bool_decide_eq_false_2.
  - apply andb_prop in IH as [Hw ->].
    unfold no_newline in *. rewrite free_of_cons, Hw. unfold is_char.
    by rewrite bool_decide_eq_false_2.
Qed.

Lemma split_non_empty sep s : JS.split sep s ≠ [].
Proof.
  destruct s as [|c s]; [done|]. cbn [JS.split].
  case_decide; [done|]. by destruct (JS.split sep s).
Qed.

Lemma trimStart_free_of P s :
  free_of P s = true → free_of P (JS.trimStart s) = true.
Proof.
  induction s as [|c s IH]; [done|]. intros H. cbn [JS.trimStart].
  destruct (JS.is_space c); [|done].
  rewrite free_of_cons in H. apply andb_prop in H as [_ H]. by apply IH.
Qed.

Lemma trimEnd_free_of P s :
  free_of P s = true → free_of P (JS.trimEnd s) = true.
Proof.
  induction s as [|c s IH]; [done|].
  rewrite free_of_cons. intros [Hc Hs]%andb_prop. cbn [JS.trimEnd].
  specialize (IH Hs). destruct (JS.trimEnd s) as [|c' t].
  - destruct (JS.is_space c); [done|]. by rewrite free_of_cons, Hc.
  - by rewrite free_of_cons, Hc, IH.
Qed.

Lemma trim_no_newline s : no_newline s = true → no_newline (JS.trim s) = true.
Proof. intros H. by apply trimEnd_free_of, trimStart_free_of. Qed.

Lemma number_text_no_newline n : no_newline (number_text n) = true.
Proof.
  unfold number_text. generalize (N.to_uint n). intros d.
  assert (∀ d, no_newline (NilEmpty.string_of_uint d) = true) as H.
  { clear d. induction d; simpl; try done;
      unfold no_newline; by rewrite free_of_cons. }
  destruct d; try done; apply H.
Qed.

Lemma no_newline_app a b :
  no_newline (a +:+ b) = no_newline a && no_newline b.
Proof. apply free_of_app. Qed.

Lemma no_newline_indent s : no_newline (indent s) = no_newline s.
Proof. unfold indent. by rewrite no_newline_app. Qed.

Lemma case_blocks_no_newline state lines :
  forallb no_newline lines = true →
  forallb no_newline (indent <$> case_blocks state lines) = true.
Proof.
  revert state. induction lines as [|line lines IH]; intros state; [done|].
  cbn [forallb]. intros [Hline Hlines]%andb_prop.
  cbn [case_blocks app fmap list_fmap forallb].
  fold (@fmap list _ _ _ indent (case_blocks (state + 1) lines)).
  rewrite IH by done.
  rewrite !no_newline_indent, !no_newline_app, !number_text_no_newline, Hline.
  by rewrite (trim_no_newline line Hline).
Qed.

Lemma flatten_loop lines acc state :
  foldl flatten_step (acc, state) lines
  = (acc ++ case_blocks state lines, (state + N.of_nat (length lines))%N).
Proof.
  revert acc state. induction lines as [|line lines IH]; intros acc state.
  - simpl. by rewrite app_nil_r, N.add_0_r.
  - cbn [foldl flatten_step]. rewrite IH. cbn [case_blocks length].
    rewrite <-app_assoc. f_equal. lia.
Qed.

Lemma case_blocks_length state lines :
  length (case_blocks state lines) = (3 * length lines)%nat.
Proof.
  revert state. induction lines as [|line lines IH]; intros state; [done|].
  cbn [case_blocks length app]. rewrite IH. lia.
Qed.

Lemma case_blocks_lookup state lines i line :
  lines !! i = Some line →
  case_blocks state lines !! (3 * i)%nat
  = Some ("case " +:+ number_text (state + N.of_nat i) +:+ ": // "
            +:+ JS.trim line) ∧
  case_blocks state lines !! (3 * i + 1)%nat = Some line ∧
  case_blocks state lines !! (3 * i + 2)%nat
  = Some ("state = " +:+ number_text (state + N.of_nat i + 1) +:+ "; break;").
Proof.
  revert state i. induction lines as [|l lines IH]; intros state i; [done|].
  destruct i as [|i].
  - intros [= ->]. cbn [case_blocks]. rewrite N.add_0_r. done.
  - intros Hi. cbn [case_blocks].
    replace (3 * S i)%nat with (S (S (S (3 * i)))) by lia.
    cbn [app lookup list_lookup Nat.add].
    destruct (IH (state + 1)%N i Hi) as (H0 & H1 & H2).
    replace (state + 1 + N.of_nat i)%N with (state + N.of_nat (S i))%N
      in H0, H2 by lia.
    done.
Qed.

Lemma flattenControlFlow_lines code :
  JS.split "010" (flattenControlFlow code)
  = [ "let state = 0;";
      "while (state < "
        +:+ number_text (N.of_nat (length (JS.split "010" code))) +:+ ") {";
      "  switch(state) {" ]
      ++ (indent <$> case_blocks 0 (JS.split "010" code))
      ++ [ "  }"; "}" ].
Proof.
  unfold flattenControlFlow. rewrite flatten_loop. cbn [app].
  rewrite N.add_0_l.
  pose proof (split_non_empty "010" code) as Hne.
  pose proof (split_lines_no_newline code) as Hnl.
  set (lines := JS.split "010" code) in *.
  assert (case_blocks 0 lines ≠ []) as Hblocks.
  { intros E. apply (f_equal length) in E.
    rewrite case_blocks_length in E. destruct lines; [done|]. simpl in E. lia. }
  set (blocks := case_blocks 0 lines) in *.
  set (header := [ "let state = 0;";
                   "while (state < " +:+ number_text (N.of_nat (length lines))
                     +:+ ") {";
                   "  switch(state) {" ]).
  transitivity
    (JS.split "010"
       (array_join nl (header ++ (indent <$> blocks) ++ ["  }"; "}"]))).
  - f_equal. rewrite array_join_app; [|done|by destruct blocks].
    rewrite array_join_app; [|by destruct blocks|done].
    rewrite <-array_join_indent by done.
    subst header. rewrite !array_join_cons. cbn [array_join].
    by rewrite !append_assoc.
  - apply split_array_join; [done|].
    cbn [forallb]. rewrite forallb_app. subst blocks.
    rewrite case_blocks_no_newline by done.
    cbn [forallb].
    by rewrite !no_newline_app, number_text_no_newline.
Qed.

(** X22. Control-flow flattening keeps every line of its input, in order.
    The result has three header lines, three lines for each line of the
    input and two closing lines; for line number [i] of the input these are
    a [case i:] label that quotes the trimmed line, the line itself behind
    four blanks, and the assignment of [i + 1] to the state. *)
Theorem flattenControlFlow_keeps_every_line (code : string) :
  let lines := JS.split "010" code in
  let out := JS.split "010" (flattenControlFlow code) in
  length out = (3 * length lines + 5)%nat ∧
  out !! 1%nat
  = Some ("while (state < " +:+ number_text (N.of_nat (length lines))
            +:+ ") {") ∧
  ∀ i line, lines !! i = Some line →
    out !! (3 * i + 3)%nat
    = Some ("    case " +:+ number_text (N.of_nat i) +:+ ": // "
              +:+ JS.trim line) ∧
    out !! (3 * i + 4)%nat = Some ("    " +:+ line) ∧
    out !! (3 * i + 5)%nat
    = Some ("    state = " +:+ number_text (N.of_nat i + 1) +:+ "; break;").
Proof.
  cbn zeta. rewrite flattenControlFlow_lines.
  split; [|split; [done|]].
  - cbn [app length]. rewrite length_app, length_fmap, case_blocks_length.
    simpl. lia.
  - intros i line Hi.
    destruct (case_blocks_lookup 0 _ i line Hi) as (H0 & H1 & H2).
    rewrite N.add_0_l in H0, H2.
    assert (∀ j x, case_blocks 0 (JS.split "010" code) !! j = Some x →
              ([ "let state = 0;";
                 "while (state < "
                   +:+ number_text (N.of_nat (length (JS.split "010" code)))
                   +:+ ") {";
                 "  switch(state) {" ]
                 ++ (indent <$> case_blocks 0 (JS.split "010" code))
                 ++ [ "  }"; "}" ]) !! (j + 3)%nat
              = Some ("    " +:+ x)) as Hlook.
    { intros j x Hj. rewrite lookup_app_r by (simpl; lia).
      replace (j + 3 - length _)%nat with j by (simpl; lia).
      rewrite lookup_app_l.
      - by rewrite list_lookup_fmap, Hj.
      - rewrite length_fmap. by eapply lookup_lt_Some. }
    replace (3 * i + 4)%nat with (3 * i + 1 + 3)%nat by lia.
    replace (3 * i + 5)%nat with (3 * i + 2 + 3)%nat by lia.
    rewrite (Hlook _ _ H0), (Hlook _ _ H1), (Hlook _ _ H2).
    repeat split; reflexivity.
Qed.
